(** * nuklear_cairo: a Cairo frame-buffer backend for Nuklear

    A shallow embedding of [nuklear_cairo.h] and the properties of its
    font cache and command renderer.

    The embedding follows the C source function by function.  Calls into
    Cairo are recorded, in order, in the drawing context they are made
    on (calls on a surface in the log of the context that draws on it);
    the few pieces of library state the source reads back (the current
    transformation matrix, the selected font face and size) are fields
    of the context.  C [double] and [float] arithmetic is kept behind an
    interface, with IEEE 754 binary64/binary32 as one instance and exact
    rational arithmetic as another.  Assertions are taken as compiled in
    (no [NDEBUG]), as the header relies on them for its calls into
    FreeType. *)

From Stdlib Require Import ZArith List Bool Strings.Byte String Lia.
From Stdlib Require Import QArith Qcanon Field.
From Stdlib Require Import Floats.SpecFloat.
From stdpp Require Import base tactics option list strings.

Local Open Scope Z_scope.

(** ** Outcomes of a C call

    [assert] aborts the process; an access outside an array or through
    a null pointer has no defined behaviour. *)

Inductive outcome (A : Type) : Type :=
  | Ok (a : A)
  | AssertFailed
  | Undefined.
Arguments Ok {A} a.
Arguments AssertFailed {A}.
Arguments Undefined {A}.

#[export] Instance outcome_bind : MBind outcome := fun A B k m =>
  match m with
  | Ok a => k a
  | AssertFailed => AssertFailed
  | Undefined => Undefined
  end.

(** [assert(b)] *)
Definition assert (b : bool) : outcome unit :=
  if b then Ok tt else AssertFailed.

(** [a[i]] read from an array *)
Definition aread {A} (a : list A) (i : Z) : outcome A :=
  if i <? 0 then Undefined
  else match a !! Z.to_nat i with
       | Some x => Ok x
       | None => Undefined
       end.

(** [a[i] = f(a[i])]: a store into a field of the [i]-th element *)
Definition awrite {A} (a : list A) (i : Z) (f : A -> A) : outcome (list A) :=
  x ← aread a i; Ok (<[Z.to_nat i := f x]> a).

(** ** C floating-point arithmetic *)

Class CFloat := {
  float : Type;
  double : Type;
  i2f : Z -> float;                 (* (float)i *)
  i2d : Z -> double;                (* (double)i *)
  f2d : float -> double;            (* widening *)
  d2f : double -> float;            (* narrowing, as in [return] from a [float] function *)
  fadd : float -> float -> float;
  fmul : float -> float -> float;
  dadd : double -> double -> double;
  dmul : double -> double -> double;
  ddiv : double -> double -> double;
  dltb : double -> double -> bool;
  NK_PI : float                     (* nuklear.h: #define NK_PI 3.141592654f *)
}.

(** The comparison is a strict order test: nothing is below itself, and
    of two values at most one is below the other.  IEEE comparison has
    both properties, NaN included. *)
Class StrictLt (F : CFloat) := {
  dltb_irrefl : forall a : double, dltb a a = false;
  dltb_asym : forall a b : double, dltb a b = true -> dltb b a = false
}.

(** Arithmetic without rounding: [double] is a field of characteristic 0. *)
Class ExactArith (F : CFloat) := {
  dsub : double -> double -> double;
  dopp : double -> double;
  dinv : double -> double;
  d_field : field_theory (i2d 0) (i2d 1) dadd dmul dsub dopp ddiv dinv eq;
  i2d_nonzero : forall z : Z, z <> 0 -> i2d z <> i2d 0
}.

(** *** IEEE 754 instance *)

Module IEEE.

Definition prec64 : Z := 53.
Definition emax64 : Z := 1024.
Definition prec32 : Z := 24.
Definition emax32 : Z := 128.

(** Round a value to the format [(prec, emax)], to nearest even. *)
Definition round_to (prec emax : Z) (x : spec_float) : spec_float :=
  match x with
  | S754_finite s m e => binary_normalize prec emax (cond_Zopp s (Zpos m)) e s
  | _ => x
  end.

Definition of_Z (prec emax : Z) (z : Z) : spec_float :=
  binary_normalize prec emax z 0 false.

#[export] Instance ieee : CFloat := {|
  float := spec_float;
  double := spec_float;
  i2f := of_Z prec32 emax32;
  i2d := of_Z prec64 emax64;
  f2d := round_to prec64 emax64;
  d2f := round_to prec32 emax32;
  fadd := SFadd prec32 emax32;
  fmul := SFmul prec32 emax32;
  dadd := SFadd prec64 emax64;
  dmul := SFmul prec64 emax64;
  ddiv := SFdiv prec64 emax64;
  dltb := SFltb;
  NK_PI := S754_finite false 13176795 (-22)
|}.

End IEEE.

(** *** Exact rational instance *)

Module Exact.

#[export] Instance rational : CFloat := {|
  float := Qc;
  double := Qc;
  i2f := fun z => Q2Qc (inject_Z z);
  i2d := fun z => Q2Qc (inject_Z z);
  f2d := fun x => x;
  d2f := fun x => x;
  fadd := Qcplus;
  fmul := Qcmult;
  dadd := Qcplus;
  dmul := Qcmult;
  ddiv := Qcdiv;
  dltb := fun a b => match Qccompare a b with Lt => true | _ => false end;
  NK_PI := Q2Qc (3141592654 # 1000000000)
|}.

End Exact.

(** ** Nuklear data read by the backend (declared in nuklear.h)

    Integer fields are C [short], [unsigned short], [unsigned char] or
    [int]; they are promoted to [int] before any arithmetic in the
    source, where sums of a few 16-bit values cannot overflow, so they
    are carried as [Z]. *)

Record nk_color := { col_r : Z; col_g : Z; col_b : Z; col_a : Z }.

Record nk_vec2i := { vec_x : Z; vec_y : Z }.

(** [handle.ptr], [w], [h] of [struct nk_image]. *)
Record nk_image := { img_ptr : Z; img_w : Z; img_h : Z }.

(** ** Cairo and FreeType *)

Section Library.
Context {F : CFloat}.

Record cairo_matrix_t := {
  m_xx : double; m_yx : double;
  m_xy : double; m_yy : double;
  m_x0 : double; m_y0 : double
}.

Record cairo_font_extents_t := {
  fe_ascent : double; fe_descent : double; fe_height : double;
  fe_max_x_advance : double; fe_max_y_advance : double
}.

Record cairo_text_extents_t := {
  te_x_bearing : double; te_y_bearing : double;
  te_width : double; te_height : double;
  te_x_advance : double; te_y_advance : double
}.

(** An image surface is known by what it was created for. *)
Record cairo_surface_t := {
  surf_data : Z; surf_width : Z; surf_height : Z; surf_stride : Z
}.

Record nk_rect_t := {
  rect_x : float; rect_y : float; rect_w : float; rect_h : float
}.

Definition nk_rect (x y w h : float) : nk_rect_t :=
  {| rect_x := x; rect_y := y; rect_w := w; rect_h := h |}.

End Library.

(** What the two libraries answer when asked about fonts.  [FT_New_Face]
    is [None] when FreeType returns a non-zero error code.  Extents
    depend on the face and size selected on the context. *)
Class FontLib (F : CFloat) := {
  FT_Face : Type;
  cairo_font_face_t : Type;
  FT_Init_FreeType : Z;
  FT_New_Face : string -> option FT_Face;
  cairo_ft_font_face_create_for_ft_face : FT_Face -> cairo_font_face_t;
  font_extents_of : option cairo_font_face_t -> double -> cairo_font_extents_t;
  text_extents_of : option cairo_font_face_t -> double -> list byte -> cairo_text_extents_t
}.

Section Cairo.
Context {F : CFloat} {L : FontLib F}.

(** One constructor per library entry point the source calls. *)
Inductive cairo_call :=
  | SetSourceRgba (r g b a : double)
  | SetLineWidth (width : double)
  | ResetClip
  | NewPath
  | NewSubPath
  | MoveTo (x y : double)
  | LineTo (x y : double)
  | Arc (xc yc radius angle1 angle2 : double)
  | Rectangle (x y width height : double)
  | ClosePath
  | Clip
  | Stroke
  | Fill
  | Paint
  | GetMatrix
  | Scale (sx sy : double)
  | SetMatrix (m : cairo_matrix_t)
  | ImageSurfaceCreate (width height : Z)
  | ImageSurfaceCreateForData (s : cairo_surface_t)
  | SetSourceSurface (s : cairo_surface_t) (x y : double)
  | SurfaceFlush
  | SurfaceDestroy
  | Create
  | Destroy
  | SetFontFace (face : option cairo_font_face_t)
  | SetFontSize (size : double)
  | FontExtents
  | TextExtents (utf8 : list byte)
  | ShowText (utf8 : list byte).

Record cairo_t := {
  cr_matrix : cairo_matrix_t;
  cr_font_face : option cairo_font_face_t;
  cr_font_size : double;
  cr_calls : list cairo_call
}.

Definition emit (cr : cairo_t) (c : cairo_call) : cairo_t :=
  {| cr_matrix := cr_matrix cr;
     cr_font_face := cr_font_face cr;
     cr_font_size := cr_font_size cr;
     cr_calls := cr_calls cr ++ [c] |}.

Definition identity_matrix : cairo_matrix_t :=
  {| m_xx := i2d 1; m_yx := i2d 0; m_xy := i2d 0; m_yy := i2d 1;
     m_x0 := i2d 0; m_y0 := i2d 0 |}.

(** [cairo_matrix_multiply(result, a, b)] *)
Definition cairo_matrix_multiply (a b : cairo_matrix_t) : cairo_matrix_t :=
  {| m_xx := dadd (dmul (m_xx a) (m_xx b)) (dmul (m_yx a) (m_xy b));
     m_yx := dadd (dmul (m_xx a) (m_yx b)) (dmul (m_yx a) (m_yy b));
     m_xy := dadd (dmul (m_xy a) (m_xx b)) (dmul (m_yy a) (m_xy b));
     m_yy := dadd (dmul (m_xy a) (m_yx b)) (dmul (m_yy a) (m_yy b));
     m_x0 := dadd (dadd (dmul (m_x0 a) (m_xx b)) (dmul (m_y0 a) (m_xy b))) (m_x0 b);
     m_y0 := dadd (dadd (dmul (m_x0 a) (m_yx b)) (dmul (m_y0 a) (m_yy b))) (m_y0 b) |}.

Definition cairo_matrix_init_scale (sx sy : double) : cairo_matrix_t :=
  {| m_xx := sx; m_yx := i2d 0; m_xy := i2d 0; m_yy := sy;
     m_x0 := i2d 0; m_y0 := i2d 0 |}.

(** [cairo_matrix_transform_point] *)
Definition cairo_matrix_transform_point (m : cairo_matrix_t) (x y : double)
  : double * double :=
  (dadd (dadd (dmul (m_xx m) x) (dmul (m_xy m) y)) (m_x0 m),
   dadd (dadd (dmul (m_yx m) x) (dmul (m_yy m) y)) (m_y0 m)).

(** *** The context API *)

(** [cairo_create(surface)] right after the surface was made by
    [created]: identity transform, default font face, default font
    size 10.  The log of a context starts with its target surface. *)
Definition cairo_create (created : cairo_call) : cairo_t :=
  {| cr_matrix := identity_matrix; cr_font_face := None;
     cr_font_size := i2d 10; cr_calls := [created; Create] |}.

Definition cairo_set_source_rgba cr r g b a := emit cr (SetSourceRgba r g b a).
Definition cairo_set_line_width cr w := emit cr (SetLineWidth w).
Definition cairo_reset_clip cr := emit cr ResetClip.
Definition cairo_new_path cr := emit cr NewPath.
Definition cairo_new_sub_path cr := emit cr NewSubPath.
Definition cairo_move_to cr x y := emit cr (MoveTo x y).
Definition cairo_line_to cr x y := emit cr (LineTo x y).
Definition cairo_arc cr xc yc radius a1 a2 := emit cr (Arc xc yc radius a1 a2).
Definition cairo_rectangle cr x y w h := emit cr (Rectangle x y w h).
Definition cairo_close_path cr := emit cr ClosePath.
Definition cairo_clip cr := emit cr Clip.
Definition cairo_stroke cr := emit cr Stroke.
Definition cairo_fill cr := emit cr Fill.
Definition cairo_paint cr := emit cr Paint.
Definition cairo_show_text cr utf8 := emit cr (ShowText utf8).
Definition cairo_set_source_surface cr s x y := emit cr (SetSourceSurface s x y).
Definition cairo_image_surface_create_for_data cr s := emit cr (ImageSurfaceCreateForData s).
Definition cairo_surface_flush cr := emit cr SurfaceFlush.
Definition cairo_surface_destroy cr := emit cr SurfaceDestroy.
Definition cairo_destroy cr := emit cr Destroy.

Definition cairo_get_matrix (cr : cairo_t) : cairo_matrix_t * cairo_t :=
  (cr_matrix cr, emit cr GetMatrix).

(** The scaling is applied after the existing transformation. *)
Definition cairo_scale (cr : cairo_t) (sx sy : double) : cairo_t :=
  {| cr_matrix := cairo_matrix_multiply (cairo_matrix_init_scale sx sy) (cr_matrix cr);
     cr_font_face := cr_font_face cr;
     cr_font_size := cr_font_size cr;
     cr_calls := cr_calls cr ++ [Scale sx sy] |}.

Definition cairo_set_matrix (cr : cairo_t) (m : cairo_matrix_t) : cairo_t :=
  {| cr_matrix := m;
     cr_font_face := cr_font_face cr;
     cr_font_size := cr_font_size cr;
     cr_calls := cr_calls cr ++ [SetMatrix m] |}.

Definition cairo_set_font_face (cr : cairo_t) (f : option cairo_font_face_t) : cairo_t :=
  {| cr_matrix := cr_matrix cr;
     cr_font_face := f;
     cr_font_size := cr_font_size cr;
     cr_calls := cr_calls cr ++ [SetFontFace f] |}.

Definition cairo_set_font_size (cr : cairo_t) (size : double) : cairo_t :=
  {| cr_matrix := cr_matrix cr;
     cr_font_face := cr_font_face cr;
     cr_font_size := size;
     cr_calls := cr_calls cr ++ [SetFontSize size] |}.

Definition cairo_font_extents (cr : cairo_t) : cairo_font_extents_t * cairo_t :=
  (font_extents_of (cr_font_face cr) (cr_font_size cr), emit cr FontExtents).

Definition cairo_text_extents (cr : cairo_t) (utf8 : list byte)
  : cairo_text_extents_t * cairo_t :=
  (text_extents_of (cr_font_face cr) (cr_font_size cr) utf8,
   emit cr (TextExtents utf8)).

End Cairo.

(** ** C strings *)

(** The bytes a library call reads from a [char *]: up to the first NUL. *)
Fixpoint c_str (bytes : list byte) : list byte :=
  match bytes with
  | [] => []
  | b :: rest => if Byte.eqb b x00 then [] else b :: c_str rest
  end.

(** [tmp = malloc(len+1); memmove(tmp, text, len); tmp[len] = 0;]
    where [text] points at [length text] readable bytes. *)
Definition copy_span (text : list byte) (len : Z) : outcome (list byte) :=
  if (len <? 0) || (Z.of_nat (length text) <? len) then Undefined
  else Ok (take (Z.to_nat len) text ++ [x00]).

(** The one-character string ["\n"]. *)
Definition newline : string := String (Ascii.ascii_of_nat 10) EmptyString.

Definition strcmp (a b : string) : Z :=
  match String.compare a b with
  | Eq => 0
  | Lt => -1
  | Gt => 1
  end.

(** The C strings behind the [const char *] pointers the caller passes:
    the NUL-terminated string that can be read at an address, [None]
    where a read is not defined (a null pointer, a buffer that is gone).
    The backend never writes them; the caller may, between two calls. *)
Definition memory := Z -> option string.

Definition read_str (mem : memory) (p : Z) : outcome string :=
  match mem p with
  | Some s => Ok s
  | None => Undefined
  end.

(** [strcmp(a, b)] on two pointers. *)
Definition strcmp_at (mem : memory) (a b : Z) : outcome Z :=
  s ← read_str mem a;
  t ← read_str mem b;
  Ok (strcmp s t).

(** What the caller's [strcpy (p, s)] leaves in memory. *)
Definition store_str (mem : memory) (p : Z) (s : string) : memory :=
  fun q => if q =? p then Some s else mem q.

(** ** The backend: tables and globals *)

Definition MAXFONTS : Z := 16.

(** The [width] member of [struct nk_user_font] is a function pointer;
    the only function ever stored in it is [nk_cairo_text_width]. *)
Inductive nk_text_width_f := nk_cairo_text_width_ptr.

Section Backend.
Context {F : CFloat} {L : FontLib F}.

(** [userdata.ptr] points at an element of [nk_cairo_fonts]; it is kept
    as that element's index, [None] for a null pointer. *)
Record nk_user_font := {
  uf_userdata : option Z;
  uf_height : float;
  uf_width : option nk_text_width_f
}.

(** [ttf] is the caller's pointer, kept as an address into [memory],
    [None] when null: the table holds no copy of the path. *)
Record nk_cairo_face_t := {
  fc_ttf : option Z;
  fc_ft : option FT_Face;
  fc_ca : option cairo_font_face_t
}.

Record nk_cairo_font_t := {
  fn_font : nk_user_font;
  fn_face : Z;
  fn_size : Z
}.

(** The file-scope variables.  [nk_cairo] is a pointer, null until
    [nk_cairo_init].  [ft_loaded] is not in the source: it lists the
    paths handed to [FT_New_Face] so far. *)
Record globals := {
  nk_cairo_face : Z;
  nk_cairo_faces : list nk_cairo_face_t;
  nk_cairo_font : Z;
  nk_cairo_fonts : list nk_cairo_font_t;
  nk_cairo : option cairo_t;
  ft_loaded : list string
}.

Definition zero_face : nk_cairo_face_t :=
  {| fc_ttf := None; fc_ft := None; fc_ca := None |}.

Definition zero_font : nk_cairo_font_t :=
  {| fn_font := {| uf_userdata := None; uf_height := i2f 0; uf_width := None |};
     fn_face := 0; fn_size := 0 |}.

(** *** Drawing primitives *)

Definition nk_cairo_set_color (cairo : cairo_t) (col : nk_color) : cairo_t :=
  cairo_set_source_rgba cairo
    (ddiv (i2d (col_r col)) (i2d 255))
    (ddiv (i2d (col_g col)) (i2d 255))
    (ddiv (i2d (col_b col)) (i2d 255))
    (ddiv (i2d (col_a col)) (i2d 255)).

Definition nk_cairo_scissor (cairo : cairo_t) (x y w h : float) : cairo_t :=
  let cairo := cairo_reset_clip cairo in
  let cairo := cairo_new_path cairo in
  let cairo := cairo_move_to cairo (f2d x) (f2d y) in
  let cairo := cairo_line_to cairo (f2d (fadd x w)) (f2d y) in
  let cairo := cairo_line_to cairo (f2d (fadd x w)) (f2d (fadd y h)) in
  let cairo := cairo_line_to cairo (f2d x) (f2d (fadd y h)) in
  let cairo := cairo_line_to cairo (f2d x) (f2d y) in
  cairo_clip cairo.

Definition nk_cairo_stroke_line (cairo : cairo_t) (x0 y0 x1 y1 line_thickness : Z)
    (col : nk_color) : cairo_t :=
  let cairo := nk_cairo_set_color cairo col in
  let cairo := cairo_set_line_width cairo (i2d line_thickness) in
  let cairo := cairo_move_to cairo (i2d x0) (i2d y0) in
  let cairo := cairo_line_to cairo (i2d x1) (i2d y1) in
  cairo_stroke cairo.

(** [for (; i < count; i++) cairo_line_to(cairo, pnts[i].x, pnts[i].y);]
    with [n] iterations left. *)
Fixpoint line_to_points (cairo : cairo_t) (pnts : list nk_vec2i) (i : Z) (n : nat)
  : outcome cairo_t :=
  match n with
  | O => Ok cairo
  | S n' =>
      p ← aread pnts i;
      line_to_points (cairo_line_to cairo (i2d (vec_x p)) (i2d (vec_y p))) pnts (i + 1) n'
  end.

Definition nk_cairo_stroke_polygon (cairo : cairo_t) (pnts : list nk_vec2i)
    (count line_thickness : Z) (col : nk_color) : outcome cairo_t :=
  let cairo := nk_cairo_set_color cairo col in
  let cairo := cairo_set_line_width cairo (i2d line_thickness) in
  let cairo := cairo_new_sub_path cairo in
  p0 ← aread pnts 0;
  let cairo := cairo_move_to cairo (i2d (vec_x p0)) (i2d (vec_y p0)) in
  cairo ← line_to_points cairo pnts 1 (Z.to_nat (count - 1));
  let cairo := cairo_line_to cairo (i2d (vec_x p0)) (i2d (vec_y p0)) in
  let cairo := cairo_close_path cairo in
  Ok (cairo_stroke cairo).

Definition nk_cairo_fill_polygon (cairo : cairo_t) (pnts : list nk_vec2i)
    (count : Z) (col : nk_color) : outcome cairo_t :=
  let cairo := nk_cairo_set_color cairo col in
  let cairo := cairo_new_sub_path cairo in
  p0 ← aread pnts 0;
  let cairo := cairo_move_to cairo (i2d (vec_x p0)) (i2d (vec_y p0)) in
  cairo ← line_to_points cairo pnts 1 (Z.to_nat (count - 1));
  let cairo := cairo_line_to cairo (i2d (vec_x p0)) (i2d (vec_y p0)) in
  let cairo := cairo_close_path cairo in
  Ok (cairo_fill cairo).

Definition nk_cairo_stroke_arc (cairo : cairo_t) (x y r : Z) (a0 a1 : float)
    (line_thickness : Z) (col : nk_color) : cairo_t :=
  let cairo := nk_cairo_set_color cairo col in
  let cairo := cairo_set_line_width cairo (i2d line_thickness) in
  let cairo := cairo_new_sub_path cairo in
  let cairo := cairo_arc cairo (i2d x) (i2d y) (i2d r) (f2d a0) (f2d a1) in
  let cairo := cairo_close_path cairo in
  cairo_stroke cairo.

Definition nk_cairo_fill_arc (cairo : cairo_t) (x y r : Z) (a0 a1 : float)
    (col : nk_color) : cairo_t :=
  let cairo := nk_cairo_set_color cairo col in
  let cairo := cairo_new_sub_path cairo in
  let cairo := cairo_arc cairo (i2d x) (i2d y) (i2d r) (f2d a0) (f2d a1) in
  let cairo := cairo_close_path cairo in
  cairo_fill cairo.

(** [2*NK_PI] is a [float] product, widened for the call. *)
Definition two_pi : double := f2d (fmul (i2f 2) NK_PI).

Definition nk_cairo_fill_circle (cairo : cairo_t) (x y r : Z) (col : nk_color)
  : cairo_t :=
  let cairo := nk_cairo_set_color cairo col in
  let cairo := cairo_new_sub_path cairo in
  let cairo := cairo_arc cairo (i2d x) (i2d y) (i2d r) (i2d 0) two_pi in
  let cairo := cairo_close_path cairo in
  cairo_fill cairo.

Definition nk_cairo_stroke_circle (cairo : cairo_t) (x y r line_thickness : Z)
    (col : nk_color) : cairo_t :=
  let cairo := nk_cairo_set_color cairo col in
  let cairo := cairo_set_line_width cairo (i2d line_thickness) in
  let cairo := cairo_new_sub_path cairo in
  let cairo := cairo_arc cairo (i2d x) (i2d y) (i2d r) (i2d 0) two_pi in
  let cairo := cairo_close_path cairo in
  cairo_stroke cairo.

(** [double degrees = NK_PI / 180.0;] *)
Definition degrees : double := ddiv (f2d NK_PI) (i2d 180).

Definition nk_cairo_stroke_rect (cairo : cairo_t) (x y w h r line_thickness : Z)
    (col : nk_color) : cairo_t :=
  let cairo := nk_cairo_set_color cairo col in
  let cairo := cairo_set_line_width cairo (i2d line_thickness) in
  let cairo :=
    if r =? 0 then
      cairo_rectangle cairo (i2d x) (i2d y) (i2d w) (i2d h)
    else
      let cairo := cairo_new_sub_path cairo in
      let cairo := cairo_arc cairo (i2d (x + w - r)) (i2d (y + r)) (i2d r)
                     (dmul (i2d (-90)) degrees) (dmul (i2d 0) degrees) in
      let cairo := cairo_arc cairo (i2d (x + w - r)) (i2d (y + h - r)) (i2d r)
                     (dmul (i2d 0) degrees) (dmul (i2d 90) degrees) in
      let cairo := cairo_arc cairo (i2d (x + r)) (i2d (y + h - r)) (i2d r)
                     (dmul (i2d 90) degrees) (dmul (i2d 180) degrees) in
      let cairo := cairo_arc cairo (i2d (x + r)) (i2d (y + r)) (i2d r)
                     (dmul (i2d 180) degrees) (dmul (i2d 270) degrees) in
      cairo_close_path cairo in
  cairo_stroke cairo.

Definition nk_cairo_fill_rect (cairo : cairo_t) (x y w h r : Z) (col : nk_color)
  : cairo_t :=
  let cairo := nk_cairo_set_color cairo col in
  let cairo :=
    if r =? 0 then
      cairo_rectangle cairo (i2d x) (i2d y) (i2d w) (i2d h)
    else
      let cairo := cairo_new_sub_path cairo in
      let cairo := cairo_arc cairo (i2d (x + w - r)) (i2d (y + r)) (i2d r)
                     (dmul (i2d (-90)) degrees) (dmul (i2d 0) degrees) in
      let cairo := cairo_arc cairo (i2d (x + w - r)) (i2d (y + h - r)) (i2d r)
                     (dmul (i2d 0) degrees) (dmul (i2d 90) degrees) in
      let cairo := cairo_arc cairo (i2d (x + r)) (i2d (y + h - r)) (i2d r)
                     (dmul (i2d 90) degrees) (dmul (i2d 180) degrees) in
      let cairo := cairo_arc cairo (i2d (x + r)) (i2d (y + r)) (i2d r)
                     (dmul (i2d 180) degrees) (dmul (i2d 270) degrees) in
      cairo_close_path cairo in
  cairo_fill cairo.

Definition nk_cairo_stroke_triangle (cairo : cairo_t) (x0 y0 x1 y1 x2 y2 line_thickness : Z)
    (col : nk_color) : cairo_t :=
  let cairo := nk_cairo_set_color cairo col in
  let cairo := cairo_set_line_width cairo (i2d line_thickness) in
  let cairo := cairo_new_sub_path cairo in
  let cairo := cairo_move_to cairo (i2d x0) (i2d y0) in
  let cairo := cairo_line_to cairo (i2d x1) (i2d y1) in
  let cairo := cairo_line_to cairo (i2d x2) (i2d y2) in
  let cairo := cairo_line_to cairo (i2d x0) (i2d y0) in
  let cairo := cairo_close_path cairo in
  cairo_stroke cairo.

Definition nk_cairo_fill_triangle (cairo : cairo_t) (x0 y0 x1 y1 x2 y2 : Z)
    (col : nk_color) : cairo_t :=
  let cairo := nk_cairo_set_color cairo col in
  let cairo := cairo_new_sub_path cairo in
  let cairo := cairo_move_to cairo (i2d x0) (i2d y0) in
  let cairo := cairo_line_to cairo (i2d x1) (i2d y1) in
  let cairo := cairo_line_to cairo (i2d x2) (i2d y2) in
  let cairo := cairo_line_to cairo (i2d x0) (i2d y0) in
  let cairo := cairo_close_path cairo in
  cairo_fill cairo.

Definition nk_cairo_stroke_polyline (cairo : cairo_t) (pnts : list nk_vec2i)
    (count line_thickness : Z) (col : nk_color) : outcome cairo_t :=
  let cairo := nk_cairo_set_color cairo col in
  let cairo := cairo_set_line_width cairo (i2d line_thickness) in
  let cairo := cairo_new_sub_path cairo in
  p0 ← aread pnts 0;
  let cairo := cairo_move_to cairo (i2d (vec_x p0)) (i2d (vec_y p0)) in
  cairo ← line_to_points cairo pnts 1 (Z.to_nat (count - 1));
  let cairo := cairo_close_path cairo in
  Ok (cairo_stroke cairo).

Definition nk_cairo_drawimage (cairo : cairo_t) (x y w h : Z) (img : nk_image)
    (col : nk_color) : cairo_t :=
  let xs := ddiv (i2d w) (i2d (img_w img)) in
  let ys := ddiv (i2d h) (i2d (img_h img)) in
  let '(matrix, cairo) := cairo_get_matrix cairo in
  let cairo := cairo_scale cairo xs ys in
  let surface := {| surf_data := img_ptr img; surf_width := img_w img;
                    surf_height := img_h img; surf_stride := img_w img * 4 |} in
  let cairo := cairo_image_surface_create_for_data cairo surface in
  let cairo := cairo_set_source_surface cairo surface (ddiv (i2d x) xs) (ddiv (i2d y) ys) in
  let cairo := cairo_paint cairo in
  let cairo := cairo_surface_destroy cairo in
  cairo_set_matrix cairo matrix.

(** *** Text *)

(** Dereference of a pointer into [nk_cairo_fonts]. *)
Definition deref_font (g : globals) (p : option Z) : outcome nk_cairo_font_t :=
  match p with
  | Some i => aread (nk_cairo_fonts g) i
  | None => Undefined
  end.

(** [font] is a [struct nk_user_font *]: the address of the [font]
    member of an element of [nk_cairo_fonts], kept as the element's
    index. *)
Definition nk_cairo_draw_text (g : globals) (cairo : cairo_t) (font : Z)
    (rect : nk_rect_t) (text : list byte) (len : Z) (font_height : float)
    (fg : nk_color) : outcome cairo_t :=
  f ← aread (nk_cairo_fonts g) font;
  cfont ← deref_font g (uf_userdata (fn_font f));
  face ← aread (nk_cairo_faces g) (fn_face cfont);
  let cairo := cairo_set_font_face cairo (fc_ca face) in
  let cairo := cairo_set_font_size cairo (i2d (fn_size cfont)) in
  let '(extents, cairo) := cairo_font_extents cairo in
  tmp ← copy_span text len;
  let cairo := nk_cairo_set_color cairo fg in
  let cairo := cairo_move_to cairo (f2d (rect_x rect))
                 (dadd (f2d (rect_y rect)) (fe_ascent extents)) in
  Ok (cairo_show_text cairo (c_str tmp)).

(** nuklear.h: #define NK_MAX(a,b) ((a) < (b) ? (b) : (a)) *)
Definition NK_MAX (a b : double) : double := if dltb a b then b else a.

Definition nk_cairo_text_width (g : globals) (handle : option Z) (h : float)
    (text : list byte) (len : Z) : outcome (float * globals) :=
  tmp ← copy_span text len;
  cfont ← deref_font g handle;
  match nk_cairo g with
  | None => Undefined
  | Some scratch =>
      face ← aread (nk_cairo_faces g) (fn_face cfont);
      let scratch := cairo_set_font_face scratch (fc_ca face) in
      let scratch := cairo_set_font_size scratch (i2d (fn_size cfont)) in
      let '(extents, scratch) := cairo_text_extents scratch (c_str tmp) in
      Ok (d2f (NK_MAX (dadd (te_width extents) (te_x_bearing extents))
                      (te_x_advance extents)),
          {| nk_cairo_face := nk_cairo_face g;
             nk_cairo_faces := nk_cairo_faces g;
             nk_cairo_font := nk_cairo_font g;
             nk_cairo_fonts := nk_cairo_fonts g;
             nk_cairo := Some scratch;
             ft_loaded := ft_loaded g |})
  end.

End Backend.

(** ** The font cache *)

Section FontCache.
Context {F : CFloat} {L : FontLib F}.

Definition with_face_count (g : globals) (n : Z) : globals :=
  {| nk_cairo_face := n; nk_cairo_faces := nk_cairo_faces g;
     nk_cairo_font := nk_cairo_font g; nk_cairo_fonts := nk_cairo_fonts g;
     nk_cairo := nk_cairo g; ft_loaded := ft_loaded g |}.

Definition with_faces (g : globals) (faces : list nk_cairo_face_t) : globals :=
  {| nk_cairo_face := nk_cairo_face g; nk_cairo_faces := faces;
     nk_cairo_font := nk_cairo_font g; nk_cairo_fonts := nk_cairo_fonts g;
     nk_cairo := nk_cairo g; ft_loaded := ft_loaded g |}.

Definition with_font_count (g : globals) (n : Z) : globals :=
  {| nk_cairo_face := nk_cairo_face g; nk_cairo_faces := nk_cairo_faces g;
     nk_cairo_font := n; nk_cairo_fonts := nk_cairo_fonts g;
     nk_cairo := nk_cairo g; ft_loaded := ft_loaded g |}.

Definition with_fonts (g : globals) (fonts : list nk_cairo_font_t) : globals :=
  {| nk_cairo_face := nk_cairo_face g; nk_cairo_faces := nk_cairo_faces g;
     nk_cairo_font := nk_cairo_font g; nk_cairo_fonts := fonts;
     nk_cairo := nk_cairo g; ft_loaded := ft_loaded g |}.

Definition with_scratch (g : globals) (cr : cairo_t) : globals :=
  {| nk_cairo_face := nk_cairo_face g; nk_cairo_faces := nk_cairo_faces g;
     nk_cairo_font := nk_cairo_font g; nk_cairo_fonts := nk_cairo_fonts g;
     nk_cairo := Some cr; ft_loaded := ft_loaded g |}.

Definition with_loaded (g : globals) (paths : list string) : globals :=
  {| nk_cairo_face := nk_cairo_face g; nk_cairo_faces := nk_cairo_faces g;
     nk_cairo_font := nk_cairo_font g; nk_cairo_fonts := nk_cairo_fonts g;
     nk_cairo := nk_cairo g; ft_loaded := paths |}.

(** File-scope variables before [main]: all zero. *)
Definition static_globals : globals :=
  {| nk_cairo_face := 0;
     nk_cairo_faces := replicate (Z.to_nat MAXFONTS) zero_face;
     nk_cairo_font := 0;
     nk_cairo_fonts := replicate (Z.to_nat MAXFONTS) zero_font;
     nk_cairo := None;
     ft_loaded := [] |}.

Definition nk_cairo_init (g : globals) : outcome globals :=
  _ ← assert (0 =? FT_Init_FreeType);
  let cairo := cairo_create (ImageSurfaceCreate 1 1) in
  let cairo := cairo_surface_destroy cairo in
  Ok (with_scratch g cairo).

(** [for (; i < nk_cairo_face; i++)
       if (strcmp(ttf, nk_cairo_faces[i].ttf) == 0) { face = i; break; }]
    with [n] iterations left; [-1] when the loop runs out.  Both strings
    are read where they lie at the time of the call. *)
Fixpoint face_loop (mem : memory) (faces : list nk_cairo_face_t) (ttf : Z) (i : Z) (n : nat)
  : outcome Z :=
  match n with
  | O => Ok (-1)
  | S n' =>
      e ← aread faces i;
      match fc_ttf e with
      | None => Undefined
      | Some q =>
          c ← strcmp_at mem ttf q;
          if c =? 0 then Ok i else face_loop mem faces ttf (i + 1) n'
      end
  end.

(** [for (; i < nk_cairo_font; i++)
       if (nk_cairo_fonts[i].face == face && nk_cairo_fonts[i].size == ttf_size)
         { font = i; break; }] *)
Fixpoint font_loop (fonts : list nk_cairo_font_t) (face ttf_size : Z) (i : Z) (n : nat)
  : outcome Z :=
  match n with
  | O => Ok (-1)
  | S n' =>
      e ← aread fonts i;
      if (fn_face e =? face) && (fn_size e =? ttf_size) then Ok i
      else font_loop fonts face ttf_size (i + 1) n'
  end.

(** The first half of [nk_cairo_ttf]: find the face, or load it.  The
    table entry takes the pointer [ttf]; [FT_New_Face] reads the path
    behind it. *)
Definition ttf_face (mem : memory) (g : globals) (ttf : Z) : outcome (Z * globals) :=
  face ← face_loop mem (nk_cairo_faces g) ttf 0 (Z.to_nat (nk_cairo_face g));
  if face <? 0 then
    let face := nk_cairo_face g in
    let g := with_face_count g (nk_cairo_face g + 1) in
    _ ← assert (face <? MAXFONTS);
    faces ← awrite (nk_cairo_faces g) face
              (fun e => {| fc_ttf := Some ttf; fc_ft := fc_ft e; fc_ca := fc_ca e |});
    let g := with_faces g faces in
    path ← read_str mem ttf;
    let g := with_loaded g (ft_loaded g ++ [path]) in
    match FT_New_Face path with
    | None => AssertFailed
    | Some ft =>
        faces ← awrite (nk_cairo_faces g) face
                  (fun e => {| fc_ttf := fc_ttf e; fc_ft := Some ft; fc_ca := fc_ca e |});
        let g := with_faces g faces in
        faces ← awrite (nk_cairo_faces g) face
                  (fun e => {| fc_ttf := fc_ttf e; fc_ft := fc_ft e;
                               fc_ca := cairo_ft_font_face_create_for_ft_face <$> fc_ft e |});
        Ok (face, with_faces g faces)
    end
  else Ok (face, g).

(** The second half: find the sized font, or create it. *)
Definition ttf_font (g : globals) (face ttf_size : Z) : outcome (Z * globals) :=
  font ← font_loop (nk_cairo_fonts g) face ttf_size 0 (Z.to_nat (nk_cairo_font g));
  if font <? 0 then
    let font := nk_cairo_font g in
    let g := with_font_count g (nk_cairo_font g + 1) in
    _ ← assert (font <? MAXFONTS);
    match nk_cairo g with
    | None => Undefined
    | Some scratch =>
        fe ← aread (nk_cairo_faces g) face;
        let scratch := cairo_set_font_face scratch (fc_ca fe) in
        let scratch := cairo_set_font_size scratch (i2d ttf_size) in
        let '(extents, scratch) := cairo_font_extents scratch in
        let g := with_scratch g scratch in
        fonts ← awrite (nk_cairo_fonts g) font
                  (fun _ => {| fn_font := {| uf_userdata := Some font;
                                             uf_height := d2f (fe_height extents);
                                             uf_width := Some nk_cairo_text_width_ptr |};
                               fn_face := face;
                               fn_size := ttf_size |});
        Ok (font, with_fonts g fonts)
    end
  else Ok (font, g).

(** The result is [&nk_cairo_fonts[font].font], kept as [font]. *)
Definition nk_cairo_ttf (mem : memory) (g : globals) (ttf : Z) (ttf_size : Z)
  : outcome (Z * globals) :=
  '(face, g) ← ttf_face mem g ttf;
  ttf_font g face ttf_size.

(** A run of [nk_cairo_ttf] calls, each with the caller's strings as
    they are at the time of the call; the process ends with the first
    call that does not return. *)
Fixpoint ttf_calls (g : globals) (requests : list (memory * Z * Z)) : outcome globals :=
  match requests with
  | [] => Ok g
  | (mem, ttf, ttf_size) :: rest =>
      '(_, g) ← nk_cairo_ttf mem g ttf ttf_size;
      ttf_calls g rest
  end.

(** Requests made while the caller's strings are all as in [mem]. *)
Definition in_memory (mem : memory) (requests : list (Z * Z)) : list (memory * Z * Z) :=
  (fun r => (mem, r.1, r.2)) <$> requests.

End FontCache.

(** ** The command renderer *)

Section Renderer.
Context {F : CFloat} {L : FontLib F}.

(** The commands of nuklear.h, each with the members the renderer
    reads.  [NK_COMMAND_CUSTOM] stands for every tag the [switch]
    leaves to [default]. *)
Inductive nk_command :=
  | NK_COMMAND_NOP
  | NK_COMMAND_SCISSOR (x y w h : Z)
  | NK_COMMAND_LINE (line_thickness : Z) (begin end_ : nk_vec2i) (color : nk_color)
  | NK_COMMAND_CURVE
  | NK_COMMAND_RECT (rounding line_thickness x y w h : Z) (color : nk_color)
  | NK_COMMAND_RECT_FILLED (rounding x y w h : Z) (color : nk_color)
  | NK_COMMAND_RECT_MULTI_COLOR
  | NK_COMMAND_CIRCLE (x y line_thickness w h : Z) (color : nk_color)
  | NK_COMMAND_CIRCLE_FILLED (x y w h : Z) (color : nk_color)
  | NK_COMMAND_ARC (cx cy r line_thickness : Z) (a0 a1 : float) (color : nk_color)
  | NK_COMMAND_ARC_FILLED (cx cy r : Z) (a0 a1 : float) (color : nk_color)
  | NK_COMMAND_TRIANGLE (line_thickness : Z) (a b c : nk_vec2i) (color : nk_color)
  | NK_COMMAND_TRIANGLE_FILLED (a b c : nk_vec2i) (color : nk_color)
  | NK_COMMAND_POLYGON (color : nk_color) (line_thickness point_count : Z)
      (points : list nk_vec2i)
  | NK_COMMAND_POLYGON_FILLED (color : nk_color) (point_count : Z)
      (points : list nk_vec2i)
  | NK_COMMAND_POLYLINE (color : nk_color) (line_thickness point_count : Z)
      (points : list nk_vec2i)
  | NK_COMMAND_TEXT (font : Z) (foreground : nk_color) (x y w h : Z)
      (height : float) (length : Z) (string : list byte)
  | NK_COMMAND_IMAGE (x y w h : Z) (img : nk_image) (col : nk_color)
  | NK_COMMAND_CUSTOM.

(** The part of [struct nk_context] the renderer touches. *)
Record nk_context := { ctx_commands : list nk_command }.

Definition nk_clear (ctx : nk_context) : nk_context := {| ctx_commands := [] |}.

(** The per-frame drawing context and what was written to [stderr]. *)
Record frame := { fr_cairo : cairo_t; fr_stderr : list string }.

Definition draw (fr : frame) (cairo : cairo_t) : frame :=
  {| fr_cairo := cairo; fr_stderr := fr_stderr fr |}.

Definition fprintf_stderr (fr : frame) (line : string) : frame :=
  {| fr_cairo := fr_cairo fr; fr_stderr := fr_stderr fr ++ [line] |}.

(** The body of the [switch] in [nk_cairo_render]. *)
Definition render_command (g : globals) (fr : frame) (cmd : nk_command)
  : outcome frame :=
  let cairo := fr_cairo fr in
  match cmd with
  | NK_COMMAND_NOP => Ok fr
  | NK_COMMAND_SCISSOR x y w h =>
      Ok (draw fr (nk_cairo_scissor cairo (i2f x) (i2f y) (i2f w) (i2f h)))
  | NK_COMMAND_LINE line_thickness begin end_ color =>
      Ok (draw fr (nk_cairo_stroke_line cairo (vec_x begin) (vec_y begin)
                     (vec_x end_) (vec_y end_) line_thickness color))
  | NK_COMMAND_RECT rounding line_thickness x y w h color =>
      Ok (draw fr (nk_cairo_stroke_rect cairo x y w h rounding line_thickness color))
  | NK_COMMAND_RECT_FILLED rounding x y w h color =>
      Ok (draw fr (nk_cairo_fill_rect cairo x y w h rounding color))
  | NK_COMMAND_CIRCLE x y line_thickness w h color =>
      let r := Z.quot (if w <? h then w else h) 2 in
      Ok (draw fr (nk_cairo_stroke_circle cairo (x + r) (y + r) r line_thickness color))
  | NK_COMMAND_CIRCLE_FILLED x y w h color =>
      let r := Z.quot (if w <? h then w else h) 2 in
      Ok (draw fr (nk_cairo_fill_circle cairo (x + r) (y + r) r color))
  | NK_COMMAND_TRIANGLE line_thickness a b c color =>
      Ok (draw fr (nk_cairo_stroke_triangle cairo (vec_x a) (vec_y a) (vec_x b) (vec_y b)
                     (vec_x c) (vec_y c) line_thickness color))
  | NK_COMMAND_TRIANGLE_FILLED a b c color =>
      Ok (draw fr (nk_cairo_fill_triangle cairo (vec_x a) (vec_y a) (vec_x b) (vec_y b)
                     (vec_x c) (vec_y c) color))
  | NK_COMMAND_POLYGON color line_thickness point_count points =>
      cairo ← nk_cairo_stroke_polygon cairo points point_count line_thickness color;
      Ok (draw fr cairo)
  | NK_COMMAND_POLYGON_FILLED color point_count points =>
      cairo ← nk_cairo_fill_polygon cairo points point_count color;
      Ok (draw fr cairo)
  | NK_COMMAND_POLYLINE color line_thickness point_count points =>
      cairo ← nk_cairo_stroke_polyline cairo points point_count line_thickness color;
      Ok (draw fr cairo)
  | NK_COMMAND_TEXT font foreground x y w h height length string =>
      cairo ← nk_cairo_draw_text g cairo font (nk_rect (i2f x) (i2f y) (i2f w) (i2f h))
                string length height foreground;
      Ok (draw fr cairo)
  | NK_COMMAND_CURVE =>
      Ok (fprintf_stderr fr ("NK_COMMAND_CURVE not implemented" ++ newline))
  | NK_COMMAND_RECT_MULTI_COLOR =>
      Ok (fprintf_stderr fr ("NK_COMMAND_RECT_MULTI_COLOR not implemented" ++ newline))
  | NK_COMMAND_IMAGE x y w h img col =>
      Ok (draw fr (nk_cairo_drawimage cairo x y w h img col))
  | NK_COMMAND_ARC cx cy r line_thickness a0 a1 color =>
      let fr := fprintf_stderr fr ("NK_COMMAND_ARC" ++ newline) in
      Ok (draw fr (nk_cairo_stroke_arc cairo cx cy r a0 a1 line_thickness color))
  | NK_COMMAND_ARC_FILLED cx cy r a0 a1 color =>
      let fr := fprintf_stderr fr ("NK_COMMAND_ARC_FILLED" ++ newline) in
      Ok (draw fr (nk_cairo_fill_arc cairo cx cy r a0 a1 color))
  | NK_COMMAND_CUSTOM => Ok fr
  end.

(** [nk_foreach(cmd, ctx) { switch ... }] *)
Fixpoint nk_foreach (g : globals) (fr : frame) (cmds : list nk_command)
  : outcome frame :=
  match cmds with
  | [] => Ok fr
  | cmd :: rest =>
      fr ← render_command g fr cmd;
      nk_foreach g fr rest
  end.

(** The frame buffer [fb] is kept as its address.  The result is the
    log of the destroyed drawing context, [stderr], and the cleared
    toolkit context. *)
Definition nk_cairo_render (g : globals) (stderr : list string) (ctx : nk_context)
    (fb w h pitch : Z) : outcome (frame * nk_context) :=
  let surface := {| surf_data := fb; surf_width := w; surf_height := h;
                    surf_stride := pitch |} in
  let cairo := cairo_create (ImageSurfaceCreateForData surface) in
  let cairo := nk_cairo_scissor cairo (i2f 0) (i2f 0) (i2f w) (i2f h) in
  fr ← nk_foreach g {| fr_cairo := cairo; fr_stderr := stderr |} (ctx_commands ctx);
  let cairo := fr_cairo fr in
  let cairo := cairo_surface_flush cairo in
  let cairo := cairo_surface_destroy cairo in
  let cairo := cairo_destroy cairo in
  Ok (draw fr cairo, nk_clear ctx).

End Renderer.


(** ** What a log of Cairo calls draws

    The meaning of the calls the backend makes, after the Cairo
    reference manual: how path calls build the current path, which calls
    consume it, where a source surface is placed, and which calls write
    pixels. *)

Section Meaning.
Context {F : CFloat} {L : FontLib F}.

(** A point is given by its coordinates, or as the point at a given
    angle on a circle. *)
Inductive point :=
  | XY (x y : double)
  | OnArc (xc yc radius angle : double).

(** [CloseLine] is the segment [cairo_close_path] adds, from the current
    point back to the start of the sub-path. *)
Inductive segment :=
  | Line (a b : point)
  | CloseLine (a b : point)
  | ArcSeg (xc yc radius angle1 angle2 : double).

Record path_t := {
  p_segments : list segment;
  p_start : option point;
  p_current : option point
}.

Definition empty_path : path_t :=
  {| p_segments := []; p_start := None; p_current := None |}.

Definition path_step (p : path_t) (c : cairo_call) : path_t :=
  match c with
  | NewPath | Stroke | Fill | Clip => empty_path
  | NewSubPath =>
      {| p_segments := p_segments p; p_start := None; p_current := None |}
  | MoveTo x y =>
      {| p_segments := p_segments p; p_start := Some (XY x y);
         p_current := Some (XY x y) |}
  | LineTo x y =>
      match p_current p with
      | Some c => {| p_segments := p_segments p ++ [Line c (XY x y)];
                     p_start := p_start p; p_current := Some (XY x y) |}
      | None => {| p_segments := p_segments p; p_start := Some (XY x y);
                   p_current := Some (XY x y) |}
      end
  | Arc xc yc r a1 a2 =>
      match p_current p with
      | Some c => {| p_segments := p_segments p
                                     ++ [Line c (OnArc xc yc r a1); ArcSeg xc yc r a1 a2];
                     p_start := p_start p; p_current := Some (OnArc xc yc r a2) |}
      | None => {| p_segments := p_segments p ++ [ArcSeg xc yc r a1 a2];
                   p_start := Some (OnArc xc yc r a1);
                   p_current := Some (OnArc xc yc r a2) |}
      end
  | Rectangle x y w h =>
      {| p_segments := p_segments p
                         ++ [Line (XY x y) (XY (dadd x w) y);
                             Line (XY (dadd x w) y) (XY (dadd x w) (dadd y h));
                             Line (XY (dadd x w) (dadd y h)) (XY x (dadd y h));
                             CloseLine (XY x (dadd y h)) (XY x y)];
         p_start := Some (XY x y); p_current := Some (XY x y) |}
  | ClosePath =>
      match p_current p, p_start p with
      | Some c, Some s => {| p_segments := p_segments p ++ [CloseLine c s];
                             p_start := Some s; p_current := Some s |}
      | _, _ => p
      end
  | _ => p
  end.

Inductive shape :=
  | Stroked (path : list segment)
  | Filled (path : list segment)
  | ClippedTo (path : list segment).

(** The shapes stroked, filled or clipped to by a run of calls that
    starts with the current path [p]. *)
Fixpoint shapes_from (p : path_t) (calls : list cairo_call) : list shape :=
  match calls with
  | [] => []
  | c :: rest =>
      match c with
      | Stroke => [Stroked (p_segments p)]
      | Fill => [Filled (p_segments p)]
      | Clip => [ClippedTo (p_segments p)]
      | _ => []
      end ++ shapes_from (path_step p c) rest
  end.

Definition shapes (calls : list cairo_call) : list shape :=
  shapes_from empty_path calls.

(** The calls that write to the target surface. *)
Definition paints (c : cairo_call) : bool :=
  match c with
  | Stroke | Fill | Paint | ShowText _ => true
  | _ => false
  end.

(** Device-space positions of the origins of the source surfaces set by
    a run of calls that starts with the transformation [m]. *)
Fixpoint surface_origins (m : cairo_matrix_t) (calls : list cairo_call)
  : list (double * double) :=
  match calls with
  | [] => []
  | Scale sx sy :: rest =>
      surface_origins (cairo_matrix_multiply (cairo_matrix_init_scale sx sy) m) rest
  | SetMatrix m' :: rest => surface_origins m' rest
  | SetSourceSurface _ x y :: rest =>
      cairo_matrix_transform_point m x y :: surface_origins m rest
  | _ :: rest => surface_origins m rest
  end.

(** The calls made on a context since it was in state [cr0]. *)
Definition calls_since (cr0 cr : cairo_t) : list cairo_call :=
  drop (length (cr_calls cr0)) (cr_calls cr).

End Meaning.

(** The target surface's pixels change only through the calls that
    paint; what a painting call does to them is the rasteriser's
    business and may depend on everything the context was told before. *)
Class Raster (F : CFloat) (L : FontLib F) := {
  pixels : Type;
  rasterize : list cairo_call -> cairo_call -> pixels -> pixels
}.

Section Pixels.
Context {F : CFloat} {L : FontLib F} {R : Raster F L}.

(** The pixel buffer after [calls], made on a context that had seen
    [history] before. *)
Fixpoint pixels_after (history calls : list cairo_call) (fb : pixels) : pixels :=
  match calls with
  | [] => fb
  | c :: rest =>
      pixels_after (history ++ [c]) rest
        (if paints c then rasterize history c fb else fb)
  end.

End Pixels.

(** ** The reading of the specification

    The shapes, states and outputs the specification speaks of, written
    after its words; the theorems below compare the backend with them. *)

Section Reading.
Context {F : CFloat} {L : FontLib F}.

(** The state the font cache is in between calls: counters within the
    tables, tables of their declared size, every face in use named, every
    sized font referring to a face in use, and the scratch context made. *)
Definition cache_ok (g : globals) : Prop :=
  0 <= nk_cairo_face g <= MAXFONTS
  /\ 0 <= nk_cairo_font g <= MAXFONTS
  /\ length (nk_cairo_faces g) = Z.to_nat MAXFONTS
  /\ length (nk_cairo_fonts g) = Z.to_nat MAXFONTS
  /\ (forall i e, 0 <= i < nk_cairo_face g ->
        nk_cairo_faces g !! Z.to_nat i = Some e -> fc_ttf e <> None)
  /\ (forall i e, 0 <= i < nk_cairo_font g ->
        nk_cairo_fonts g !! Z.to_nat i = Some e -> 0 <= fn_face e < nk_cairo_face g)
  /\ nk_cairo g <> None.

(** The width a measurement returns, without the state it leaves. *)
Definition width_of (o : outcome (float * globals)) : outcome float :=
  '(w, _) ← o; Ok w.

(** The outline of the axis-aligned rectangle [(x, y, w, h)]. *)
Definition rectangle_outline (x y w h : Z) : list segment :=
  let x0 := i2d x in
  let y0 := i2d y in
  let x1 := dadd (i2d x) (i2d w) in
  let y1 := dadd (i2d y) (i2d h) in
  [Line (XY x0 y0) (XY x1 y0);
   Line (XY x1 y0) (XY x1 y1);
   Line (XY x1 y1) (XY x0 y1);
   CloseLine (XY x0 y1) (XY x0 y0)].

(** The outline of the rectangle with its corners rounded at radius [r]:
    four quarter circles, centred [r] inside each corner, joined by
    straight edges.  [angle k] is the number that stands for [k] degrees;
    the outline uses it at -90, 0, 90, 180 and 270. *)
Definition rounded_outline (angle : Z -> double) (x y w h r : Z) : list segment :=
  let left := i2d (x + r) in
  let right := i2d (x + w - r) in
  let top := i2d (y + r) in
  let bottom := i2d (y + h - r) in
  let rad := i2d r in
  [ArcSeg right top rad (angle (-90)) (angle 0);
   Line (OnArc right top rad (angle 0)) (OnArc right bottom rad (angle 0));
   ArcSeg right bottom rad (angle 0) (angle 90);
   Line (OnArc right bottom rad (angle 90)) (OnArc left bottom rad (angle 90));
   ArcSeg left bottom rad (angle 90) (angle 180);
   Line (OnArc left bottom rad (angle 180)) (OnArc left top rad (angle 180));
   ArcSeg left top rad (angle 180) (angle 270);
   CloseLine (OnArc left top rad (angle 270)) (OnArc right top rad (angle (-90)))].

(** A full circle, closed. *)
Definition circle_outline (xc yc radius : double) : list segment :=
  [ArcSeg xc yc radius (i2d 0) two_pi;
   CloseLine (OnArc xc yc radius two_pi) (OnArc xc yc radius (i2d 0))].

(** The circle the specification describes for the bounding box
    [(x, y, w, h)]: radius half the smaller side, centred in the box. *)
Definition inscribed_circle (x y w h : Z) : list segment :=
  circle_outline (dadd (i2d x) (ddiv (i2d w) (i2d 2)))
                 (dadd (i2d y) (ddiv (i2d h) (i2d 2)))
                 (ddiv (i2d (Z.min w h)) (i2d 2)).

Definition vertex (p : nk_vec2i) : point := XY (i2d (vec_x p)) (i2d (vec_y p)).

(** The open chain of segments from [a] through [ps], and where it ends. *)
Fixpoint chain (a : point) (ps : list point) : list segment :=
  match ps with
  | [] => []
  | b :: rest => Line a b :: chain b rest
  end.

Fixpoint chain_end (a : point) (ps : list point) : point :=
  match ps with
  | [] => a
  | b :: rest => chain_end b rest
  end.

(** The open polyline through [pnts]: the points in order, not closed. *)
Definition open_polyline (pnts : list nk_vec2i) : list segment :=
  match pnts with
  | [] => []
  | p0 :: rest => chain (vertex p0) (vertex <$> rest)
  end.

(** What each command writes to [stderr]. *)
Definition diagnostic (cmd : nk_command) : list string :=
  match cmd with
  | NK_COMMAND_CURVE => [("NK_COMMAND_CURVE not implemented" ++ newline)%string]
  | NK_COMMAND_RECT_MULTI_COLOR =>
      [("NK_COMMAND_RECT_MULTI_COLOR not implemented" ++ newline)%string]
  | NK_COMMAND_ARC _ _ _ _ _ _ _ => [("NK_COMMAND_ARC" ++ newline)%string]
  | NK_COMMAND_ARC_FILLED _ _ _ _ _ _ => [("NK_COMMAND_ARC_FILLED" ++ newline)%string]
  | _ => []
  end.

(** A command whose array and pointer accesses are all defined: a point
    array that holds [point_count] points and at least one, a text span
    inside its buffer, a font handle that leads to a face. *)
Definition renderable (g : globals) (cmd : nk_command) : Prop :=
  match cmd with
  | NK_COMMAND_POLYGON _ _ point_count points
  | NK_COMMAND_POLYGON_FILLED _ point_count points
  | NK_COMMAND_POLYLINE _ _ point_count points =>
      points <> [] /\ point_count <= Z.of_nat (length points)
  | NK_COMMAND_TEXT font _ _ _ _ _ _ len text =>
      0 <= len <= Z.of_nat (length text)
      /\ exists f cfont face,
           aread (nk_cairo_fonts g) font = Ok f
           /\ deref_font g (uf_userdata (fn_font f)) = Ok cfont
           /\ aread (nk_cairo_faces g) (fn_face cfont) = Ok face
  | _ => True
  end.

(** The shapes a single command strokes, fills or clips to. *)
Definition drawn (g : globals) (fr : frame) (cmd : nk_command) : outcome (list shape) :=
  fr' ← render_command g fr cmd;
  Ok (shapes (calls_since (fr_cairo fr) (fr_cairo fr'))).

(** [calls] made on [cr], one after the other. *)
Definition emit_all (cr : cairo_t) (calls : list cairo_call) : cairo_t :=
  {| cr_matrix := cr_matrix cr;
     cr_font_face := cr_font_face cr;
     cr_font_size := cr_font_size cr;
     cr_calls := cr_calls cr ++ calls |}.

Definition line_to_call (p : nk_vec2i) : cairo_call :=
  LineTo (i2d (vec_x p)) (i2d (vec_y p)).

(** The frame [nk_cairo_render] enters its loop with. *)
Definition first_frame (stderr : list string) (fb w h pitch : Z) : frame :=
  {| fr_cairo :=
       nk_cairo_scissor
         (cairo_create (ImageSurfaceCreateForData
            {| surf_data := fb; surf_width := w; surf_height := h; surf_stride := pitch |}))
         (i2f 0) (i2f 0) (i2f w) (i2f h);
     fr_stderr := stderr |}.

End Reading.

(** ** Angles

    What a binary64 number is worth as an angle is judged against the
    rationals, not against the constants of the program: the value of the
    number is taken exactly, and compared with [k] * pi / 180 for pi to
    eight decimals. *)

(** The rational a finite floating-point number denotes. *)
Definition float_value (x : spec_float) : option Q :=
  match x with
  | S754_zero _ => Some 0%Q
  | S754_finite s m e =>
      Some ((if s then inject_Z (Z.neg m) else inject_Z (Z.pos m)) * Qpower 2 e)%Q
  | _ => None
  end.

Definition pi_8_decimals : Q := 314159265 # 100000000.

(** [a] is [k] degrees in radians, to within a millionth of a radian. *)
Definition is_degrees (k : Z) (a : spec_float) : bool :=
  match float_value a with
  | Some q =>
      let exact := (inject_Z k * pi_8_decimals / 180)%Q in
      Qle_bool (exact - (1 # 1000000)) q && Qle_bool q (exact + (1 # 1000000))
  | None => false
  end.

(** The angles a rounded rectangle is drawn with. *)
Definition corner_angles : list Z := [-90; 0; 90; 180; 270].

(** ** A small concrete platform

    A font library with monospaced glyphs as wide as they are tall, used
    to run the embedding on concrete inputs. *)

Section Monospace.
Context (F : CFloat).

Definition mono_font_extents (size : double) : cairo_font_extents_t :=
  {| fe_ascent := size; fe_descent := i2d 0; fe_height := size;
     fe_max_x_advance := size; fe_max_y_advance := i2d 0 |}.

Definition mono_text_extents (size : double) (utf8 : list byte) : cairo_text_extents_t :=
  let w := dmul size (i2d (Z.of_nat (length utf8))) in
  {| te_x_bearing := i2d 0; te_y_bearing := i2d 0;
     te_width := w; te_height := size;
     te_x_advance := w; te_y_advance := i2d 0 |}.

(** A font file is found unless its path is empty. *)
Definition mono_fonts : FontLib F :=
  {| FT_Face := string;
     cairo_font_face_t := string;
     FT_Init_FreeType := 0;
     FT_New_Face := fun path => if String.eqb path "" then None else Some path;
     cairo_ft_font_face_create_for_ft_face := fun ft => ft;
     font_extents_of := fun _ size => mono_font_extents size;
     text_extents_of := fun _ size utf8 => mono_text_extents size utf8 |}.

(** The same glyphs drawn [bearing] units to the right of the pen
    position, so that ink extent and advance differ. *)
Definition shifted_fonts (bearing : Z) : FontLib F :=
  {| FT_Face := string;
     cairo_font_face_t := string;
     FT_Init_FreeType := 0;
     FT_New_Face := fun path => if String.eqb path "" then None else Some path;
     cairo_ft_font_face_create_for_ft_face := fun ft => ft;
     font_extents_of := fun _ size => mono_font_extents size;
     text_extents_of := fun _ size utf8 =>
       let e := mono_text_extents size utf8 in
       {| te_x_bearing := i2d bearing; te_y_bearing := te_y_bearing e;
          te_width := te_width e; te_height := te_height e;
          te_x_advance := te_x_advance e; te_y_advance := te_y_advance e |} |}.

(** A rasteriser that only counts the painting calls. *)
Definition counting_raster : Raster F mono_fonts :=
  {| pixels := nat; rasterize := fun _ _ n => S n |}.

End Monospace.

Definition black : nk_color := {| col_r := 0; col_g := 0; col_b := 0; col_a := 255 |}.

Module Demo.

Definition F64 : CFloat := IEEE.ieee.
Definition fonts : FontLib F64 := mono_fonts F64.

(** The caller's strings: the literals "sans.ttf" at address 100,
    "mono.ttf" at 200, the empty string at 250 and "A.ttf" to "Z.ttf" at
    300 to 325; anything else is not a string the caller owns. *)
Definition sans_ttf : Z := 100.
Definition mono_ttf : Z := 200.
Definition no_name : Z := 250.

Definition literals : memory := fun p =>
  if p =? sans_ttf then Some "sans.ttf"
  else if p =? mono_ttf then Some "mono.ttf"
  else if p =? no_name then Some ""
  else if (300 <=? p) && (p <? 326)
       then Some (String (Ascii.ascii_of_nat (Z.to_nat (p - 300 + 65))) ".ttf")
       else None.

(** A buffer of the caller's at address 500, first holding "a.ttf", then
    overwritten with "b.ttf"; "a.ttf" is also a literal at 600. *)
Definition buffer : Z := 500.
Definition a_ttf : Z := 600.
Definition buffer_a : memory := store_str (store_str literals a_ttf "a.ttf") buffer "a.ttf".
Definition buffer_b : memory := store_str buffer_a buffer "b.ttf".

(** The globals right after [nk_cairo_init]. *)
Definition started : @globals F64 fonts :=
  with_scratch static_globals (cairo_surface_destroy (cairo_create (ImageSurfaceCreate 1 1))).

(** ... and after [nk_cairo_ttf("sans.ttf", 24)]. *)
Definition loaded : @globals F64 fonts :=
  match nk_cairo_ttf literals started sans_ttf 24 with
  | Ok (_, g) => g
  | _ => started
  end.

(** The two table entries that call fills in. *)
Definition sans : @nk_cairo_face_t F64 fonts :=
  @Build_nk_cairo_face_t F64 fonts (Some sans_ttf) (Some "sans.ttf") (Some "sans.ttf").

Definition sans24 : @nk_cairo_font_t F64 :=
  {| fn_font := {| uf_userdata := Some 0; uf_height := i2f 24;
                   uf_width := Some nk_cairo_text_width_ptr |};
     fn_face := 0; fn_size := 24 |}.

(** A frame on a 100x100 buffer at address 4096. *)
Definition canvas : @frame F64 fonts := first_frame [] 4096 100 100 400.

Definition image4 : nk_image := {| img_ptr := 8192; img_w := 4; img_h := 4 |}.
Definition image1 : nk_image := {| img_ptr := 8192; img_w := 1; img_h := 1 |}.

Definition corner (x y : Z) : nk_vec2i := {| vec_x := x; vec_y := y |}.

Definition zigzag : list nk_vec2i := [corner 0 0; corner 10 0; corner 10 10].

(** The bytes of "Hi" and "Hi!". *)
Definition hi : list byte := [x48; x69].
Definition hi_bang : list byte := [x48; x69; x21].

Definition one_frame : @nk_context F64 :=
  {| ctx_commands :=
       [NK_COMMAND_SCISSOR 0 0 100 100;
        NK_COMMAND_RECT_FILLED 4 10 10 80 30 black;
        NK_COMMAND_TEXT 0 black 14 14 72 24 (i2f 24) 2 hi;
        NK_COMMAND_CURVE;
        NK_COMMAND_POLYLINE black 1 3 zigzag] |}.

(** Requests for the first [n] font files "A.ttf" onwards, at size 12. *)
Definition many_fonts (n : nat) : list (memory * Z * Z) :=
  (fun k => (literals, 300 + Z.of_nat k, 12)) <$> seq 0 n.

(** The same canvas in exact arithmetic. *)
Definition FQ : CFloat := Exact.rational.
Definition fontsQ : FontLib FQ := mono_fonts FQ.
Definition canvasQ : @frame FQ fontsQ := first_frame [] 4096 100 100 400.

(** Glyphs drawn two units right and two units left of the pen, and the
    cache after [nk_cairo_init] and [nk_cairo_ttf("sans.ttf", 24)] with
    such fonts. *)
Definition right_fonts : FontLib F64 := shifted_fonts F64 2.
Definition left_fonts : FontLib F64 := shifted_fonts F64 (-2).

Definition loaded_with (L : FontLib F64) : @globals F64 L :=
  let started :=
    with_scratch static_globals
      (cairo_surface_destroy (cairo_create (ImageSurfaceCreate 1 1))) in
  match nk_cairo_ttf literals started sans_ttf 24 with
  | Ok (_, g) => g
  | _ => started
  end.

Definition sans_right : @nk_cairo_face_t F64 right_fonts :=
  @Build_nk_cairo_face_t F64 right_fonts (Some sans_ttf) (Some "sans.ttf") (Some "sans.ttf").
Definition sans_left : @nk_cairo_face_t F64 left_fonts :=
  @Build_nk_cairo_face_t F64 left_fonts (Some sans_ttf) (Some "sans.ttf") (Some "sans.ttf").

(** The cache after a request through the buffer, and after a request
    for the same path once the buffer has been overwritten. *)
Definition reused : @globals F64 fonts :=
  match nk_cairo_ttf buffer_a started buffer 12 with
  | Ok (_, g) => g
  | _ => started
  end.

Definition reloaded : @globals F64 fonts :=
  match nk_cairo_ttf buffer_b reused a_ttf 12 with
  | Ok (_, g) => g
  | _ => reused
  end.

(** ... and the cache with one font of 16777217 pixels. *)
Definition huge : @globals F64 fonts :=
  match nk_cairo_ttf literals started sans_ttf 16777217 with
  | Ok (_, g) => g
  | _ => started
  end.

End Demo.

(** ** The font cache as its callers see it *)

Section CacheReading.
Context {F : CFloat} {L : FontLib F}.

(** The path a face entry stands for: what is read behind its pointer
    at the moment. *)
Definition stored_path (mem : memory) (e : nk_cairo_face_t) : option string :=
  match fc_ttf e with
  | Some q => mem q
  | None => None
  end.

(** The paths of the faces in use, in table order. *)
Definition face_paths (mem : memory) (g : globals) : list string :=
  omap (stored_path mem) (take (Z.to_nat (nk_cairo_face g)) (nk_cairo_faces g)).

(** The path of every face in use can be read. *)
Definition paths_readable (mem : memory) (g : globals) : Prop :=
  forall i e, 0 <= i < nk_cairo_face g ->
    nk_cairo_faces g !! Z.to_nat i = Some e -> is_Some (stored_path mem e).

(** The path of every face in use can be read, and none is [path]. *)
Definition unknown_path (mem : memory) (g : globals) (path : string) : Prop :=
  forall i e, 0 <= i < nk_cairo_face g ->
    nk_cairo_faces g !! Z.to_nat i = Some e ->
    exists s, stored_path mem e = Some s /\ s <> path.

(** Behind the pointers of the faces in use, [mem'] holds what [mem]
    holds: the caller has not rewritten or freed a path the table points
    at. *)
Definition buffers_kept (mem mem' : memory) (g : globals) : Prop :=
  forall i e, 0 <= i < nk_cairo_face g ->
    nk_cairo_faces g !! Z.to_nat i = Some e -> stored_path mem' e = stored_path mem e.

(** The faces in use point nowhere but at [seen]. *)
Definition pointers_in (seen : list Z) (g : globals) : Prop :=
  forall i e, 0 <= i < nk_cairo_face g ->
    nk_cairo_faces g !! Z.to_nat i = Some e -> exists q, fc_ttf e = Some q /\ q ∈ seen.

(** [g'] has every entry in use that [g] has, where [g] has it. *)
Definition cache_extends (g g' : globals) : Prop :=
  nk_cairo_face g <= nk_cairo_face g'
  /\ nk_cairo_font g <= nk_cairo_font g'
  /\ (forall i, 0 <= i < nk_cairo_face g ->
        nk_cairo_faces g' !! Z.to_nat i = nk_cairo_faces g !! Z.to_nat i)
  /\ (forall i, 0 <= i < nk_cairo_font g ->
        nk_cairo_fonts g' !! Z.to_nat i = nk_cairo_fonts g !! Z.to_nat i).

(** A face entry as [nk_cairo_ttf] completes it: pointing at a path,
    opened by FreeType under that path, wrapped for Cairo. *)
Definition face_loaded (mem : memory) (e : nk_cairo_face_t) : Prop :=
  exists path ft,
    stored_path mem e = Some path /\ FT_New_Face path = Some ft
    /\ fc_ft e = Some ft
    /\ fc_ca e = Some (cairo_ft_font_face_create_for_ft_face ft).

(** A sized-font entry at index [i] as [nk_cairo_ttf] completes it: the
    toolkit font points back at the entry, carries the measurement
    callback and the line height of its face at its size. *)
Definition font_made (g : globals) (i : Z) (e : nk_cairo_font_t) : Prop :=
  uf_userdata (fn_font e) = Some i
  /\ uf_width (fn_font e) = Some nk_cairo_text_width_ptr
  /\ 0 <= fn_face e < nk_cairo_face g
  /\ exists face,
       aread (nk_cairo_faces g) (fn_face e) = Ok face
       /\ uf_height (fn_font e)
          = d2f (fe_height (font_extents_of (fc_ca face) (i2d (fn_size e)))).

Definition cache_made (mem : memory) (g : globals) : Prop :=
  (forall i e, 0 <= i < nk_cairo_face g ->
     nk_cairo_faces g !! Z.to_nat i = Some e -> face_loaded mem e)
  /\ (forall i e, 0 <= i < nk_cairo_font g ->
        nk_cairo_fonts g !! Z.to_nat i = Some e -> font_made g i e).

(** The state a request leaves that opens a new face, [ft] for the
    [path] behind [ttf], and the state one leaves that makes a new sized
    font of [face], whose entry is [fe], on the scratch context
    [scratch]. *)
Definition with_new_face (g : globals) (ttf : Z) (path : string) (ft : FT_Face) : globals :=
  {| nk_cairo_face := nk_cairo_face g + 1;
     nk_cairo_faces :=
       <[Z.to_nat (nk_cairo_face g) :=
           {| fc_ttf := Some ttf; fc_ft := Some ft;
              fc_ca := Some (cairo_ft_font_face_create_for_ft_face ft) |}]>
         (nk_cairo_faces g);
     nk_cairo_font := nk_cairo_font g;
     nk_cairo_fonts := nk_cairo_fonts g;
     nk_cairo := nk_cairo g;
     ft_loaded := ft_loaded g ++ [path] |}.

Definition with_new_font (g : globals) (scratch : cairo_t) (face ttf_size : Z)
    (fe : nk_cairo_face_t) : globals :=
  {| nk_cairo_face := nk_cairo_face g;
     nk_cairo_faces := nk_cairo_faces g;
     nk_cairo_font := nk_cairo_font g + 1;
     nk_cairo_fonts :=
       <[Z.to_nat (nk_cairo_font g) :=
           {| fn_font :=
                {| uf_userdata := Some (nk_cairo_font g);
                   uf_height := d2f (fe_height (font_extents_of (fc_ca fe) (i2d ttf_size)));
                   uf_width := Some nk_cairo_text_width_ptr |};
              fn_face := face; fn_size := ttf_size |}]>
         (nk_cairo_fonts g);
     nk_cairo := Some scratch;
     ft_loaded := ft_loaded g |}.

(** Two states with the same tables; the scratch context may differ. *)
Definition same_tables (g g' : globals) : Prop :=
  nk_cairo_face g' = nk_cairo_face g
  /\ nk_cairo_faces g' = nk_cairo_faces g
  /\ nk_cairo_font g' = nk_cairo_font g
  /\ nk_cairo_fonts g' = nk_cairo_fonts g
  /\ ft_loaded g' = ft_loaded g
  /\ (nk_cairo g = None <-> nk_cairo g' = None).

End CacheReading.

(** A run of requests in which every pointer can be read when it is
    used: the one requested, and the ones requested before it, which the
    face table may still hold. *)
Fixpoint live_from (seen : list Z) (requests : list (memory * Z * Z)) : bool :=
  match requests with
  | [] => true
  | (mem, ttf, _) :: rest =>
      forallb (fun p => match mem p with Some _ => true | None => false end) (ttf :: seen)
      && live_from (ttf :: seen) rest
  end.

Definition buffers_live (requests : list (memory * Z * Z)) : Prop :=
  live_from [] requests = true.

(** The handle a request returns, without the state it leaves. *)
Definition handle_of {F : CFloat} {L : FontLib F} (o : outcome (Z * globals)) : outcome Z :=
  '(handle, _) ← o; Ok handle.

(** ** What a log of Cairo calls paints, and with what

    A painting call uses the graphics state the calls before it left on
    the context: the current path, source, line width, clip region,
    transformation and font.  The state of a new context is the one the
    Cairo reference manual gives: an empty path, opaque black as source,
    line width 2, no clip, the identity transformation, the default font
    at size 10. *)

Section Painting.
Context {F : CFloat} {L : FontLib F}.

(** A surface source is placed in the user space of the moment it is
    set. *)
Inductive source_t :=
  | Colour (r g b a : double)
  | SurfaceAt (s : cairo_surface_t) (x y : double) (m : cairo_matrix_t).

(** [gs_clip] lists the paths the clip region is the intersection of. *)
Record gstate := {
  gs_path : path_t;
  gs_source : source_t;
  gs_line_width : double;
  gs_clip : list (list segment);
  gs_matrix : cairo_matrix_t;
  gs_font_face : option cairo_font_face_t;
  gs_font_size : double
}.

Definition new_gstate : gstate :=
  {| gs_path := empty_path;
     gs_source := Colour (i2d 0) (i2d 0) (i2d 0) (i2d 1);
     gs_line_width := i2d 2;
     gs_clip := [];
     gs_matrix := identity_matrix;
     gs_font_face := None;
     gs_font_size := i2d 10 |}.

(** [cairo_show_text] leaves the current point behind the text it has
    shown; the step below leaves it where it was, and the theorems on
    commands hold for every current point a command may find. *)
Definition gstate_step (s : gstate) (c : cairo_call) : gstate :=
  {| gs_path := path_step (gs_path s) c;
     gs_source := match c with
                  | SetSourceRgba r g b a => Colour r g b a
                  | SetSourceSurface su x y => SurfaceAt su x y (gs_matrix s)
                  | _ => gs_source s
                  end;
     gs_line_width := match c with
                      | SetLineWidth w => w
                      | _ => gs_line_width s
                      end;
     gs_clip := match c with
                | ResetClip => []
                | Clip => p_segments (gs_path s) :: gs_clip s
                | _ => gs_clip s
                end;
     gs_matrix := match c with
                  | Scale sx sy =>
                      cairo_matrix_multiply (cairo_matrix_init_scale sx sy) (gs_matrix s)
                  | SetMatrix m => m
                  | _ => gs_matrix s
                  end;
     gs_font_face := match c with
                     | SetFontFace f => f
                     | _ => gs_font_face s
                     end;
     gs_font_size := match c with
                     | SetFontSize size => size
                     | _ => gs_font_size s
                     end |}.

Definition with_path (s : gstate) (p : path_t) : gstate :=
  {| gs_path := p; gs_source := gs_source s; gs_line_width := gs_line_width s;
     gs_clip := gs_clip s; gs_matrix := gs_matrix s;
     gs_font_face := gs_font_face s; gs_font_size := gs_font_size s |}.

Definition gstate_after (s : gstate) (calls : list cairo_call) : gstate :=
  fold_left gstate_step calls s.

(** What a painting call puts on the surface ... *)
Inductive ink :=
  | StrokeOf (path : list segment) (width : double)
  | FillOf (path : list segment)
  | Everywhere
  | Glyphs (utf8 : list byte) (origin : option point)
      (face : option cairo_font_face_t) (size : double).

(** ... and the source, clip and transformation it does so with. *)
Record job := {
  job_ink : ink;
  job_source : source_t;
  job_clip : list (list segment);
  job_matrix : cairo_matrix_t
}.

Definition job_of (s : gstate) (c : cairo_call) : list job :=
  let paint i := [{| job_ink := i; job_source := gs_source s;
                     job_clip := gs_clip s; job_matrix := gs_matrix s |}] in
  match c with
  | Stroke => paint (StrokeOf (p_segments (gs_path s)) (gs_line_width s))
  | Fill => paint (FillOf (p_segments (gs_path s)))
  | Paint => paint Everywhere
  | ShowText utf8 =>
      paint (Glyphs utf8 (p_current (gs_path s)) (gs_font_face s) (gs_font_size s))
  | _ => []
  end.

(** The jobs of a run of calls made in state [s]. *)
Fixpoint jobs_from (s : gstate) (calls : list cairo_call) : list job :=
  match calls with
  | [] => []
  | c :: rest => job_of s c ++ jobs_from (gstate_step s c) rest
  end.

Definition job_shape (j : job) : option shape :=
  match job_ink j with
  | StrokeOf path _ => Some (Stroked path)
  | FillOf path => Some (Filled path)
  | _ => None
  end.

Definition painted_shape (sh : shape) : bool :=
  match sh with
  | ClippedTo _ => false
  | _ => true
  end.

(** *** Commands, one at a time *)

(** The source a colour of the toolkit stands for. *)
Definition channel (c : Z) : double := ddiv (i2d c) (i2d 255).

Definition rgba (col : nk_color) : source_t :=
  Colour (channel (col_r col)) (channel (col_g col))
         (channel (col_b col)) (channel (col_a col)).

(** The outline of the scissor rectangle, computed in [float]. *)
Definition scissor_outline (x y w h : float) : list segment :=
  let x0 := f2d x in
  let y0 := f2d y in
  let x1 := f2d (fadd x w) in
  let y1 := f2d (fadd y h) in
  [Line (XY x0 y0) (XY x1 y0);
   Line (XY x1 y0) (XY x1 y1);
   Line (XY x1 y1) (XY x0 y1);
   Line (XY x0 y1) (XY x0 y0)].

Definition colour_of (cmd : nk_command) : option nk_color :=
  match cmd with
  | NK_COMMAND_LINE _ _ _ color
  | NK_COMMAND_RECT _ _ _ _ _ _ color
  | NK_COMMAND_RECT_FILLED _ _ _ _ _ color
  | NK_COMMAND_CIRCLE _ _ _ _ _ color
  | NK_COMMAND_CIRCLE_FILLED _ _ _ _ color
  | NK_COMMAND_ARC _ _ _ _ _ _ color
  | NK_COMMAND_ARC_FILLED _ _ _ _ _ color
  | NK_COMMAND_TRIANGLE _ _ _ _ color
  | NK_COMMAND_TRIANGLE_FILLED _ _ _ color
  | NK_COMMAND_POLYGON color _ _ _
  | NK_COMMAND_POLYGON_FILLED color _ _
  | NK_COMMAND_POLYLINE color _ _ _ => Some color
  | NK_COMMAND_TEXT _ foreground _ _ _ _ _ _ _ => Some foreground
  | _ => None
  end.

Definition thickness_of (cmd : nk_command) : option Z :=
  match cmd with
  | NK_COMMAND_LINE line_thickness _ _ _
  | NK_COMMAND_RECT _ line_thickness _ _ _ _ _
  | NK_COMMAND_CIRCLE _ _ line_thickness _ _ _
  | NK_COMMAND_ARC _ _ _ line_thickness _ _ _
  | NK_COMMAND_TRIANGLE line_thickness _ _ _ _
  | NK_COMMAND_POLYGON _ line_thickness _ _
  | NK_COMMAND_POLYLINE _ line_thickness _ _ => Some line_thickness
  | _ => None
  end.

(** The commands that paint; the others set the clip or do nothing. *)
Definition painting (cmd : nk_command) : bool :=
  match cmd with
  | NK_COMMAND_NOP | NK_COMMAND_SCISSOR _ _ _ _ | NK_COMMAND_CURVE
  | NK_COMMAND_RECT_MULTI_COLOR | NK_COMMAND_CUSTOM => false
  | _ => true
  end.

Definition clip_after (clip : list (list segment)) (cmd : nk_command)
  : list (list segment) :=
  match cmd with
  | NK_COMMAND_SCISSOR x y w h => [scissor_outline (i2f x) (i2f y) (i2f w) (i2f h)]
  | _ => clip
  end.

(** The calls a command makes on the frame's context. *)
Definition command_calls (g : globals) (fr : frame) (cmd : nk_command)
  : outcome (list cairo_call) :=
  fr' ← render_command g fr cmd;
  Ok (calls_since (fr_cairo fr) (fr_cairo fr')).

(** What a command paints when the context is in state [s]. *)
Definition paints_of (g : globals) (s : gstate) (fr : frame) (cmd : nk_command)
  : outcome (list job) :=
  calls ← command_calls g fr cmd;
  Ok (jobs_from s calls).

(** A new context on which nothing but a clip to [clip] has happened,
    and its graphics state. *)
Definition blank_frame : frame :=
  {| fr_cairo := {| cr_matrix := identity_matrix; cr_font_face := None;
                    cr_font_size := i2d 10; cr_calls := [] |};
     fr_stderr := [] |}.

Definition state_with (clip : list (list segment)) (m : cairo_matrix_t) : gstate :=
  {| gs_path := empty_path;
     gs_source := gs_source new_gstate;
     gs_line_width := gs_line_width new_gstate;
     gs_clip := clip;
     gs_matrix := m;
     gs_font_face := gs_font_face new_gstate;
     gs_font_size := gs_font_size new_gstate |}.

Definition clipped_to (clip : list (list segment)) : gstate :=
  state_with clip identity_matrix.

(** What a list of commands paints when each command is taken alone,
    on a context clipped to the most recent scissor rectangle. *)
Fixpoint frame_jobs (g : globals) (clip : list (list segment)) (cmds : list nk_command)
  : outcome (list job) :=
  match cmds with
  | [] => Ok []
  | cmd :: rest =>
      js ← paints_of g (clipped_to clip) blank_frame cmd;
      js' ← frame_jobs g (clip_after clip cmd) rest;
      Ok (js ++ js')
  end.

(** The points [line_to_points] reads. *)
Fixpoint points_read (pnts : list nk_vec2i) (i : Z) (n : nat) : outcome (list nk_vec2i) :=
  match n with
  | O => Ok []
  | S n' =>
      p ← aread pnts i;
      ps ← points_read pnts (i + 1) n';
      Ok (p :: ps)
  end.

(** Surfaces made and surfaces released by a run of calls. *)
Definition makes_surface (c : cairo_call) : bool :=
  match c with
  | ImageSurfaceCreate _ _ | ImageSurfaceCreateForData _ => true
  | _ => false
  end.

Definition drops_surface (c : cairo_call) : bool :=
  match c with
  | SurfaceDestroy => true
  | _ => false
  end.

Definition is_image (cmd : nk_command) : bool :=
  match cmd with
  | NK_COMMAND_IMAGE _ _ _ _ _ _ => true
  | _ => false
  end.

(** The closed outline of an arc: the arc and the chord back to its
    start. *)
Definition arc_outline (cx cy r : Z) (a0 a1 : float) : list segment :=
  [ArcSeg (i2d cx) (i2d cy) (i2d r) (f2d a0) (f2d a1);
   CloseLine (OnArc (i2d cx) (i2d cy) (i2d r) (f2d a1))
             (OnArc (i2d cx) (i2d cy) (i2d r) (f2d a0))].

(** The outline through the first [count] of the points [p0 :: rest],
    up to the last of them. *)
Definition points_used (count : Z) (rest : list nk_vec2i) : list point :=
  vertex <$> take (Z.to_nat (count - 1)) rest.

End Painting.

(** ** Colour channels in binary64 *)

(** The values of an [unsigned char]. *)
Definition byte_values : list Z := List.map Z.of_nat (seq 0 256).

(** A channel value with its source component, and the test that the
    smaller of two channel values has the smaller component. *)
Definition channel_entry (c : Z) : Z * spec_float := (c, channel (F := IEEE.ieee) c).

Definition increasing (p q : Z * spec_float) : bool :=
  if fst p <? fst q then SFltb (snd p) (snd q) else true.

(** ** Image positions in binary64 *)

Fixpoint count_from (start : Z) (n : nat) : list Z :=
  match n with
  | O => []
  | S n' => start :: count_from (start + 1) n'
  end.

(** The values of a [short] and of an [unsigned short]: -32768 to
    65535. *)
Definition int16_values : list Z := count_from (-32768) (Z.to_nat 98304).

(** A binary64 number as the conversion of the integer [v] should come
    out: +0 for 0, and otherwise a normal number, with a mantissa of 53
    bits and an exponent far from the ends of the range. *)
Definition converted (v : Z) (a : spec_float) : bool :=
  match a with
  | S754_zero s => negb s && (v =? 0)
  | S754_finite _ m e => (Z.pos (digits2_pos m) =? 53) && (-1000 <=? e) && (e <=? 900)
  | _ => false
  end.
(** ** More concrete inputs *)

Module Tour.
Import Demo.

Definition more_requests : list (memory * Z * Z) :=
  in_memory literals [(mono_ttf, 12); (sans_ttf, 30)].

(** The caller's strings with a copy of "sans.ttf" in the buffer. *)
Definition copied : memory := store_str literals buffer "sans.ttf".

(** The cache after the requests above, after sixteen font files, and
    after one measurement. *)
Definition toured : @globals F64 fonts :=
  match ttf_calls loaded more_requests with
  | Ok g => g
  | _ => loaded
  end.

Definition crowded : @globals F64 fonts :=
  match ttf_calls started (many_fonts 16) with
  | Ok g => g
  | _ => started
  end.

Definition measured : @globals F64 fonts :=
  match nk_cairo_text_width loaded (Some 0) (i2f 24) hi 2 with
  | Ok (_, g) => g
  | _ => loaded
  end.

(** The scratch context before and after that measurement. *)
Definition scratch_of (g : @globals F64 fonts) : @cairo_t F64 fonts :=
  match nk_cairo g with
  | Some scratch => scratch
  | None => fr_cairo canvas
  end.

Definition greeting : @nk_command F64 :=
  NK_COMMAND_TEXT 0 black 14 14 72 24 (i2f 24) 2 hi.

Definition busy_frame : @nk_context F64 :=
  {| ctx_commands :=
       [NK_COMMAND_LINE 2 (corner 0 0) (corner 50 50) black;
        NK_COMMAND_SCISSOR 10 10 50 50;
        NK_COMMAND_IMAGE 20 20 8 8 image4 black;
        NK_COMMAND_ARC 50 50 20 1 (i2f 0) (i2f 1) black;
        greeting;
        NK_COMMAND_POLYGON_FILLED black 3 zigzag] |}.

Definition rendered : @frame F64 fonts :=
  match nk_cairo_render loaded [] busy_frame 4096 100 100 400 with
  | Ok (fr, _) => fr
  | _ => canvas
  end.

(** The canvas after a text command, and the graphics state of a frame. *)
Definition after_text : @frame F64 fonts :=
  match render_command loaded canvas greeting with
  | Ok fr => fr
  | _ => canvas
  end.

Definition gstate_of (fr : @frame F64 fonts) : @gstate F64 fonts :=
  gstate_after new_gstate (cr_calls (fr_cairo fr)).

End Tour.

(** * Properties *)

(** Reduce [calls_since cr (f cr ...)] to the list of calls [f] makes. *)
Ltac since_calls :=
  unfold calls_since; simpl; rewrite <- ?app_assoc; simpl;
  rewrite ?drop_app_length.

(** Evaluate the two sides of an equation, leaving its type alone. *)
Ltac evaluate :=
  match goal with
  | |- ?l = ?r =>
      let v := eval vm_compute in l in
      let w := eval vm_compute in r in
      change (v = w)
  end.

Ltac evaluate_in H :=
  match type of H with
  | ?l = ?r =>
      let v := eval vm_compute in l in
      let w := eval vm_compute in r in
      change (v = w) in H
  end.

(** ** The arithmetic instances obey their laws *)

Lemma SFcompare_refl (a : spec_float) : SFcompare a a = Some Eq \/ SFcompare a a = None.
Proof.
  destruct a as [s|s| |s m e]; simpl; auto.
  - destruct s; auto.
  - left. destruct s; rewrite Z.compare_refl, Pos.compare_cont_refl; reflexivity.
Qed.

Lemma SFltb_irrefl (a : spec_float) : SFltb a a = false.
Proof.
  unfold SFltb. destruct (SFcompare_refl a) as [-> | ->]; reflexivity.
Qed.

Lemma SFcompare_Lt_Gt (a b : spec_float) :
  SFcompare a b = Some Lt -> SFcompare b a = Some Gt.
Proof.
  destruct a as [sa|sa| |sa ma ea], b as [sb|sb| |sb mb eb]; simpl;
    try discriminate; try (destruct sa; discriminate || reflexivity);
    try (destruct sb; discriminate || reflexivity);
    try (destruct sa, sb; discriminate || reflexivity).
  assert (Hc : Pos.compare_cont Eq mb ma = CompOpp (Pos.compare_cont Eq ma mb))
    by (rewrite (Pos.compare_cont_antisym ma mb Eq); reflexivity).
  destruct sa, sb; try discriminate; try reflexivity;
    rewrite (Z.compare_antisym ea eb), Hc;
    destruct (ea ?= eb); simpl; try discriminate; try reflexivity;
    destruct (Pos.compare_cont Eq ma mb); simpl; intros; try discriminate; reflexivity.
Qed.

Lemma SFltb_asym (a b : spec_float) : SFltb a b = true -> SFltb b a = false.
Proof.
  unfold SFltb. destruct (SFcompare a b) as [[]|] eqn:H; try discriminate.
  intros _. rewrite (SFcompare_Lt_Gt _ _ H). reflexivity.
Qed.

#[global] Instance ieee_strict : StrictLt IEEE.ieee.
Proof. split; [exact SFltb_irrefl | exact SFltb_asym]. Qed.

Lemma Qc_ltb_irrefl (a : Qc) :
  match Qccompare a a with Lt => true | _ => false end = false.
Proof.
  assert (H : Qccompare a a = Eq) by (apply Qceq_alt; reflexivity).
  rewrite H. reflexivity.
Qed.

Lemma Qc_ltb_asym (a b : Qc) :
  match Qccompare a b with Lt => true | _ => false end = true ->
  match Qccompare b a with Lt => true | _ => false end = false.
Proof.
  destruct (Qccompare a b) eqn:H; try discriminate. intros _.
  apply Qclt_alt in H.
  destruct (Qccompare b a) eqn:H'; try reflexivity.
  apply Qclt_alt in H'. exfalso. apply (Qclt_not_le _ _ H). apply Qclt_le_weak. exact H'.
Qed.

#[global] Instance rational_strict : StrictLt Exact.rational.
Proof. split; [exact Qc_ltb_irrefl | exact Qc_ltb_asym]. Qed.

Lemma inject_Z_nonzero (z : Z) : z <> 0 -> Q2Qc (inject_Z z) <> Q2Qc (inject_Z 0).
Proof.
  intros Hz H. apply (f_equal this) in H. simpl in H.
  assert (Hq : (inject_Z z == inject_Z 0)%Q).
  { rewrite <- (Qred_correct (inject_Z z)), H. apply Qred_correct. }
  apply Hz. unfold Qeq in Hq. simpl in Hq. lia.
Qed.

#[global] Instance rational_exact : ExactArith Exact.rational :=
  Build_ExactArith Exact.rational Qcminus Qcopp Qcinv Qcft inject_Z_nonzero.

(** ** Outcomes, arrays and strings *)

Lemma bind_Ok {A B} (m : outcome A) (k : A -> outcome B) (b : B) :
  m ≫= k = Ok b -> exists a, m = Ok a /\ k a = Ok b.
Proof. destruct m; simpl; intros H; try discriminate. eauto. Qed.

Lemma aread_Ok {A} (a : list A) (i : Z) (x : A) :
  aread a i = Ok x <-> 0 <= i /\ a !! Z.to_nat i = Some x.
Proof.
  unfold aread. destruct (i <? 0) eqn:Hi.
  - split; [discriminate | lia].
  - destruct (a !! Z.to_nat i) eqn:Hl.
    + split; [intros [= ->]; split; [lia | reflexivity] | intros [_ [= ->]]; reflexivity].
    + split; [discriminate | intros [_ [=]]].
Qed.

Lemma aread_in_range {A} (a : list A) (i : Z) :
  0 <= i < Z.of_nat (length a) -> exists x, aread a i = Ok x.
Proof.
  intros Hi. destruct (lookup_lt_is_Some_2 a (Z.to_nat i)) as [x Hx]; [lia|].
  exists x. apply aread_Ok. split; [lia | exact Hx].
Qed.

Lemma awrite_Ok {A} (a a' : list A) (i : Z) (f : A -> A) :
  awrite a i f = Ok a' ->
  0 <= i /\ exists x, a !! Z.to_nat i = Some x /\ a' = <[Z.to_nat i := f x]> a.
Proof.
  unfold awrite. intros H. apply bind_Ok in H as (x & Hx & [= <-]).
  apply aread_Ok in Hx as [Hi Hx]. eauto.
Qed.

Lemma awrite_in_range {A} (a : list A) (i : Z) (f : A -> A) :
  0 <= i < Z.of_nat (length a) ->
  exists x, a !! Z.to_nat i = Some x /\ awrite a i f = Ok (<[Z.to_nat i := f x]> a).
Proof.
  intros Hi. destruct (aread_in_range a i Hi) as [x Hx].
  exists x. split; [apply aread_Ok in Hx; tauto|].
  unfold awrite. rewrite Hx. reflexivity.
Qed.

Lemma string_compare_refl (a : string) : String.compare a a = Eq.
Proof.
  pose proof (String.compare_antisym a a) as H.
  destruct (String.compare a a); simpl in H; congruence.
Qed.

Lemma strcmp_eq (a b : string) : (strcmp a b =? 0) = true <-> a = b.
Proof.
  unfold strcmp. destruct (String.compare a b) eqn:Hc; simpl.
  - apply String.compare_eq_iff in Hc. tauto.
  - split; [discriminate|]. intros ->. rewrite string_compare_refl in Hc. discriminate.
  - split; [discriminate|]. intros ->. rewrite string_compare_refl in Hc. discriminate.
Qed.

Lemma byte_eqb_x00 (b : byte) : Byte.eqb b x00 = true -> b = x00.
Proof. apply Byte.byte_dec_bl. Qed.

Lemma c_str_nul_free (s : list byte) : x00 ∉ s -> c_str (s ++ [x00]) = s.
Proof.
  induction s as [|b s IH]; intros Hs; simpl.
  - reflexivity.
  - destruct (Byte.eqb b x00) eqn:Hb.
    + apply byte_eqb_x00 in Hb. subst b. exfalso. apply Hs. left.
    + f_equal. apply IH. intros Hin. apply Hs. right. exact Hin.
Qed.

Lemma copy_span_ok (text : list byte) (len : Z) :
  0 <= len <= Z.of_nat (length text) ->
  copy_span text len = Ok (take (Z.to_nat len) text ++ [x00]).
Proof.
  intros [H0 H1]. unfold copy_span.
  destruct (len <? 0) eqn:Ha; [lia|].
  destruct (Z.of_nat (length text) <? len) eqn:Hb; [lia|]. reflexivity.
Qed.

(** ** Text measurement *)

Section TextWidth.
Context {F : CFloat} {L : FontLib F}.

Lemma NK_MAX_is_max `{!StrictLt F} (a b : double) :
  (NK_MAX a b = a \/ NK_MAX a b = b)
  /\ dltb (NK_MAX a b) a = false /\ dltb (NK_MAX a b) b = false.
Proof.
  unfold NK_MAX. destruct (dltb a b) eqn:Hab.
  - split; [right; reflexivity|]. split; [apply dltb_asym; exact Hab | apply dltb_irrefl].
  - split; [left; reflexivity|]. split; [apply dltb_irrefl | exact Hab].
Qed.


(** C10.  The height argument of the measurement callback has no
    influence: two calls that differ only in it return the same outcome,
    and even from two different global states the widths agree as soon
    as the handle leads to the same face and pixel size in both. *)
Theorem nk_cairo_text_width_ignores_h (handle : option Z) (text : list byte) (len : Z)
    (h1 h2 : float) :
  (forall g,
     nk_cairo_text_width g handle h1 text len = nk_cairo_text_width g handle h2 text len)
  /\ (forall g1 g2 cfont1 cfont2 face1 face2 scratch1 scratch2,
        deref_font g1 handle = Ok cfont1 -> deref_font g2 handle = Ok cfont2 ->
        aread (nk_cairo_faces g1) (fn_face cfont1) = Ok face1 ->
        aread (nk_cairo_faces g2) (fn_face cfont2) = Ok face2 ->
        nk_cairo g1 = Some scratch1 -> nk_cairo g2 = Some scratch2 ->
        fc_ca face1 = fc_ca face2 -> fn_size cfont1 = fn_size cfont2 ->
        width_of (nk_cairo_text_width g1 handle h1 text len)
        = width_of (nk_cairo_text_width g2 handle h2 text len)).
Proof.
  split; [reflexivity|].
  intros g1 g2 cfont1 cfont2 face1 face2 scratch1 scratch2
    Hf1 Hf2 Hc1 Hc2 Hs1 Hs2 Hca Hsize.
  unfold nk_cairo_text_width.
  destruct (copy_span text len) as [tmp| |]; [|reflexivity..].
  cbn [mbind outcome_bind]. rewrite Hf1, Hf2. cbn [mbind outcome_bind].
  rewrite Hs1, Hs2, Hc1, Hc2. cbn [mbind outcome_bind].
  simpl. rewrite Hca, Hsize. reflexivity.
Qed.

End TextWidth.

(** ** The font cache *)

Section FontCacheFacts.
Context {F : CFloat} {L : FontLib F}.

Lemma aread_no_abort {A} (a : list A) (i : Z) : aread a i <> AssertFailed.
Proof.
  unfold aread. destruct (i <? 0); [discriminate|]. destruct (a !! Z.to_nat i); discriminate.
Qed.

Lemma awrite_no_abort {A} (a : list A) (i : Z) (f : A -> A) : awrite a i f <> AssertFailed.
Proof.
  unfold awrite. pose proof (aread_no_abort a i) as H.
  destruct (aread a i); simpl; [discriminate | contradiction | discriminate].
Qed.

(** *** The strings behind the pointers *)

Lemma read_str_Ok (mem : memory) (p : Z) (s : string) :
  read_str mem p = Ok s <-> mem p = Some s.
Proof.
  unfold read_str. destruct (mem p) as [t|]; split; intros H; try discriminate;
    injection H as <-; reflexivity.
Qed.

Lemma strcmp_at_Ok (mem : memory) (a b c : Z) :
  strcmp_at mem a b = Ok c ->
  exists s t, mem a = Some s /\ mem b = Some t /\ c = strcmp s t.
Proof.
  unfold strcmp_at, read_str.
  destruct (mem a) as [s|]; [|discriminate].
  destruct (mem b) as [t|]; [|discriminate].
  simpl. intros [= <-]. eauto.
Qed.

Lemma strcmp_at_read (mem : memory) (a b : Z) (s t : string) :
  mem a = Some s -> mem b = Some t -> strcmp_at mem a b = Ok (strcmp s t).
Proof. unfold strcmp_at, read_str. intros -> ->. reflexivity. Qed.

Lemma stored_path_pointer (mem : memory) (e : nk_cairo_face_t) (s : string) :
  stored_path mem e = Some s -> exists q, fc_ttf e = Some q /\ mem q = Some s.
Proof. unfold stored_path. destruct (fc_ttf e) as [q|]; [eauto | discriminate]. Qed.

Lemma strcmp_neq (a b : string) : (strcmp a b =? 0) = false <-> a <> b.
Proof.
  pose proof (strcmp_eq a b) as H. destruct (strcmp a b =? 0); split; intros H1.
  - discriminate.
  - exfalso. apply H1. apply H. reflexivity.
  - intros Hab. apply H in Hab. discriminate.
  - reflexivity.
Qed.

(** *** The two lookup loops *)

Lemma face_loop_range (mem : memory) (faces : list nk_cairo_face_t) (ttf : Z) (n : nat) :
  forall (i r : Z), face_loop mem faces ttf i n = Ok r ->
    r = -1 \/ i <= r < i + Z.of_nat n.
Proof.
  induction n as [|n IH]; intros i r.
  - simpl. intros [= <-]. left; reflexivity.
  - cbn [face_loop]. intros H. apply bind_Ok in H as (e & _ & H).
    destruct (fc_ttf e) as [q|]; [|discriminate].
    apply bind_Ok in H as (c & _ & H).
    destruct (c =? 0).
    + injection H as <-. right; lia.
    + apply IH in H. lia.
Qed.

(** The loop depends on the table and on memory only through what the
    entries it visits read as. *)
Lemma face_loop_agree (mem mem' : memory) (faces faces' : list nk_cairo_face_t)
    (ttf ttf' : Z) (n : nat) :
  mem' ttf' = mem ttf ->
  forall i : Z,
    (forall j, i <= j < i + Z.of_nat n -> faces' !! Z.to_nat j = faces !! Z.to_nat j) ->
    (forall j e, i <= j < i + Z.of_nat n -> faces !! Z.to_nat j = Some e ->
       stored_path mem' e = stored_path mem e) ->
    face_loop mem' faces' ttf' i n = face_loop mem faces ttf i n.
Proof.
  intros Httf. induction n as [|n IH]; intros i Hagree Hkept; simpl; [reflexivity|].
  unfold aread. rewrite (Hagree i) by lia.
  destruct (i <? 0); [reflexivity|].
  destruct (faces !! Z.to_nat i) as [e|] eqn:He; simpl; [|reflexivity].
  pose proof (Hkept i e ltac:(lia) He) as Hp. unfold stored_path in Hp.
  destruct (fc_ttf e) as [q|]; [|reflexivity].
  unfold strcmp_at, read_str. rewrite Httf, Hp.
  destruct (mem ttf) as [s|]; simpl; [|reflexivity].
  destruct (mem q) as [t|]; simpl; [|reflexivity].
  destruct (strcmp s t =? 0); [reflexivity|].
  apply IH.
  - intros j Hj. apply Hagree. lia.
  - intros j e' Hj. apply Hkept. lia.
Qed.

Lemma face_loop_longer (mem : memory) (faces : list nk_cairo_face_t) (ttf : Z) (n : nat) :
  forall (i r : Z) (n' : nat),
    face_loop mem faces ttf i n = Ok r -> 0 <= r -> (n <= n')%nat ->
    face_loop mem faces ttf i n' = Ok r.
Proof.
  induction n as [|n IH]; intros i r n' H Hr Hn.
  - simpl in H. injection H as <-. lia.
  - destruct n' as [|n']; [lia|]. cbn [face_loop] in *.
    destruct (aread faces i) as [e| |]; simpl in *; try discriminate.
    destruct (fc_ttf e) as [q|]; [|discriminate].
    destruct (strcmp_at mem ttf q) as [c| |]; simpl in *; try discriminate.
    destruct (c =? 0); [exact H|].
    apply (IH (i + 1)); [exact H | exact Hr | lia].
Qed.

(** A loop that found its entry finds the same one later, in a longer
    table with the same entries in front, as long as these still read
    the same. *)
Lemma face_loop_later (mem mem' : memory) (faces faces' : list nk_cairo_face_t)
    (ttf ttf' : Z) (n n' : nat) (r : Z) :
  face_loop mem faces ttf 0 n = Ok r -> 0 <= r -> (n <= n')%nat ->
  mem' ttf' = mem ttf ->
  (forall j, 0 <= j < Z.of_nat n -> faces' !! Z.to_nat j = faces !! Z.to_nat j) ->
  (forall j e, 0 <= j < Z.of_nat n -> faces !! Z.to_nat j = Some e ->
     stored_path mem' e = stored_path mem e) ->
  face_loop mem' faces' ttf' 0 n' = Ok r.
Proof.
  intros H Hr Hn Httf Hsame Hkept.
  apply (face_loop_longer _ _ _ n); [|exact Hr | exact Hn].
  rewrite <- H. apply face_loop_agree; [exact Httf | |].
  - intros j Hj. apply Hsame. lia.
  - intros j e Hj. apply Hkept. lia.
Qed.

Lemma face_loop_hit (mem : memory) (faces : list nk_cairo_face_t) (ttf : Z) (n : nat) :
  forall (i r : Z), 0 <= i -> face_loop mem faces ttf i n = Ok r -> 0 <= r ->
    exists e s, aread faces r = Ok e /\ mem ttf = Some s /\ stored_path mem e = Some s.
Proof.
  induction n as [|n IH]; intros i r Hi.
  - simpl. intros [= <-]. lia.
  - cbn [face_loop]. intros H Hr. apply bind_Ok in H as (e & He & H).
    destruct (fc_ttf e) as [q|] eqn:Hq; [|discriminate].
    apply bind_Ok in H as (c & Hc & H).
    destruct (c =? 0) eqn:Hz.
    + injection H as <-. apply strcmp_at_Ok in Hc as (s & t & Hs & Ht & ->).
      apply strcmp_eq in Hz. subst t. exists e, s.
      unfold stored_path. rewrite Hq. auto.
    + apply (IH (i + 1)); [lia | exact H | exact Hr].
Qed.

Lemma face_loop_miss (mem : memory) (faces : list nk_cairo_face_t) (ttf : Z) (n : nat) :
  forall i : Z, 0 <= i -> face_loop mem faces ttf i n = Ok (-1) ->
    forall j e, i <= j < i + Z.of_nat n -> faces !! Z.to_nat j = Some e ->
      exists s t, mem ttf = Some s /\ stored_path mem e = Some t /\ t <> s.
Proof.
  induction n as [|n IH]; intros i Hi H j e Hj He; [lia|].
  cbn [face_loop] in H. apply bind_Ok in H as (e0 & He0 & H).
  apply aread_Ok in He0 as [_ He0].
  destruct (fc_ttf e0) as [q|] eqn:Hq; [|discriminate].
  apply bind_Ok in H as (c & Hc & H).
  destruct (c =? 0) eqn:Hz; [injection H; lia|].
  destruct (decide (j = i)) as [-> | Hne].
  - rewrite He0 in He. injection He as <-.
    apply strcmp_at_Ok in Hc as (s & t & Hs & Ht & ->).
    apply strcmp_neq in Hz. exists s, t.
    unfold stored_path. rewrite Hq. split; [exact Hs|]. split; [exact Ht|]. congruence.
  - apply (IH (i + 1)) with (j := j); [lia | exact H | lia | exact He].
Qed.

Lemma face_loop_absent (mem : memory) (faces : list nk_cairo_face_t) (ttf : Z)
    (path : string) (n : nat) :
  forall i r : Z, 0 <= i -> face_loop mem faces ttf i n = Ok r ->
    mem ttf = Some path ->
    (forall j e, i <= j < i + Z.of_nat n -> faces !! Z.to_nat j = Some e ->
       stored_path mem e <> Some path) ->
    r = -1.
Proof.
  intros i r Hi H Hpath Habs.
  destruct (face_loop_range _ _ _ _ _ _ H) as [-> | Hr]; [reflexivity|].
  destruct (face_loop_hit _ _ _ _ _ _ Hi H) as (e & s & He & Hs & Hst); [lia|].
  apply aread_Ok in He as [_ He]. exfalso.
  apply (Habs r e Hr He). congruence.
Qed.

Lemma face_loop_snoc (mem : memory) (faces : list nk_cairo_face_t) (ttf : Z)
    (e : nk_cairo_face_t) (s : string) (n : nat) :
  forall i : Z,
    0 <= i ->
    face_loop mem faces ttf i n = Ok (-1) ->
    aread faces (i + Z.of_nat n) = Ok e ->
    mem ttf = Some s -> stored_path mem e = Some s ->
    face_loop mem faces ttf i (S n) = Ok (i + Z.of_nat n).
Proof.
  intros i Hi Hloop Hread Hs He. revert i Hi Hloop Hread.
  apply stored_path_pointer in He as (q & Hq & Hmq).
  induction n as [|n IH]; intros i Hi Hloop Hread.
  - simpl. replace (i + Z.of_nat 0) with i in Hread by lia.
    rewrite Hread. simpl. rewrite Hq.
    rewrite (strcmp_at_read _ _ _ _ _ Hs Hmq). simpl.
    rewrite (proj2 (strcmp_eq s s) eq_refl). f_equal. lia.
  - change (face_loop mem faces ttf i (S (S n)))
      with (e0 ← aread faces i;
            match fc_ttf e0 with
            | None => Undefined
            | Some q0 =>
                c ← strcmp_at mem ttf q0;
                if c =? 0 then Ok i else face_loop mem faces ttf (i + 1) (S n)
            end).
    simpl in Hloop.
    destruct (aread faces i) as [e0| |]; simpl in *; try discriminate.
    destruct (fc_ttf e0) as [q0|]; [|discriminate].
    destruct (strcmp_at mem ttf q0) as [c| |]; simpl in *; try discriminate.
    destruct (c =? 0); [injection Hloop; lia|].
    rewrite (IH (i + 1)); [f_equal; lia | lia | exact Hloop |].
    rewrite <- Hread. f_equal. lia.
Qed.

Lemma face_loop_total (mem : memory) (faces : list nk_cairo_face_t) (ttf : Z)
    (count : Z) (n : nat) :
  (Z.to_nat count <= length faces)%nat ->
  is_Some (mem ttf) ->
  (forall i e, 0 <= i < count -> faces !! Z.to_nat i = Some e ->
     is_Some (stored_path mem e)) ->
  forall i : Z, 0 <= i -> i + Z.of_nat n <= count ->
    exists r, face_loop mem faces ttf i n = Ok r.
Proof.
  intros Hlen [s Hs] Hread. induction n as [|n IH]; intros i Hi Hn.
  - exists (-1). reflexivity.
  - cbn [face_loop].
    destruct (aread_in_range faces i) as [e He]; [lia|].
    rewrite He. simpl.
    apply aread_Ok in He as [_ He].
    destruct (Hread i e ltac:(lia) He) as [t Ht].
    apply stored_path_pointer in Ht as (q & -> & Hq).
    rewrite (strcmp_at_read _ _ _ _ _ Hs Hq). simpl.
    destruct (strcmp s t =? 0); [eauto|].
    apply IH; lia.
Qed.

Lemma font_loop_range (fonts : list nk_cairo_font_t) (face size : Z) (n : nat) :
  forall (i r : Z), font_loop fonts face size i n = Ok r ->
    r = -1 \/ i <= r < i + Z.of_nat n.
Proof.
  induction n as [|n IH]; intros i r.
  - simpl. intros [= <-]. left; reflexivity.
  - cbn [font_loop]. intros H. apply bind_Ok in H as (e & _ & H).
    destruct ((fn_face e =? face) && (fn_size e =? size)).
    + injection H as <-. right; lia.
    + apply IH in H. lia.
Qed.

Lemma font_loop_agree (fonts fonts' : list nk_cairo_font_t) (face size : Z) (n : nat) :
  forall i : Z,
    (forall j, i <= j < i + Z.of_nat n -> fonts' !! Z.to_nat j = fonts !! Z.to_nat j) ->
    font_loop fonts' face size i n = font_loop fonts face size i n.
Proof.
  induction n as [|n IH]; intros i Hagree; simpl; [reflexivity|].
  unfold aread. rewrite (Hagree i) by lia.
  destruct (i <? 0); [reflexivity|].
  destruct (fonts !! Z.to_nat i) as [e|]; simpl; [|reflexivity].
  destruct ((fn_face e =? face) && (fn_size e =? size)); [reflexivity|].
  apply IH. intros j Hj. apply Hagree. lia.
Qed.

Lemma font_loop_snoc (fonts : list nk_cairo_font_t) (face size : Z) (e : nk_cairo_font_t)
    (n : nat) :
  forall i : Z,
    0 <= i ->
    font_loop fonts face size i n = Ok (-1) ->
    aread fonts (i + Z.of_nat n) = Ok e ->
    fn_face e = face -> fn_size e = size ->
    font_loop fonts face size i (S n) = Ok (i + Z.of_nat n).
Proof.
  induction n as [|n IH]; intros i Hi Hloop Hread Hface Hsize.
  - simpl. replace (i + Z.of_nat 0) with i in Hread by lia.
    rewrite Hread. simpl. rewrite Hface, Hsize, !Z.eqb_refl. simpl. f_equal. lia.
  - change (font_loop fonts face size i (S (S n)))
      with (e0 ← aread fonts i;
            if (fn_face e0 =? face) && (fn_size e0 =? size) then Ok i
            else font_loop fonts face size (i + 1) (S n)).
    simpl in Hloop.
    destruct (aread fonts i) as [e0| |]; simpl in *; try discriminate.
    destruct ((fn_face e0 =? face) && (fn_size e0 =? size)); [injection Hloop; lia|].
    rewrite (IH (i + 1)); [f_equal; lia | lia | exact Hloop | | exact Hface | exact Hsize].
    rewrite <- Hread. f_equal. lia.
Qed.

Lemma font_loop_hit (fonts : list nk_cairo_font_t) (face size : Z) (n : nat) :
  forall (i r : Z), 0 <= i -> font_loop fonts face size i n = Ok r -> 0 <= r ->
    exists e, aread fonts r = Ok e /\ fn_face e = face /\ fn_size e = size.
Proof.
  induction n as [|n IH]; intros i r Hi.
  - simpl. intros [= <-]. lia.
  - cbn [font_loop]. intros H Hr. apply bind_Ok in H as (e & He & H).
    destruct ((fn_face e =? face) && (fn_size e =? size)) eqn:Hc.
    + injection H as <-. apply andb_true_iff in Hc as [H1 H2].
      apply Z.eqb_eq in H1, H2. eauto.
    + apply (IH (i + 1)); [lia | exact H | exact Hr].
Qed.

Lemma font_loop_more (fonts fonts' : list nk_cairo_font_t) (face size : Z) (n : nat) :
  forall (i r : Z) (n' : nat),
    0 <= i -> font_loop fonts face size i n = Ok r -> 0 <= r -> (n <= n')%nat ->
    (forall j, i <= j < i + Z.of_nat n -> fonts' !! Z.to_nat j = fonts !! Z.to_nat j) ->
    font_loop fonts' face size i n' = Ok r.
Proof.
  induction n as [|n IH]; intros i r n' Hi H Hr Hn Hsame.
  - simpl in H. injection H as <-. lia.
  - destruct n' as [|n']; [lia|]. cbn [font_loop] in *.
    apply bind_Ok in H as (e & He & H).
    assert (He' : aread fonts' i = Ok e).
    { apply aread_Ok in He as [H0 He]. apply aread_Ok. split; [exact H0|].
      rewrite Hsame by lia. exact He. }
    rewrite He'. cbn [mbind outcome_bind].
    destruct ((fn_face e =? face) && (fn_size e =? size)); [exact H|].
    apply (IH (i + 1)); [lia | exact H | exact Hr | lia |].
    intros j Hj. apply Hsame. lia.
Qed.

Lemma font_loop_total (fonts : list nk_cairo_font_t) (face size : Z) (count : Z) (n : nat) :
  (Z.to_nat count <= length fonts)%nat ->
  forall i : Z, 0 <= i -> i + Z.of_nat n <= count ->
    exists r, font_loop fonts face size i n = Ok r.
Proof.
  intros Hlen. induction n as [|n IH]; intros i Hi Hn.
  - exists (-1). reflexivity.
  - cbn [font_loop].
    destruct (aread_in_range fonts i) as [e He]; [lia|].
    rewrite He. simpl.
    destruct ((fn_face e =? face) && (fn_size e =? size)); [eauto|].
    apply IH; lia.
Qed.

(** *** The two halves of a request *)

(** A face is either found, and nothing changes, or it is opened and
    takes the next entry. *)
Lemma ttf_face_cases (mem : memory) (g g1 : globals) (ttf : Z) (face : Z) :
  ttf_face mem g ttf = Ok (face, g1) ->
  (g1 = g /\ 0 <= face < nk_cairo_face g
   /\ face_loop mem (nk_cairo_faces g) ttf 0 (Z.to_nat (nk_cairo_face g)) = Ok face)
  \/ (face = nk_cairo_face g
      /\ face_loop mem (nk_cairo_faces g) ttf 0 (Z.to_nat (nk_cairo_face g)) = Ok (-1)
      /\ 0 <= nk_cairo_face g < MAXFONTS
      /\ (Z.to_nat (nk_cairo_face g) < length (nk_cairo_faces g))%nat
      /\ exists path ft,
           mem ttf = Some path /\ FT_New_Face path = Some ft
           /\ g1 = with_new_face g ttf path ft).
Proof.
  unfold ttf_face. intros H. apply bind_Ok in H as (r & Hloop & H).
  destruct (r <? 0) eqn:Hneg.
  - right. destruct (face_loop_range _ _ _ _ _ _ Hloop) as [-> | Hr]; [|lia].
    apply bind_Ok in H as (u & Hassert & H).
    apply bind_Ok in H as (faces1 & Hw1 & H). simpl in Hw1, H.
    apply bind_Ok in H as (path & Hpath & H). simpl in H.
    apply read_str_Ok in Hpath.
    destruct (FT_New_Face path) as [ft|] eqn:Hft; [|discriminate].
    apply bind_Ok in H as (faces2 & Hw2 & H). simpl in Hw2, H.
    apply bind_Ok in H as (faces3 & Hw3 & H). simpl in Hw3, H.
    injection H as <- <-.
    apply awrite_Ok in Hw1 as (Hc & e0 & He0 & ->).
    apply awrite_Ok in Hw2 as (_ & e1 & He1 & ->).
    apply awrite_Ok in Hw3 as (_ & e2 & He2 & ->).
    pose proof (lookup_lt_Some _ _ _ He0) as Hlen.
    rewrite list_lookup_insert_eq in He1 by exact Hlen. injection He1 as <-.
    rewrite list_lookup_insert_eq in He2 by (rewrite length_insert; exact Hlen).
    injection He2 as <-. simpl.
    split; [reflexivity|]. split; [exact Hloop|]. split.
    { split; [exact Hc|]. unfold assert in Hassert.
      destruct (nk_cairo_face g <? MAXFONTS) eqn:Hlt; [lia | discriminate]. }
    split; [exact Hlen|]. exists path, ft. split; [exact Hpath|]. split; [exact Hft|].
    unfold with_new_face, with_faces, with_loaded, with_face_count. simpl.
    rewrite !list_insert_insert_eq. reflexivity.
  - left. injection H as <- <-. split; [reflexivity|].
    destruct (face_loop_range _ _ _ _ _ _ Hloop) as [-> | Hr]; [lia|]. split; [lia | exact Hloop].
Qed.

Lemma ttf_font_cases (g g2 : globals) (face size font : Z) :
  ttf_font g face size = Ok (font, g2) ->
  (g2 = g /\ 0 <= font < nk_cairo_font g
   /\ font_loop (nk_cairo_fonts g) face size 0 (Z.to_nat (nk_cairo_font g)) = Ok font)
  \/ (font = nk_cairo_font g
      /\ font_loop (nk_cairo_fonts g) face size 0 (Z.to_nat (nk_cairo_font g)) = Ok (-1)
      /\ 0 <= nk_cairo_font g < MAXFONTS
      /\ (Z.to_nat (nk_cairo_font g) < length (nk_cairo_fonts g))%nat
      /\ exists scratch fe,
           aread (nk_cairo_faces g) face = Ok fe
           /\ g2 = with_new_font g scratch face size fe).
Proof.
  unfold ttf_font. intros H. apply bind_Ok in H as (r & Hloop & H).
  destruct (r <? 0) eqn:Hneg.
  - right. destruct (font_loop_range _ _ _ _ _ _ Hloop) as [-> | Hr]; [|lia].
    apply bind_Ok in H as (u & Hassert & H). simpl in H.
    destruct (nk_cairo g) as [scratch|]; [|discriminate].
    apply bind_Ok in H as (fe & Hfe & H). simpl in H.
    apply bind_Ok in H as (fonts1 & Hw & H). simpl in Hw, H.
    injection H as <- <-.
    apply awrite_Ok in Hw as (Hc & e0 & He0 & ->).
    pose proof (lookup_lt_Some _ _ _ He0) as Hlen.
    split; [reflexivity|]. split; [exact Hloop|]. split.
    { split; [exact Hc|]. unfold assert in Hassert.
      destruct (nk_cairo_font g <? MAXFONTS) eqn:Hlt; [lia | discriminate]. }
    split; [exact Hlen|]. eexists _, fe. split; [exact Hfe|]. reflexivity.
  - left. injection H as <- <-. split; [reflexivity|].
    destruct (font_loop_range _ _ _ _ _ _ Hloop) as [-> | Hr]; [lia|]. split; [lia | exact Hloop].
Qed.

Lemma ttf_face_found (mem : memory) (g : globals) (ttf : Z) (face : Z) :
  face_loop mem (nk_cairo_faces g) ttf 0 (Z.to_nat (nk_cairo_face g)) = Ok face ->
  0 <= face ->
  ttf_face mem g ttf = Ok (face, g).
Proof.
  intros Hloop Hface. unfold ttf_face. rewrite Hloop. simpl.
  destruct (face <? 0) eqn:Hneg; [lia | reflexivity].
Qed.

Lemma ttf_font_found (g : globals) (face size font : Z) :
  font_loop (nk_cairo_fonts g) face size 0 (Z.to_nat (nk_cairo_font g)) = Ok font ->
  0 <= font ->
  ttf_font g face size = Ok (font, g).
Proof.
  intros Hloop Hfont. unfold ttf_font. rewrite Hloop. simpl.
  destruct (font <? 0) eqn:Hneg; [lia | reflexivity].
Qed.

(** What the halves leave alone ... *)
Lemma ttf_face_keeps (mem : memory) (g g1 : globals) (ttf : Z) (face : Z) :
  ttf_face mem g ttf = Ok (face, g1) ->
  nk_cairo_face g <= nk_cairo_face g1 <= nk_cairo_face g + 1
  /\ (forall i, 0 <= i < nk_cairo_face g ->
        nk_cairo_faces g1 !! Z.to_nat i = nk_cairo_faces g !! Z.to_nat i)
  /\ nk_cairo_font g1 = nk_cairo_font g
  /\ nk_cairo_fonts g1 = nk_cairo_fonts g
  /\ nk_cairo g1 = nk_cairo g
  /\ length (nk_cairo_faces g1) = length (nk_cairo_faces g).
Proof.
  intros H.
  destruct (ttf_face_cases _ _ _ _ _ H)
    as [(-> & _) | (_ & _ & Hc & _ & path & ft & _ & _ & ->)].
  - split; [lia|]. auto.
  - simpl. split; [lia|]. split; [|rewrite length_insert; auto].
    intros i Hi. rewrite list_lookup_insert_ne by lia. reflexivity.
Qed.

Lemma ttf_font_keeps (g g2 : globals) (face size font : Z) :
  ttf_font g face size = Ok (font, g2) ->
  nk_cairo_font g <= nk_cairo_font g2 <= nk_cairo_font g + 1
  /\ (forall i, 0 <= i < nk_cairo_font g ->
        nk_cairo_fonts g2 !! Z.to_nat i = nk_cairo_fonts g !! Z.to_nat i)
  /\ nk_cairo_face g2 = nk_cairo_face g
  /\ nk_cairo_faces g2 = nk_cairo_faces g
  /\ ft_loaded g2 = ft_loaded g
  /\ (nk_cairo g <> None -> nk_cairo g2 <> None).
Proof.
  intros H.
  destruct (ttf_font_cases _ _ _ _ _ H)
    as [(-> & _) | (_ & _ & Hc & _ & scratch & fe & _ & ->)].
  - split; [lia|]. repeat split; auto.
  - simpl. split; [lia|]. split; [|repeat split; discriminate].
    intros i Hi. rewrite list_lookup_insert_ne by lia. reflexivity.
Qed.

Lemma ttf_font_same_count (g g2 : globals) (face size font : Z) :
  ttf_font g face size = Ok (font, g2) ->
  nk_cairo_font g2 = nk_cairo_font g -> g2 = g.
Proof.
  intros H Hsame.
  destruct (ttf_font_cases _ _ _ _ _ H)
    as [(-> & _) | (_ & _ & _ & _ & scratch & fe & _ & ->)]; [reflexivity|].
  simpl in Hsame. lia.
Qed.

(** ... and what they leave where they point. *)
Lemma ttf_face_leaves (mem : memory) (g g1 : globals) (ttf : Z) (face : Z) :
  ttf_face mem g ttf = Ok (face, g1) ->
  face_loop mem (nk_cairo_faces g1) ttf 0 (Z.to_nat (nk_cairo_face g1)) = Ok face
  /\ 0 <= face < nk_cairo_face g1.
Proof.
  intros H.
  destruct (ttf_face_cases _ _ _ _ _ H)
    as [(-> & Hr & Hloop) | (-> & Hloop & Hc & Hlen & path & ft & Hpath & Hft & ->)].
  - split; [exact Hloop | exact Hr].
  - simpl. split; [|lia].
    replace (Z.to_nat (nk_cairo_face g + 1)) with (S (Z.to_nat (nk_cairo_face g))) by lia.
    set (c := nk_cairo_face g) in *.
    replace c with (0 + Z.of_nat (Z.to_nat c)) at 3 by lia.
    eapply face_loop_snoc with (s := path).
    + lia.
    + rewrite <- Hloop. apply face_loop_agree; [reflexivity | |].
      * intros j Hj. apply list_lookup_insert_ne. lia.
      * reflexivity.
    + apply aread_Ok. split; [lia|].
      replace (Z.to_nat (0 + Z.of_nat (Z.to_nat c))) with (Z.to_nat c) by lia.
      apply list_lookup_insert_eq. exact Hlen.
    + exact Hpath.
    + exact Hpath.
Qed.

Lemma ttf_font_leaves (g g2 : globals) (face size font : Z) :
  ttf_font g face size = Ok (font, g2) ->
  font_loop (nk_cairo_fonts g2) face size 0 (Z.to_nat (nk_cairo_font g2)) = Ok font
  /\ 0 <= font < nk_cairo_font g2.
Proof.
  intros H.
  destruct (ttf_font_cases _ _ _ _ _ H)
    as [(-> & Hr & Hloop) | (-> & Hloop & Hc & Hlen & scratch & fe & Hfe & ->)].
  - split; [exact Hloop | exact Hr].
  - simpl. split; [|lia].
    replace (Z.to_nat (nk_cairo_font g + 1)) with (S (Z.to_nat (nk_cairo_font g))) by lia.
    set (c := nk_cairo_font g) in *.
    replace c with (0 + Z.of_nat (Z.to_nat c)) at 4 by lia.
    eapply font_loop_snoc.
    + lia.
    + rewrite <- Hloop. apply font_loop_agree. intros j Hj.
      apply list_lookup_insert_ne. lia.
    + apply aread_Ok. split; [lia|].
      replace (Z.to_nat (0 + Z.of_nat (Z.to_nat c))) with (Z.to_nat c) by lia.
      apply list_lookup_insert_eq. exact Hlen.
    + reflexivity.
    + reflexivity.
Qed.

Lemma ttf_face_entry (mem : memory) (g g1 : globals) (ttf : Z) (face : Z) :
  ttf_face mem g ttf = Ok (face, g1) ->
  0 <= face < nk_cairo_face g1
  /\ exists e path, aread (nk_cairo_faces g1) face = Ok e
                    /\ mem ttf = Some path /\ stored_path mem e = Some path.
Proof.
  intros H. destruct (ttf_face_leaves _ _ _ _ _ H) as [Hloop Hface].
  split; [exact Hface|].
  eapply (face_loop_hit _ _ _ _ 0 face); [lia | exact Hloop | lia].
Qed.

Lemma ttf_font_entry (g g2 : globals) (face size font : Z) :
  ttf_font g face size = Ok (font, g2) ->
  0 <= font < nk_cairo_font g2
  /\ exists e, aread (nk_cairo_fonts g2) font = Ok e
               /\ fn_face e = face /\ fn_size e = size.
Proof.
  intros H. destruct (ttf_font_leaves _ _ _ _ _ H) as (Hloop & Hfont).
  split; [exact Hfont|].
  eapply (font_loop_hit _ _ _ _ 0 font); [lia | exact Hloop | lia].
Qed.

(** The handle of a request leads to a sized font of the requested size
    whose face points at the requested path. *)
Lemma ttf_handle_entry (mem : memory) (g g' : globals) (ttf : Z) (ttf_size handle : Z) :
  nk_cairo_ttf mem g ttf ttf_size = Ok (handle, g') ->
  0 <= handle < nk_cairo_font g'
  /\ exists cfont face path,
       aread (nk_cairo_fonts g') handle = Ok cfont
       /\ fn_size cfont = ttf_size
       /\ 0 <= fn_face cfont < nk_cairo_face g'
       /\ aread (nk_cairo_faces g') (fn_face cfont) = Ok face
       /\ mem ttf = Some path
       /\ stored_path mem face = Some path.
Proof.
  unfold nk_cairo_ttf. intros H.
  apply bind_Ok in H as ([face g1] & Hface & Hfont).
  destruct (ttf_face_entry _ _ _ _ _ Hface) as (Hf & e & path & He & Hpath & Hst).
  destruct (ttf_font_entry _ _ _ _ _ Hfont) as (Hh & cfont & Hc & Hcf & Hcs).
  destruct (ttf_font_keeps _ _ _ _ _ Hfont) as (_ & _ & Hcount & Hfaces & _).
  split; [exact Hh|]. exists cfont, e, path.
  rewrite Hcf, Hcount, Hfaces.
  split; [exact Hc|]. split; [exact Hcs|]. split; [exact Hf|]. auto.
Qed.

(** *** Entries in use are never moved or overwritten *)

Lemma cache_extends_refl (g : globals) : cache_extends g g.
Proof. unfold cache_extends. repeat split; auto; lia. Qed.

Lemma cache_extends_trans (g1 g2 g3 : globals) :
  cache_extends g1 g2 -> cache_extends g2 g3 -> cache_extends g1 g3.
Proof.
  intros (Ha & Hb & Hc & Hd) (Ha' & Hb' & Hc' & Hd').
  unfold cache_extends. split; [lia|]. split; [lia|]. split.
  - intros i Hi. rewrite Hc' by lia. apply Hc. exact Hi.
  - intros i Hi. rewrite Hd' by lia. apply Hd. exact Hi.
Qed.

Lemma nk_cairo_ttf_extends (mem : memory) (g g' : globals) (ttf : Z) (ttf_size handle : Z) :
  nk_cairo_ttf mem g ttf ttf_size = Ok (handle, g') -> cache_extends g g'.
Proof.
  unfold nk_cairo_ttf. intros H.
  apply bind_Ok in H as ([face g1] & Hface & Hfont).
  destruct (ttf_face_keeps _ _ _ _ _ Hface) as (Hc1 & Hk1 & Hn1 & Hf1 & _).
  destruct (ttf_font_keeps _ _ _ _ _ Hfont) as (Hc2 & Hk2 & Hn2 & Hf2 & _).
  unfold cache_extends. rewrite Hn2, Hf2. rewrite Hn1, Hf1 in *.
  split; [lia|]. split; [lia|]. auto.
Qed.

Lemma ttf_calls_extends (requests : list (memory * Z * Z)) :
  forall g g', ttf_calls g requests = Ok g' -> cache_extends g g'.
Proof.
  induction requests as [|[[mem p] s] rest IH]; intros g g' H.
  - injection H as <-. apply cache_extends_refl.
  - cbn [ttf_calls] in H. apply bind_Ok in H as ([h gm] & Hstep & H).
    apply (cache_extends_trans _ gm); [exact (nk_cairo_ttf_extends _ _ _ _ _ _ Hstep)|].
    apply IH. exact H.
Qed.

(** A request made again finds what the first one left, whatever other
    requests came between, as long as the paths the table pointed at
    after the first one still read the same. *)
Lemma ttf_again_in_extension (mem mem' : memory) (g g1 g2 : globals) (ttf ttf' : Z)
    (ttf_size handle : Z) :
  nk_cairo_ttf mem g ttf ttf_size = Ok (handle, g1) ->
  cache_extends g1 g2 ->
  mem' ttf' = mem ttf ->
  buffers_kept mem mem' g1 ->
  nk_cairo_ttf mem' g2 ttf' ttf_size = Ok (handle, g2).
Proof.
  unfold nk_cairo_ttf. intros H (Ha & Hb & Hc & Hd) Httf Hkept.
  apply bind_Ok in H as ([face ga] & Hface & Hfont).
  destruct (ttf_face_leaves _ _ _ _ _ Hface) as [Hloop Hpos].
  destruct (ttf_font_leaves _ _ _ _ _ Hfont) as (Hloop2 & Hpos2).
  destruct (ttf_font_keeps _ _ _ _ _ Hfont) as (_ & _ & Hcount & Hfaces & _).
  rewrite <- Hfaces, <- Hcount in Hloop.
  assert (H1 : ttf_face mem' g2 ttf' = Ok (face, g2)).
  { apply ttf_face_found; [|lia].
    apply (face_loop_later mem mem' (nk_cairo_faces g1) _ ttf ttf'
             (Z.to_nat (nk_cairo_face g1))); [exact Hloop | lia | lia | exact Httf | |].
    - intros j Hj. apply Hc. lia.
    - intros j e Hj He. apply (Hkept j e); [lia | exact He]. }
  rewrite H1. cbn [mbind outcome_bind].
  apply ttf_font_found; [|lia].
  apply (font_loop_more (nk_cairo_fonts g1) _ _ _ (Z.to_nat (nk_cairo_font g1)));
    [lia | exact Hloop2 | lia | lia |].
  intros j Hj. apply Hd. lia.
Qed.

(** C1, as amended.  [nk_cairo_ttf] is idempotent as long as the caller
    leaves the paths alone that the face table points at.  When a
    request for the path behind [ttf] and a size has returned a handle,
    and the same path (behind the same or another pointer) and size are
    requested again while every path the table points at still reads as
    it did, the second call returns the same handle and leaves every
    global as it was: both counters, both tables (no second face entry,
    no second sized font) and the list of files handed to [FT_New_Face]
    (no font file is loaded). *)
Theorem nk_cairo_ttf_idempotent (mem mem' : memory) (g g' : globals) (ttf ttf' : Z)
    (ttf_size handle : Z) :
  nk_cairo_ttf mem g ttf ttf_size = Ok (handle, g') ->
  mem' ttf' = mem ttf ->
  buffers_kept mem mem' g' ->
  nk_cairo_ttf mem' g' ttf' ttf_size = Ok (handle, g').
Proof.
  intros H Httf Hkept.
  exact (ttf_again_in_extension _ _ _ _ _ _ _ _ _ H (cache_extends_refl g') Httf Hkept).
Qed.

(** *** The tables stay within their capacity *)

Lemma ttf_face_keeps_ok (mem : memory) (g g1 : globals) (ttf : Z) (face : Z) :
  ttf_face mem g ttf = Ok (face, g1) -> cache_ok g ->
  cache_ok g1 /\ 0 <= face < nk_cairo_face g1.
Proof.
  intros H Hok.
  destruct (ttf_face_leaves _ _ _ _ _ H) as [_ Hface]. split; [|exact Hface].
  pose proof Hok as (Hfc & Hfont & Hlfaces & Hlfonts & Hnamed & Hrefs & Hscratch).
  destruct (ttf_face_cases _ _ _ _ _ H)
    as [(-> & _) | (_ & _ & Hc & Hlen & path & ft & _ & _ & ->)]; [exact Hok|].
  unfold cache_ok. simpl.
  split; [lia|]. split; [exact Hfont|]. split; [rewrite length_insert; exact Hlfaces|].
  split; [exact Hlfonts|]. split; [|split; [|exact Hscratch]].
  - intros i e Hi He.
    destruct (decide (i = nk_cairo_face g)) as [-> | Hic].
    + rewrite list_lookup_insert_eq in He by exact Hlen. injection He as <-. discriminate.
    + rewrite list_lookup_insert_ne in He by lia. apply (Hnamed i e); [lia | exact He].
  - intros i e Hi He. specialize (Hrefs i e Hi He). lia.
Qed.

Lemma ttf_font_keeps_ok (g g2 : globals) (face size font : Z) :
  ttf_font g face size = Ok (font, g2) -> cache_ok g -> 0 <= face < nk_cairo_face g ->
  cache_ok g2 /\ 0 <= font < nk_cairo_font g2.
Proof.
  intros H Hok Hf.
  destruct (ttf_font_leaves _ _ _ _ _ H) as [_ Hfont']. split; [|exact Hfont'].
  pose proof Hok as (Hfc & Hfont & Hlfaces & Hlfonts & Hnamed & Hrefs & Hscratch).
  destruct (ttf_font_cases _ _ _ _ _ H)
    as [(-> & _) | (_ & _ & Hc & Hlen & scratch & fe & _ & ->)]; [exact Hok|].
  unfold cache_ok. simpl.
  split; [exact Hfc|]. split; [lia|]. split; [exact Hlfaces|].
  split; [rewrite length_insert; exact Hlfonts|].
  split; [exact Hnamed|]. split; [|discriminate].
  intros i e Hi He.
  destruct (decide (i = nk_cairo_font g)) as [-> | Hic].
  - rewrite list_lookup_insert_eq in He by exact Hlen. injection He as <-. simpl. lia.
  - rewrite list_lookup_insert_ne in He by lia. apply (Hrefs i e); [lia | exact He].
Qed.

Lemma nk_cairo_ttf_keeps_ok (mem : memory) (g g' : globals) (ttf size handle : Z) :
  nk_cairo_ttf mem g ttf size = Ok (handle, g') -> cache_ok g ->
  cache_ok g' /\ 0 <= handle < nk_cairo_font g'.
Proof.
  unfold nk_cairo_ttf. intros H Hok.
  apply bind_Ok in H as ([face g1] & Hface & Hfont).
  destruct (ttf_face_keeps_ok _ _ _ _ _ Hface Hok) as [Hok1 Hf].
  exact (ttf_font_keeps_ok _ _ _ _ _ Hfont Hok1 Hf).
Qed.

Lemma ttf_calls_keep_ok (requests : list (memory * Z * Z)) :
  forall g g', ttf_calls g requests = Ok g' -> cache_ok g -> cache_ok g'.
Proof.
  induction requests as [|[[mem p] s] rest IH]; intros g g' H Hok.
  - injection H as <-. exact Hok.
  - cbn [ttf_calls] in H. apply bind_Ok in H as ([h gm] & Hstep & H).
    apply (IH gm g' H). exact (proj1 (nk_cairo_ttf_keeps_ok _ _ _ _ _ _ Hstep Hok)).
Qed.

(** With every path readable, the only way not to return is a failed
    assertion. *)
Lemma ttf_face_returns (mem : memory) (g : globals) (ttf : Z) :
  cache_ok g -> paths_readable mem g -> is_Some (mem ttf) ->
  (exists face g1, ttf_face mem g ttf = Ok (face, g1))
  \/ ttf_face mem g ttf = AssertFailed.
Proof.
  intros Hok Hread Httf.
  pose proof Hok as (Hface & Hfont & Hlfaces & Hlfonts & Hnamed & Hrefs & Hscratch).
  unfold MAXFONTS in Hface, Hfont, Hlfaces, Hlfonts.
  destruct (face_loop_total mem (nk_cairo_faces g) ttf (nk_cairo_face g)
              (Z.to_nat (nk_cairo_face g))) with (i := 0) as [r Hloop];
    [lia | exact Httf | exact Hread | lia | lia |].
  unfold ttf_face. rewrite Hloop. simpl.
  destruct (r <? 0) eqn:Hneg; [|left; eauto].
  unfold MAXFONTS.
  destruct (nk_cairo_face g <? 16) eqn:Hcap; simpl; [|right; reflexivity].
  apply Z.ltb_lt in Hcap.
  set (c := nk_cairo_face g) in *.
  destruct (awrite_in_range (nk_cairo_faces g) c
              (fun e => {| fc_ttf := Some ttf; fc_ft := fc_ft e; fc_ca := fc_ca e |}))
    as (e0 & He0 & ->); [lia|]. simpl.
  destruct Httf as [path Hpath]. unfold read_str. rewrite Hpath. simpl.
  destruct (FT_New_Face path) as [ft|]; [|right; reflexivity].
  pose proof (lookup_lt_Some _ _ _ He0) as Hlt.
  match goal with |- context [awrite ?a c ?f] =>
    destruct (awrite_in_range a c f) as (e1 & He1 & ->); [rewrite length_insert; lia|]
  end. simpl.
  match goal with |- context [awrite ?a c ?f] =>
    destruct (awrite_in_range a c f) as (e2 & He2 & ->); [rewrite !length_insert; lia|]
  end. simpl.
  left. eauto.
Qed.

Lemma ttf_font_returns (g : globals) (face size : Z) :
  cache_ok g -> 0 <= face < nk_cairo_face g ->
  (exists font g2, ttf_font g face size = Ok (font, g2))
  \/ ttf_font g face size = AssertFailed.
Proof.
  intros Hok Hf.
  pose proof Hok as (Hface & Hfont & Hlfaces & Hlfonts & Hnamed & Hrefs & Hscratch).
  unfold MAXFONTS in Hface, Hfont, Hlfaces, Hlfonts.
  destruct (font_loop_total (nk_cairo_fonts g) face size (nk_cairo_font g)
              (Z.to_nat (nk_cairo_font g))) with (i := 0) as [r Hloop]; [lia | lia | lia |].
  unfold ttf_font. rewrite Hloop. simpl.
  destruct (r <? 0) eqn:Hneg; [|left; eauto].
  unfold MAXFONTS.
  destruct (nk_cairo_font g <? 16) eqn:Hcap; simpl; [|right; reflexivity].
  apply Z.ltb_lt in Hcap.
  destruct (nk_cairo g) as [scratch|] eqn:Hs; [|congruence].
  destruct (aread_in_range (nk_cairo_faces g) face) as [fe Hfe]; [lia|].
  rewrite Hfe. simpl.
  set (c := nk_cairo_font g) in *.
  match goal with |- context [awrite ?a c ?f] =>
    destruct (awrite_in_range a c f) as (e0 & He0 & ->); [lia|]
  end. simpl.
  left. eauto.
Qed.

Lemma nk_cairo_ttf_returns (mem : memory) (g : globals) (ttf size : Z) :
  cache_ok g -> paths_readable mem g -> is_Some (mem ttf) ->
  (exists font g', nk_cairo_ttf mem g ttf size = Ok (font, g'))
  \/ nk_cairo_ttf mem g ttf size = AssertFailed.
Proof.
  intros Hok Hread Httf. unfold nk_cairo_ttf.
  destruct (ttf_face_returns mem g ttf Hok Hread Httf) as [(face & g1 & Hface) | ->];
    [|right; reflexivity].
  rewrite Hface. simpl.
  destruct (ttf_face_keeps_ok _ _ _ _ _ Hface Hok) as [Hok1 Hf].
  apply ttf_font_returns; assumption.
Qed.

(** The table points only at what was requested. *)
Lemma nk_cairo_ttf_pointers (mem : memory) (g g' : globals) (ttf size handle : Z)
    (seen : list Z) :
  nk_cairo_ttf mem g ttf size = Ok (handle, g') ->
  pointers_in seen g -> pointers_in (ttf :: seen) g'.
Proof.
  unfold nk_cairo_ttf. intros H Hin.
  apply bind_Ok in H as ([face g1] & Hface & Hfont).
  destruct (ttf_font_keeps _ _ _ _ _ Hfont) as (_ & _ & Hcount & Hfaces & _).
  unfold pointers_in. rewrite Hcount, Hfaces.
  destruct (ttf_face_cases _ _ _ _ _ Hface)
    as [(-> & _) | (_ & _ & Hc & Hlen & path & ft & _ & _ & ->)].
  - intros i e Hi He. destruct (Hin i e Hi He) as (q & Hq & Hs).
    exists q. split; [exact Hq|]. apply elem_of_cons. right. exact Hs.
  - simpl. intros i e Hi He.
    destruct (decide (i = nk_cairo_face g)) as [-> | Hic].
    + rewrite list_lookup_insert_eq in He by exact Hlen. injection He as <-.
      exists ttf. split; [reflexivity|]. apply elem_of_cons. left. reflexivity.
    + rewrite list_lookup_insert_ne in He by lia.
      destruct (Hin i e ltac:(lia) He) as (q & Hq & Hs).
      exists q. split; [exact Hq|]. apply elem_of_cons. right. exact Hs.
Qed.

Lemma live_readable (mem : memory) (g : globals) (seen : list Z) :
  pointers_in seen g ->
  forallb (fun p => match mem p with Some _ => true | None => false end) seen = true ->
  paths_readable mem g.
Proof.
  intros Hin Hall i e Hi He. destruct (Hin i e Hi He) as (q & Hq & Hs).
  unfold stored_path. rewrite Hq.
  rewrite forallb_forall in Hall. specialize (Hall q).
  destruct (mem q); [eauto|].
  exfalso. assert (false = true); [|discriminate]. apply Hall.
  apply list_elem_of_In. exact Hs.
Qed.

Lemma ttf_calls_return (requests : list (memory * Z * Z)) :
  forall g seen, cache_ok g -> pointers_in seen g -> live_from seen requests = true ->
    (exists g', ttf_calls g requests = Ok g')
    \/ ttf_calls g requests = AssertFailed.
Proof.
  induction requests as [|[[mem ttf] size] rest IH]; intros g seen Hok Hin Hlive.
  - left. exists g. reflexivity.
  - cbn [ttf_calls]. cbn [live_from] in Hlive.
    apply andb_true_iff in Hlive as [Hnow Hlater].
    pose proof Hnow as Hnow'. cbn [forallb] in Hnow'.
    apply andb_true_iff in Hnow' as [Httf Hseen].
    destruct (nk_cairo_ttf_returns mem g ttf size Hok) as [(font & g' & Hrun) | ->];
      [exact (live_readable _ _ _ Hin Hseen) | destruct (mem ttf); [eauto | discriminate]
       | | right; reflexivity].
    rewrite Hrun. simpl.
    apply (IH g' (ttf :: seen)); [| | exact Hlater].
    + exact (proj1 (nk_cairo_ttf_keeps_ok _ _ _ _ _ _ Hrun Hok)).
    + exact (nk_cairo_ttf_pointers _ _ _ _ _ _ _ Hrun Hin).
Qed.

Lemma nk_cairo_init_ok (g0 : globals) :
  nk_cairo_init static_globals = Ok g0 -> cache_ok g0.
Proof.
  unfold nk_cairo_init. intros H. apply bind_Ok in H as (u & _ & H).
  injection H as <-. unfold cache_ok, MAXFONTS. simpl.
  repeat split; try lia; try discriminate.
Qed.

Lemma nk_cairo_init_empty (g0 : globals) :
  nk_cairo_init static_globals = Ok g0 -> nk_cairo_face g0 = 0 /\ ft_loaded g0 = [].
Proof.
  unfold nk_cairo_init. intros H. apply bind_Ok in H as (u & _ & H).
  injection H as <-. split; reflexivity.
Qed.

(** C7.  Starting from the state [nk_cairo_init] leaves, a run of
    [nk_cairo_ttf] calls that returns has both counters at most
    [MAXFONTS] and both tables still [MAXFONTS] long; and a run in which
    every path can be read when it is used either returns so or ends in
    a failed assertion: no run reaches a store outside a table (outcome
    [Undefined]). *)
Theorem font_tables_within_capacity (g0 : globals) (requests : list (memory * Z * Z)) :
  nk_cairo_init static_globals = Ok g0 ->
  (forall g, ttf_calls g0 requests = Ok g ->
     nk_cairo_face g <= MAXFONTS /\ nk_cairo_font g <= MAXFONTS
     /\ Z.of_nat (length (nk_cairo_faces g)) = MAXFONTS
     /\ Z.of_nat (length (nk_cairo_fonts g)) = MAXFONTS)
  /\ (buffers_live requests ->
      (exists g, ttf_calls g0 requests = Ok g
         /\ nk_cairo_face g <= MAXFONTS /\ nk_cairo_font g <= MAXFONTS
         /\ Z.of_nat (length (nk_cairo_faces g)) = MAXFONTS
         /\ Z.of_nat (length (nk_cairo_fonts g)) = MAXFONTS)
      \/ ttf_calls g0 requests = AssertFailed).
Proof.
  intros Hinit. pose proof (nk_cairo_init_ok _ Hinit) as Hok.
  assert (Hbounds : forall g, ttf_calls g0 requests = Ok g ->
            nk_cairo_face g <= MAXFONTS /\ nk_cairo_font g <= MAXFONTS
            /\ Z.of_nat (length (nk_cairo_faces g)) = MAXFONTS
            /\ Z.of_nat (length (nk_cairo_fonts g)) = MAXFONTS).
  { intros g Hrun.
    destruct (ttf_calls_keep_ok _ _ _ Hrun Hok) as (Hface & Hfont & Hlfaces & Hlfonts & _).
    unfold MAXFONTS in *. lia. }
  split; [exact Hbounds|]. intros Hlive.
  destruct (ttf_calls_return requests g0 [] Hok) as [[g Hrun] | Hrun];
    [| exact Hlive | left; exists g; split; [exact Hrun | exact (Hbounds g Hrun)]
     | right; exact Hrun].
  intros i e Hi. destruct (nk_cairo_init_empty _ Hinit) as [Hzero _]. lia.
Qed.

(** *** Reading a table that is given *)

Lemma in_use_elem (g : globals) (i : Z) (e : nk_cairo_face_t) :
  0 <= i < nk_cairo_face g -> nk_cairo_faces g !! Z.to_nat i = Some e ->
  e ∈ take (Z.to_nat (nk_cairo_face g)) (nk_cairo_faces g).
Proof.
  intros Hi He. apply elem_of_take. exists (Z.to_nat i). split; [exact He | lia].
Qed.

Lemma fmap_agree {A B} (f h : A -> B) (l : list A) (x : A) :
  f <$> l = h <$> l -> x ∈ l -> f x = h x.
Proof.
  induction l as [|a l IH]; intros Heq Hin; [apply elem_of_nil in Hin; contradiction|].
  rewrite !fmap_cons in Heq. injection Heq as H1 H2.
  apply elem_of_cons in Hin as [-> | Hin]; auto.
Qed.

Lemma buffers_kept_by_paths (mem mem' : memory) (g : globals) :
  stored_path mem' <$> take (Z.to_nat (nk_cairo_face g)) (nk_cairo_faces g)
  = stored_path mem <$> take (Z.to_nat (nk_cairo_face g)) (nk_cairo_faces g) ->
  buffers_kept mem mem' g.
Proof.
  intros Hp i e Hi He. exact (fmap_agree _ _ _ e Hp (in_use_elem g i e Hi He)).
Qed.

Lemma unknown_by_paths (mem : memory) (g : globals) (path : string) (paths : list string) :
  stored_path mem <$> take (Z.to_nat (nk_cairo_face g)) (nk_cairo_faces g)
  = Some <$> paths ->
  path ∉ paths -> unknown_path mem g path.
Proof.
  intros Hp Hnot i e Hi He.
  pose proof (list_elem_of_fmap_2 (stored_path mem) _ e (in_use_elem g i e Hi He)) as Hin.
  rewrite Hp in Hin. apply list_elem_of_fmap_1 in Hin as (s & Hs & Hsin).
  exists s. split; [exact Hs|]. intros ->. contradiction.
Qed.

Lemma readable_by_paths (mem : memory) (g : globals) (paths : list string) :
  stored_path mem <$> take (Z.to_nat (nk_cairo_face g)) (nk_cairo_faces g)
  = Some <$> paths ->
  paths_readable mem g.
Proof.
  intros Hp i e Hi He.
  pose proof (list_elem_of_fmap_2 (stored_path mem) _ e (in_use_elem g i e Hi He)) as Hin.
  rewrite Hp in Hin. apply list_elem_of_fmap_1 in Hin as (s & Hs & Hsin). eauto.
Qed.

End FontCacheFacts.
(** ** Drawing commands *)

Section Drawing.
Context {F : CFloat} {L : FontLib F}.

(** *** Rectangles *)

(** The calls of a rectangle command read as a path, in any arithmetic;
    the angles are the code's [k * degrees]. *)
Lemma rect_paths (g : globals) (fr : frame)
    (rounding line_thickness x y w h : Z) (color : nk_color) :
  let angle := fun k => dmul (i2d k) degrees in
  (rounding = 0 ->
     drawn g fr (NK_COMMAND_RECT rounding line_thickness x y w h color)
       = Ok [Stroked (rectangle_outline x y w h)]
     /\ drawn g fr (NK_COMMAND_RECT_FILLED rounding x y w h color)
       = Ok [Filled (rectangle_outline x y w h)])
  /\ (0 < rounding ->
     drawn g fr (NK_COMMAND_RECT rounding line_thickness x y w h color)
       = Ok [Stroked (rounded_outline angle x y w h rounding)]
     /\ drawn g fr (NK_COMMAND_RECT_FILLED rounding x y w h color)
       = Ok [Filled (rounded_outline angle x y w h rounding)]).
Proof.
  intros angle. unfold drawn. split.
  - intros ->. split; simpl; f_equal; since_calls; reflexivity.
  - intros Hr. split; simpl; f_equal;
      unfold nk_cairo_stroke_rect, nk_cairo_fill_rect;
      (destruct (rounding =? 0) eqn:E; [lia|]); since_calls; reflexivity.
Qed.

(** *** Circles *)

Lemma min_by_test (w h : Z) : (if w <? h then w else h) = Z.min w h.
Proof. destruct (w <? h) eqn:E; lia. Qed.

(** C6, as amended.  A circle command, stroked or filled, with bounding
    box [(x, y, w, h)] draws the full circle of radius
    [r = min(w, h) / 2], the integer quotient (half the smaller side,
    rounded down), about the centre [(x + r, y + r)]: the circle touches
    the top and left sides of the box, and is centred in the box when
    [w = h] is even. *)
Theorem circle_command_geometry (g : globals) (fr : frame)
    (x y line_thickness w h : Z) (color : nk_color) :
  let r := Z.quot (Z.min w h) 2 in
  drawn g fr (NK_COMMAND_CIRCLE x y line_thickness w h color)
    = Ok [Stroked (circle_outline (i2d (x + r)) (i2d (y + r)) (i2d r))]
  /\ drawn g fr (NK_COMMAND_CIRCLE_FILLED x y w h color)
    = Ok [Filled (circle_outline (i2d (x + r)) (i2d (y + r)) (i2d r))]
  /\ (0 <= w -> 0 <= h -> 2 * r <= Z.min w h <= 2 * r + 1)
  /\ (w = h -> Z.even w = true -> 0 <= w ->
      2 * (x + r) = 2 * x + w /\ 2 * (y + r) = 2 * y + h).
Proof.
  intros r. unfold drawn. simpl. rewrite !min_by_test. fold r.
  split; [f_equal; since_calls; reflexivity|].
  split; [f_equal; since_calls; reflexivity|].
  assert (Hq : 0 <= Z.min w h -> Z.min w h = 2 * r + Z.rem (Z.min w h) 2
                                 /\ 0 <= Z.rem (Z.min w h) 2 < 2).
  { intros Hm. split; [apply Z.quot_rem'|]. apply Z.rem_bound_pos; lia. }
  split.
  - intros Hw Hh. destruct Hq as [Hq1 Hq2]; [lia|]. lia.
  - intros -> Hev Hh. rewrite Z.min_id in *.
    destruct Hq as [Hq1 Hq2]; [lia|].
    assert (Z.rem h 2 = 0).
    { rewrite Z.rem_mod_nonneg by lia. apply Z.even_spec in Hev.
      destruct Hev as [k ->]. rewrite Z.mul_comm. apply Z.mod_mul. lia. }
    lia.
Qed.

(** *** Point sequences *)

Lemma emit_emit_all (cr : cairo_t) (c : cairo_call) (l : list cairo_call) :
  emit_all (emit cr c) l = emit_all cr (c :: l).
Proof. unfold emit_all, emit. simpl. rewrite <- app_assoc. reflexivity. Qed.

Lemma emit_all_nil (cr : cairo_t) : emit_all cr [] = cr.
Proof. destruct cr. unfold emit_all. simpl. rewrite app_nil_r. reflexivity. Qed.

Lemma line_to_points_run (pnts : list nk_vec2i) (n : nat) :
  forall (i : Z) (cr : cairo_t),
    0 <= i -> i + Z.of_nat n <= Z.of_nat (length pnts) ->
    line_to_points cr pnts i n
    = Ok (emit_all cr (line_to_call <$> take n (drop (Z.to_nat i) pnts))).
Proof.
  induction n as [|n IH]; intros i cr Hi Hn.
  - simpl. rewrite emit_all_nil. reflexivity.
  - cbn [line_to_points].
    destruct (aread_in_range pnts i) as [p Hp]; [lia|].
    rewrite Hp. simpl. apply aread_Ok in Hp as [_ Hp].
    rewrite IH by lia. f_equal.
    unfold cairo_line_to. rewrite emit_emit_all. f_equal.
    rewrite (drop_S _ _ _ Hp). simpl.
    replace (Z.to_nat (i + 1)) with (S (Z.to_nat i)) by lia. reflexivity.
Qed.

Lemma shapes_from_line_to (ps : list nk_vec2i) :
  forall (p : path_t) (a : point) (rest : list cairo_call),
    p_current p = Some a ->
    shapes_from p ((line_to_call <$> ps) ++ rest)
    = shapes_from {| p_segments := p_segments p ++ chain a (vertex <$> ps);
                     p_start := p_start p;
                     p_current := Some (chain_end a (vertex <$> ps)) |} rest.
Proof.
  induction ps as [|q ps IH]; intros p a rest Hcur.
  - simpl. rewrite app_nil_r. destruct p; simpl in *; subst; reflexivity.
  - cbn [fmap list_fmap app shapes_from line_to_call path_step]. rewrite Hcur.
    cbn [app]. rewrite (IH _ (vertex q)) by reflexivity.
    cbn [p_segments p_start chain chain_end]. rewrite <- app_assoc. reflexivity.
Qed.

Lemma line_to_rest (cr : cairo_t) (p0 : nk_vec2i) (rest : list nk_vec2i) :
  line_to_points cr (p0 :: rest) 1 (Z.to_nat (Z.of_nat (length (p0 :: rest)) - 1))
  = Ok (emit_all cr (line_to_call <$> rest)).
Proof.
  rewrite line_to_points_run by (simpl length; lia).
  replace (Z.to_nat (Z.of_nat (length (p0 :: rest)) - 1)) with (length rest)
    by (simpl length; lia).
  change (Z.to_nat 1) with 1%nat. cbn [drop]. rewrite drop_0, firstn_all. reflexivity.
Qed.

Lemma polyline_path (g : globals) (fr : frame) (color : nk_color) (line_thickness : Z)
    (p0 : nk_vec2i) (rest : list nk_vec2i) :
  drawn g fr (NK_COMMAND_POLYLINE color line_thickness
                (Z.of_nat (length (p0 :: rest))) (p0 :: rest))
  = Ok [Stroked (open_polyline (p0 :: rest)
                 ++ [CloseLine (chain_end (vertex p0) (vertex <$> rest)) (vertex p0)])].
Proof.
  unfold drawn. cbn [render_command]. unfold nk_cairo_stroke_polyline.
  change (aread (p0 :: rest) 0) with (Ok p0). cbn [mbind outcome_bind].
  rewrite line_to_rest. cbn [mbind outcome_bind]. f_equal.
  since_calls. unfold shapes. cbn [shapes_from path_step app p_segments p_current p_start empty_path].
  fold (line_to_call <$> rest).
  rewrite (shapes_from_line_to rest _ (vertex p0)) by reflexivity.
  reflexivity.
Qed.

Lemma polygon_path (g : globals) (fr : frame) (color : nk_color) (line_thickness : Z)
    (p0 : nk_vec2i) (rest : list nk_vec2i) :
  let n := Z.of_nat (length (p0 :: rest)) in
  let closing := [Line (chain_end (vertex p0) (vertex <$> rest)) (vertex p0);
                  CloseLine (vertex p0) (vertex p0)] in
  drawn g fr (NK_COMMAND_POLYGON color line_thickness n (p0 :: rest))
    = Ok [Stroked (open_polyline (p0 :: rest) ++ closing)]
  /\ drawn g fr (NK_COMMAND_POLYGON_FILLED color n (p0 :: rest))
    = Ok [Filled (open_polyline (p0 :: rest) ++ closing)].
Proof.
  intros n closing. unfold drawn, n. cbn [render_command].
  unfold nk_cairo_stroke_polygon, nk_cairo_fill_polygon.
  change (aread (p0 :: rest) 0) with (Ok p0). cbn [mbind outcome_bind].
  rewrite !line_to_rest. cbn [mbind outcome_bind].
  split; f_equal; since_calls; unfold shapes;
    cbn [shapes_from path_step app p_segments p_current p_start empty_path];
    fold (line_to_call <$> rest);
    rewrite (shapes_from_line_to rest _ (vertex p0)) by reflexivity;
    cbn [shapes_from path_step app p_segments p_current p_start];
    rewrite <- app_assoc; reflexivity.
Qed.

Lemma triangle_path (g : globals) (fr : frame) (line_thickness : Z) (a b c : nk_vec2i)
    (color : nk_color) :
  let outline := [Line (vertex a) (vertex b); Line (vertex b) (vertex c);
                  Line (vertex c) (vertex a); CloseLine (vertex a) (vertex a)] in
  drawn g fr (NK_COMMAND_TRIANGLE line_thickness a b c color) = Ok [Stroked outline]
  /\ drawn g fr (NK_COMMAND_TRIANGLE_FILLED a b c color) = Ok [Filled outline].
Proof.
  intros outline. unfold drawn. simpl. split; f_equal; since_calls; reflexivity.
Qed.

(** *** Diagnostics *)

Lemma render_command_stderr (g : globals) (fr fr' : frame) (cmd : nk_command) :
  render_command g fr cmd = Ok fr' ->
  fr_stderr fr' = fr_stderr fr ++ diagnostic cmd.
Proof.
  destruct cmd; cbn [render_command diagnostic]; intros H;
    try (injection H as <-; cbn [fr_stderr draw fprintf_stderr];
         rewrite ?app_nil_r; reflexivity);
    apply bind_Ok in H as (cr & _ & [= <-]); cbn [fr_stderr draw];
    rewrite app_nil_r; reflexivity.
Qed.

(** C4, as amended.  A command adds to [stderr] exactly its
    [diagnostic]: one line for a curve, a multi-colour rectangle, an arc
    and a filled arc, nothing for any other command.  The curve and the
    multi-colour rectangle make no drawing call, and the loop goes on
    with the commands after them. *)
Theorem diagnostics_by_command (g : globals) (fr : frame) (cmd : nk_command) :
  (forall fr', render_command g fr cmd = Ok fr' ->
     fr_stderr fr' = fr_stderr fr ++ diagnostic cmd)
  /\ (cmd = NK_COMMAND_CURVE \/ cmd = NK_COMMAND_RECT_MULTI_COLOR ->
      exists line,
        diagnostic cmd = [line]
        /\ render_command g fr cmd = Ok (fprintf_stderr fr line)
        /\ fr_cairo (fprintf_stderr fr line) = fr_cairo fr
        /\ forall rest,
             nk_foreach g fr (cmd :: rest) = nk_foreach g (fprintf_stderr fr line) rest).
Proof.
  split; [intros fr'; apply render_command_stderr|].
  intros [-> | ->]; eexists; (split; [reflexivity|]); repeat split.
Qed.

(** *** Every well-formed command list is rendered to the end *)

Lemma render_command_total (g : globals) (fr : frame) (cmd : nk_command) :
  renderable g cmd -> exists fr', render_command g fr cmd = Ok fr'.
Proof.
  destruct cmd; cbn [render_command renderable]; intros Hwf; eauto.
  - destruct points as [|p0 rest]; [tauto|]. destruct Hwf as [_ Hn].
    unfold nk_cairo_stroke_polygon.
    change (aread (p0 :: rest) 0) with (Ok p0). cbn [mbind outcome_bind].
    rewrite line_to_points_run by (simpl length in *; lia). simpl. eauto.
  - destruct points as [|p0 rest]; [tauto|]. destruct Hwf as [_ Hn].
    unfold nk_cairo_fill_polygon.
    change (aread (p0 :: rest) 0) with (Ok p0). cbn [mbind outcome_bind].
    rewrite line_to_points_run by (simpl length in *; lia). simpl. eauto.
  - destruct points as [|p0 rest]; [tauto|]. destruct Hwf as [_ Hn].
    unfold nk_cairo_stroke_polyline.
    change (aread (p0 :: rest) 0) with (Ok p0). cbn [mbind outcome_bind].
    rewrite line_to_points_run by (simpl length in *; lia). simpl. eauto.
  - destruct Hwf as (Hlen & f & cfont & face & Hf & Hcfont & Hface).
    unfold nk_cairo_draw_text. rewrite Hf. cbn [mbind outcome_bind].
    rewrite Hcfont. cbn [mbind outcome_bind]. rewrite Hface. cbn [mbind outcome_bind].
    simpl. rewrite (copy_span_ok _ _ Hlen). simpl. eauto.
Qed.

Lemma nk_foreach_total (g : globals) (cmds : list nk_command) :
  Forall (renderable g) cmds ->
  forall fr, exists fr', nk_foreach g fr cmds = Ok fr'.
Proof.
  induction 1 as [|cmd cmds Hcmd _ IH]; intros fr.
  - exists fr. reflexivity.
  - cbn [nk_foreach].
    destruct (render_command_total g fr cmd Hcmd) as [fr1 ->]. simpl. apply IH.
Qed.

End Drawing.

(** *** Rectangles in binary64 *)

Section RoundedRectangles.
Context {L : FontLib IEEE.ieee}.

(** The five angles the code computes, [k * (NK_PI / 180.0)] in binary64
    from the single-precision [NK_PI], are [k] degrees. *)
Lemma code_angles_are_degrees :
  forallb (fun k => is_degrees k (@dmul IEEE.ieee (@i2d IEEE.ieee k) (@degrees IEEE.ieee)))
          corner_angles = true.
Proof. vm_compute. reflexivity. Qed.

(** C5.  A rectangle command, stroked or filled, with rounding 0 draws
    exactly the axis-aligned rectangle [(x, y, w, h)]; with a positive
    rounding [r] it draws one closed path of four quarter circles of
    radius [r] (top right from -90 to 0 degrees, bottom right from 0 to
    90, bottom left from 90 to 180, top left from 180 to 270) joined by
    straight edges.  The angles are binary64 numbers; that they are the
    named degrees is checked on their exact values, to a millionth of a
    radian. *)
Theorem rect_command_path (g : @globals IEEE.ieee L) (fr : @frame IEEE.ieee L)
    (rounding line_thickness x y w h : Z) (color : nk_color) :
  (rounding = 0 ->
     drawn g fr (NK_COMMAND_RECT rounding line_thickness x y w h color)
       = Ok [Stroked (rectangle_outline x y w h)]
     /\ drawn g fr (NK_COMMAND_RECT_FILLED rounding x y w h color)
       = Ok [Filled (rectangle_outline x y w h)])
  /\ (0 < rounding ->
     exists angle : Z -> spec_float,
       forallb (fun k => is_degrees k (angle k)) corner_angles = true
       /\ drawn g fr (NK_COMMAND_RECT rounding line_thickness x y w h color)
          = Ok [Stroked (rounded_outline (F := IEEE.ieee) angle x y w h rounding)]
       /\ drawn g fr (NK_COMMAND_RECT_FILLED rounding x y w h color)
          = Ok [Filled (rounded_outline (F := IEEE.ieee) angle x y w h rounding)]).
Proof.
  destruct (rect_paths g fr rounding line_thickness x y w h color) as [Hsharp Hround].
  split; [exact Hsharp|]. intros Hr.
  exists (fun k => @dmul IEEE.ieee (@i2d IEEE.ieee k) (@degrees IEEE.ieee)).
  split; [exact code_angles_are_degrees|]. exact (Hround Hr).
Qed.

End RoundedRectangles.
(** ** The frame *)

Section Frames.
Context {F : CFloat} {L : FontLib F} {R : Raster F L}.

Lemma pixels_after_no_paint (calls : list cairo_call) :
  forall (history : list cairo_call) (fb : pixels),
    List.filter paints calls = [] ->
    pixels_after history calls fb = fb.
Proof.
  induction calls as [|c calls IH]; intros history fb Hnone; [reflexivity|].
  cbn [pixels_after]. simpl in Hnone.
  destruct (paints c) eqn:Hc; [discriminate|]. apply IH. exact Hnone.
Qed.

(** C8.  A render call on a list of well-formed commands runs the loop
    to its end, then flushes the surface, drops it, destroys the frame's
    drawing context and returns the toolkit context with its command
    list cleared; rendering that cleared context again makes no painting
    call and leaves every pixel of the target as it was. *)
Theorem nk_cairo_render_epilogue (g : globals) (stderr : list string) (ctx : nk_context)
    (fb w h pitch : Z) :
  Forall (renderable g) (ctx_commands ctx) ->
  exists fr_loop fr,
    nk_foreach g (first_frame stderr fb w h pitch) (ctx_commands ctx) = Ok fr_loop
    /\ nk_cairo_render g stderr ctx fb w h pitch = Ok (fr, nk_clear ctx)
    /\ cr_calls (fr_cairo fr)
       = cr_calls (fr_cairo fr_loop) ++ [SurfaceFlush; SurfaceDestroy; Destroy]
    /\ ctx_commands (nk_clear ctx) = []
    /\ exists fr2,
         nk_cairo_render g (fr_stderr fr) (nk_clear ctx) fb w h pitch
           = Ok (fr2, nk_clear ctx)
         /\ List.filter paints (cr_calls (fr_cairo fr2)) = []
         /\ forall px : pixels, pixels_after [] (cr_calls (fr_cairo fr2)) px = px.
Proof.
  intros Hwf.
  destruct (nk_foreach_total g _ Hwf (first_frame stderr fb w h pitch)) as [fr_loop Hloop].
  exists fr_loop. eexists. split; [exact Hloop|].
  unfold nk_cairo_render. fold (first_frame stderr fb w h pitch). rewrite Hloop.
  cbn [mbind outcome_bind]. split; [reflexivity|].
  split; [simpl; rewrite <- !app_assoc; reflexivity|].
  split; [reflexivity|].
  eexists. split; [reflexivity|].
  assert (Hnone : List.filter paints
            (cr_calls (fr_cairo
               (draw (first_frame (fr_stderr fr_loop) fb w h pitch)
                  (cairo_destroy (cairo_surface_destroy (cairo_surface_flush
                     (fr_cairo (first_frame (fr_stderr fr_loop) fb w h pitch)))))))) = [])
    by reflexivity.
  split; [exact Hnone|].
  intros px. apply pixels_after_no_paint. exact Hnone.
Qed.

End Frames.

(** ** Image blits *)

Section Image.
Context {F : CFloat} {L : FontLib F}.

(** The calls of a blit, and the transformation it leaves, in any
    arithmetic. *)
Lemma drawimage_calls (cr : cairo_t) (x y w h : Z) (img : nk_image) (col : nk_color) :
  let xs := ddiv (i2d w) (i2d (img_w img)) in
  let ys := ddiv (i2d h) (i2d (img_h img)) in
  let surface := {| surf_data := img_ptr img; surf_width := img_w img;
                    surf_height := img_h img; surf_stride := img_w img * 4 |} in
  let cr' := nk_cairo_drawimage cr x y w h img col in
  calls_since cr cr'
    = [GetMatrix; Scale xs ys; ImageSurfaceCreateForData surface;
       SetSourceSurface surface (ddiv (i2d x) xs) (ddiv (i2d y) ys);
       Paint; SurfaceDestroy; SetMatrix (cr_matrix cr)]
  /\ cr_matrix cr' = cr_matrix cr.
Proof.
  intros xs ys surface cr'. split; [|reflexivity].
  unfold calls_since, cr'. simpl. rewrite <- !app_assoc. simpl.
  rewrite drop_app_length. reflexivity.
Qed.

End Image.

Section ImageExact.
Context {F : CFloat} {L : FontLib F} {E : ExactArith F}.

Add Field double_field : d_field.

Lemma scaled_back (m : cairo_matrix_t) (x y sx sy : double) :
  sx <> i2d 0 -> sy <> i2d 0 ->
  cairo_matrix_transform_point
    (cairo_matrix_multiply (cairo_matrix_init_scale sx sy) m) (ddiv x sx) (ddiv y sy)
  = cairo_matrix_transform_point m x y.
Proof.
  intros Hsx Hsy. unfold cairo_matrix_transform_point, cairo_matrix_multiply,
    cairo_matrix_init_scale. simpl.
  f_equal; field; auto.
Qed.

Lemma ddiv_nonzero (a b : Z) : a <> 0 -> b <> 0 -> ddiv (i2d a) (i2d b) <> i2d 0.
Proof.
  intros Ha Hb H. apply (i2d_nonzero a Ha).
  assert (Hb' := i2d_nonzero b Hb).
  transitivity (dmul (ddiv (i2d a) (i2d b)) (i2d b)); [field; exact Hb'|].
  rewrite H. ring.
Qed.

(** Without rounding, non-zero sizes put the corner where it belongs. *)
Lemma drawimage_exact (cr : cairo_t) (x y w h : Z) (img : nk_image) (col : nk_color) :
  w <> 0 -> h <> 0 -> img_w img <> 0 -> img_h img <> 0 ->
  surface_origins (cr_matrix cr) (calls_since cr (nk_cairo_drawimage cr x y w h img col))
  = [cairo_matrix_transform_point (cr_matrix cr) (i2d x) (i2d y)].
Proof.
  intros Hw Hh Hiw Hih.
  rewrite (proj1 (drawimage_calls cr x y w h img col)).
  cbn [surface_origins]. f_equal.
  apply scaled_back; apply ddiv_nonzero; assumption.
Qed.

End ImageExact.

Section ImageBinary64.
Context {L : FontLib IEEE.ieee}.

(** Division by itself, division by 1 and multiplication by 1 of a
    normal binary64 number, from the definitions of the operations. *)
Lemma div_eucl_exact (a b : Z) : 0 < b -> Z.div_eucl (b * a) b = (a, 0).
Proof.
  intros Hb. pose proof (Z.div_eucl_eq (b * a) b ltac:(lia)) as H.
  pose proof (Z.mod_pos_bound (b * a) b Hb) as Hm.
  unfold Z.modulo in Hm.
  destruct (Z.div_eucl (b * a) b) as [q r].
  assert (r = 0 /\ q = a) as [-> ->]; [|reflexivity].
  assert (b * (a - q) = r) by lia.
  assert (a - q = 0) by nia. split; nia.
Qed.

Lemma digits_succ (p : positive) : Z.pos (PosDef.Pos.succ p) = Z.pos p + 1.
Proof. exact (Pos2Z.inj_succ p). Qed.

Lemma rounds_to_itself (s : bool) (m : positive) (e : Z) :
  Z.pos (digits2_pos m) = 53 -> -1000 <= e <= 900 ->
  (let '(mrs, e') := shr_fexp 53 1024 (Z.pos m) e loc_Exact in
   match shr_m mrs with
   | 0 => S754_zero s
   | Z.pos m' => if e' <=? 1024 - 53 then S754_finite s m' e' else S754_infinity s
   | Z.neg _ => S754_nan
   end) = S754_finite s m e.
Proof.
  intros Hd He. unfold shr_fexp, Zdigits2. rewrite Hd. unfold fexp, emin.
  replace (Z.max (53 + e - 53) (3 - 1024 - 53) - e) with 0 by lia.
  cbn [shr shr_record_of_loc shr_m].
  destruct (e <=? 1024 - 53) eqn:Hle; [reflexivity|]. apply Z.leb_gt in Hle. lia.
Qed.

Lemma ddiv_self (s : bool) (m : positive) (e : Z) :
  @ddiv IEEE.ieee (S754_finite s m e) (S754_finite s m e) = @i2d IEEE.ieee 1.
Proof.
  change (SFdiv 53 1024 (S754_finite s m e) (S754_finite s m e)
          = S754_finite false 4503599627370496 (-52)).
  unfold SFdiv, SFdiv_core_binary.
  replace (Zdigits2 (Z.pos m) + e - (Zdigits2 (Z.pos m) + e)) with 0 by lia.
  replace (e - e) with 0 by lia.
  change (Z.min (fexp 53 1024 0) 0) with (-53).
  change (0 - -53) with 53.
  cbv beta iota zeta.
  rewrite Z.shiftl_mul_pow2 by lia.
  rewrite (div_eucl_exact (2 ^ 53) (Z.pos m)) by lia.
  assert (Hloc : new_location (Z.pos m) 0 = loc_Exact).
  { unfold new_location. destruct (Z.even (Z.pos m)); reflexivity. }
  rewrite Hloc, xorb_nilpotent. vm_compute. reflexivity.
Qed.

Lemma ddiv_one (s : bool) (m : positive) (e : Z) :
  Z.pos (digits2_pos m) = 53 -> -1000 <= e <= 900 ->
  @ddiv IEEE.ieee (S754_finite s m e) (@i2d IEEE.ieee 1) = S754_finite s m e.
Proof.
  intros Hd He.
  change (SFdiv 53 1024 (S754_finite s m e) (S754_finite false 4503599627370496 (-52))
          = S754_finite s m e).
  assert (Hcore : SFdiv_core_binary 53 1024 (Z.pos m) e 4503599627370496 (-52)
                  = (Z.pos m~0, e - 1, loc_Exact)).
  { unfold SFdiv_core_binary.
    change (Zdigits2 (Z.pos 4503599627370496)) with 53.
    unfold Zdigits2. rewrite Hd. unfold fexp, emin.
    replace (Z.min (Z.max (53 + e - (53 + -52) - 53) (3 - 1024 - 53)) (e - -52))
      with (e - 1) by lia.
    replace (e - -52 - (e - 1)) with 53 by lia.
    cbv beta iota zeta.
    rewrite Z.shiftl_mul_pow2 by lia.
    replace (Z.pos m * 2 ^ 53) with (4503599627370496 * Z.pos m~0) by lia.
    rewrite div_eucl_exact by lia. reflexivity. }
  unfold SFdiv. rewrite Hcore, xorb_false_r.
  unfold binary_round_aux. unfold shr_fexp at 1.
  assert (Hd' : Zdigits2 (Z.pos m~0) = 54).
  { unfold Zdigits2. cbn [digits2_pos]. rewrite !digits_succ, Hd. reflexivity. }
  rewrite Hd'. unfold fexp at 1, emin.
  replace (Z.max (54 + (e - 1) - 53) (3 - 1024 - 53) - (e - 1)) with 1 by lia.
  cbn [shr shr_record_of_loc iter_pos shr_1 shr_m loc_of_shr_record round_nearest_even
       shr_r shr_s orb].
  replace (e - 1 + 1) with e by lia.
  apply rounds_to_itself; assumption.
Qed.

Lemma dmul_one (s : bool) (m : positive) (e : Z) :
  Z.pos (digits2_pos m) = 53 -> -1000 <= e <= 900 ->
  @dmul IEEE.ieee (@i2d IEEE.ieee 1) (S754_finite s m e) = S754_finite s m e.
Proof.
  intros Hd He.
  change (SFmul 53 1024 (S754_finite false 4503599627370496 (-52)) (S754_finite s m e)
          = S754_finite s m e).
  unfold SFmul. cbn [xorb]. cbv beta iota fix delta [PosDef.Pos.mul].
  unfold binary_round_aux. unfold shr_fexp at 1.
  match goal with |- context [Zdigits2 (Z.pos ?p)] =>
    assert (Hd' : Zdigits2 (Z.pos p) = 105)
  end.
  { unfold Zdigits2. cbn [digits2_pos]. rewrite !digits_succ, Hd. reflexivity. }
  rewrite Hd'. unfold fexp at 1, emin.
  replace (Z.max (105 + (-52 + e) - 53) (3 - 1024 - 53) - (-52 + e)) with 52 by lia.
  cbn [shr shr_record_of_loc iter_pos shr_1 shr_m loc_of_shr_record round_nearest_even
       shr_r shr_s orb].
  replace (-52 + e + 52) with e by lia.
  apply rounds_to_itself; assumption.
Qed.

(** The conversions of the 16-bit integers, all of them. *)
Lemma count_from_all (n : nat) :
  forall start v : Z, start <= v < start + Z.of_nat n -> In v (count_from start n).
Proof.
  induction n as [|n IH]; intros start v Hv; [lia|].
  cbn [count_from]. destruct (decide (v = start)) as [-> | Hne]; [left; reflexivity|].
  right. apply IH. lia.
Qed.

Lemma int16_converted :
  forallb (fun v => converted v (@i2d IEEE.ieee v)) int16_values = true.
Proof. vm_compute. reflexivity. Qed.

Lemma i2d_shape (v : Z) :
  -32768 <= v <= 65535 ->
  (v = 0 /\ @i2d IEEE.ieee v = S754_zero false)
  \/ exists s m e, @i2d IEEE.ieee v = S754_finite s m e
                   /\ Z.pos (digits2_pos m) = 53 /\ -1000 <= e <= 900.
Proof.
  intros Hv. pose proof int16_converted as Hall. rewrite forallb_forall in Hall.
  specialize (Hall v (count_from_all (Z.to_nat 98304) (-32768) v ltac:(lia))).
  cbv beta in Hall.
  destruct (@i2d IEEE.ieee v) as [s|s| |s m e]; try discriminate Hall.
  - left. unfold converted in Hall. apply andb_true_iff in Hall as [Hs H0].
    apply Z.eqb_eq in H0. destruct s; [discriminate Hs | auto].
  - right. exists s, m, e. unfold converted in Hall.
    apply andb_true_iff in Hall as [Hall H3]. apply andb_true_iff in Hall as [H1 H2].
    apply Z.eqb_eq in H1. apply Z.leb_le in H2, H3. auto.
Qed.

(** What a scale of 1 and the identity transformation do to a
    coordinate. *)
Lemma unscaled_ratio (w : Z) :
  0 < w <= 65535 -> @ddiv IEEE.ieee (@i2d IEEE.ieee w) (@i2d IEEE.ieee w) = @i2d IEEE.ieee 1.
Proof.
  intros Hw. destruct (i2d_shape w ltac:(lia)) as [[H0 _] | (s & m & e & -> & _)]; [lia|].
  apply ddiv_self.
Qed.

Lemma unscaled_matrix :
  cairo_matrix_multiply (cairo_matrix_init_scale (@i2d IEEE.ieee 1) (@i2d IEEE.ieee 1))
    identity_matrix
  = identity_matrix.
Proof. evaluate. reflexivity. Qed.

Lemma unscaled_point (x y : Z) :
  -32768 <= x <= 32767 -> -32768 <= y <= 32767 ->
  cairo_matrix_transform_point identity_matrix
    (@ddiv IEEE.ieee (@i2d IEEE.ieee x) (@i2d IEEE.ieee 1))
    (@ddiv IEEE.ieee (@i2d IEEE.ieee y) (@i2d IEEE.ieee 1))
  = (@i2d IEEE.ieee x, @i2d IEEE.ieee y).
Proof.
  intros Hx Hy.
  unfold cairo_matrix_transform_point, identity_matrix.
  cbn [m_xx m_xy m_yx m_yy m_x0 m_y0].
  destruct (i2d_shape x ltac:(lia)) as [[_ ->] | (sx & mx & ex & -> & Hdx & Hex)];
    destruct (i2d_shape y ltac:(lia)) as [[_ ->] | (sy & my & ey & -> & Hdy & Hey)];
    rewrite ?ddiv_one, ?dmul_one by assumption.
  - evaluate. reflexivity.
  - change (@ddiv IEEE.ieee (S754_zero false) (@i2d IEEE.ieee 1)) with (S754_zero false).
    change (@dmul IEEE.ieee (@i2d IEEE.ieee 1) (S754_zero false)) with (S754_zero false).
    change (@dmul IEEE.ieee (@i2d IEEE.ieee 0) (S754_zero false)) with (S754_zero false).
    change (@dmul IEEE.ieee (@i2d IEEE.ieee 0) (S754_finite sy my ey))
      with (S754_zero (xorb false sy)).
    destruct sy; reflexivity.
  - change (@ddiv IEEE.ieee (S754_zero false) (@i2d IEEE.ieee 1)) with (S754_zero false).
    change (@dmul IEEE.ieee (@i2d IEEE.ieee 1) (S754_zero false)) with (S754_zero false).
    change (@dmul IEEE.ieee (@i2d IEEE.ieee 0) (S754_zero false)) with (S754_zero false).
    change (@dmul IEEE.ieee (@i2d IEEE.ieee 0) (S754_finite sx mx ex))
      with (S754_zero (xorb false sx)).
    destruct sx; reflexivity.
  - change (@dmul IEEE.ieee (@i2d IEEE.ieee 0) (S754_finite sy my ey))
      with (S754_zero (xorb false sy)).
    change (@dmul IEEE.ieee (@i2d IEEE.ieee 0) (S754_finite sx mx ex))
      with (S754_zero (xorb false sx)).
    reflexivity.
Qed.


End ImageBinary64.
(** ** The font cache over a run of requests *)

Section CacheRuns.
Context {F : CFloat} {L : FontLib F}.

(** X1.  Font handles stay valid: whatever requests follow, the two
    counters only grow, and every face and every sized font that was in
    use keeps its place and its contents, so a handle returned earlier
    still leads to the same font. *)
Theorem nk_cairo_ttf_keeps_entries (g g' : globals) (requests : list (memory * Z * Z)) :
  ttf_calls g requests = Ok g' ->
  nk_cairo_face g <= nk_cairo_face g'
  /\ nk_cairo_font g <= nk_cairo_font g'
  /\ (forall i, 0 <= i < nk_cairo_face g ->
        aread (nk_cairo_faces g') i = aread (nk_cairo_faces g) i)
  /\ (forall handle, 0 <= handle < nk_cairo_font g ->
        deref_font g' (Some handle) = deref_font g (Some handle)).
Proof.
  intros H. destruct (ttf_calls_extends _ _ _ H) as (Ha & Hb & Hc & Hd).
  split; [exact Ha|]. split; [exact Hb|]. split.
  - intros i Hi. unfold aread. rewrite Hc by exact Hi. reflexivity.
  - intros h Hh. unfold deref_font, aread. rewrite Hd by exact Hh. reflexivity.
Qed.

(** X2.  A request repeated at any later time, after any number of other
    requests, returns the handle it returned the first time and changes
    nothing (no file is opened again and no table entry is written), as
    long as the paths the face table pointed at after the first request
    read at the later time as they did then.  The repeated request may
    pass the path through another pointer, and what the caller's memory
    held in between does not matter. *)
Theorem nk_cairo_ttf_same_request_later (mem mem' : memory) (g g1 g2 : globals)
    (ttf ttf' : Z) (ttf_size handle : Z) (requests : list (memory * Z * Z)) :
  nk_cairo_ttf mem g ttf ttf_size = Ok (handle, g1) ->
  ttf_calls g1 requests = Ok g2 ->
  mem' ttf' = mem ttf ->
  buffers_kept mem mem' g1 ->
  nk_cairo_ttf mem' g2 ttf' ttf_size = Ok (handle, g2).
Proof.
  intros H Hrun Httf Hkept.
  apply (ttf_again_in_extension _ _ _ _ _ _ _ _ _ H); [|exact Httf | exact Hkept].
  apply (ttf_calls_extends _ _ _ Hrun).
Qed.

(** X3.  Different requests get different handles, as long as the
    caller leaves the paths alone: when a request is made after any
    number of others, the paths the face table pointed at after an
    earlier request still read as they did then, and the two requests
    differ in the path or in the size, the two handles differ. *)
Theorem nk_cairo_ttf_handles_distinct (mem1 mem2 : memory) (g g1 g2 g3 : globals)
    (ttf1 ttf2 : Z) (size1 size2 handle1 handle2 : Z) (requests : list (memory * Z * Z)) :
  nk_cairo_ttf mem1 g ttf1 size1 = Ok (handle1, g1) ->
  ttf_calls g1 requests = Ok g2 ->
  nk_cairo_ttf mem2 g2 ttf2 size2 = Ok (handle2, g3) ->
  buffers_kept mem1 mem2 g1 ->
  mem1 ttf1 <> mem2 ttf2 \/ size1 <> size2 ->
  handle1 <> handle2.
Proof.
  intros H1 Hrun H2 Hkept Hdiff <-.
  destruct (ttf_handle_entry _ _ _ _ _ _ H1)
    as (Hh1 & c1 & e1 & p1 & Hc1 & Hs1 & Hf1 & He1 & Hm1 & Hp1).
  destruct (ttf_handle_entry _ _ _ _ _ _ H2)
    as (Hh2 & c2 & e2 & p2 & Hc2 & Hs2 & Hf2 & He2 & Hm2 & Hp2).
  assert (Hext : cache_extends g1 g3).
  { apply (cache_extends_trans _ g2); [exact (ttf_calls_extends _ _ _ Hrun)|].
    exact (nk_cairo_ttf_extends _ _ _ _ _ _ H2). }
  destruct Hext as (_ & _ & Hfaces & Hfonts).
  apply aread_Ok in Hc1 as [_ Hc1]. apply aread_Ok in Hc2 as [_ Hc2].
  rewrite Hfonts, Hc1 in Hc2 by lia. injection Hc2 as <-.
  apply aread_Ok in He1 as [_ He1]. apply aread_Ok in He2 as [_ He2].
  rewrite Hfaces, He1 in He2 by lia. injection He2 as <-.
  pose proof (Hkept (fn_face c1) e1 Hf1 He1) as Hsame.
  destruct Hdiff as [Hd | Hd]; apply Hd; congruence.
Qed.

(** *** The paths given to FreeType *)

Lemma face_paths_hit (mem : memory) (g : globals) (path : string) (r : Z)
    (e : nk_cairo_face_t) :
  0 <= r < nk_cairo_face g -> aread (nk_cairo_faces g) r = Ok e ->
  stored_path mem e = Some path ->
  path ∈ face_paths mem g.
Proof.
  intros Hr He Ht. apply aread_Ok in He as [_ He].
  unfold face_paths. apply list_elem_of_omap. exists e. split; [|exact Ht].
  apply elem_of_take. exists (Z.to_nat r). split; [exact He | lia].
Qed.

Lemma ttf_face_loads (mem : memory) (g g1 : globals) (ttf : Z) (face : Z) (path : string) :
  ttf_face mem g ttf = Ok (face, g1) -> mem ttf = Some path ->
  ft_loaded g = face_paths mem g -> NoDup (face_paths mem g) ->
  ft_loaded g1 = face_paths mem g1 /\ NoDup (face_paths mem g1)
  /\ (ft_loaded g1 = ft_loaded g \/ ft_loaded g1 = ft_loaded g ++ [path])
  /\ path ∈ face_paths mem g1.
Proof.
  intros H Hpath Hl Hnd.
  destruct (ttf_face_entry _ _ _ _ _ H) as (Hf & e & path' & He & Hpath' & Hst).
  assert (path' = path) as -> by congruence.
  pose proof (face_paths_hit mem g1 path face e Hf He Hst) as Hin.
  destruct (ttf_face_cases _ _ _ _ _ H)
    as [(-> & _) | (-> & Hloop & Hc & Hlen & path' & ft & Hp & Hft & ->)]; [auto|].
  assert (path' = path) as -> by congruence.
  assert (Hpaths : face_paths mem (with_new_face g ttf path ft) = face_paths mem g ++ [path]).
  { unfold face_paths. simpl.
    replace (Z.to_nat (nk_cairo_face g + 1)) with (S (Z.to_nat (nk_cairo_face g))) by lia.
    erewrite take_S_r by (apply list_lookup_insert_eq; exact Hlen).
    rewrite take_insert_ge by lia. rewrite omap_app. simpl.
    unfold stored_path at 2. simpl. rewrite Hpath. reflexivity. }
  rewrite Hpaths in *. simpl.
  split; [rewrite Hl; reflexivity|]. split; [|split; [right; reflexivity | exact Hin]].
  apply NoDup_app. split; [exact Hnd|]. split; [|apply NoDup_singleton].
  intros p Hp' Hp''. apply list_elem_of_singleton in Hp''. subst p.
  apply list_elem_of_omap in Hp' as (e' & He' & Ht').
  apply elem_of_take in He' as (j & Hj & Hlt).
  destruct (face_loop_miss _ _ _ _ 0 ltac:(lia) Hloop (Z.of_nat j) e')
    as (s & t & Hs & Ht & Hne); [lia | rewrite Nat2Z.id; exact Hj |].
  congruence.
Qed.

Lemma nk_cairo_ttf_loads (mem : memory) (g g' : globals) (ttf : Z) (size handle : Z)
    (path : string) :
  nk_cairo_ttf mem g ttf size = Ok (handle, g') -> mem ttf = Some path ->
  ft_loaded g = face_paths mem g -> NoDup (face_paths mem g) ->
  ft_loaded g' = face_paths mem g' /\ NoDup (face_paths mem g')
  /\ (ft_loaded g' = ft_loaded g \/ ft_loaded g' = ft_loaded g ++ [path])
  /\ path ∈ face_paths mem g'.
Proof.
  unfold nk_cairo_ttf. intros H Hpath Hl Hnd.
  apply bind_Ok in H as ([face g1] & Hface & Hfont).
  destruct (ttf_face_loads _ _ _ _ _ _ Hface Hpath Hl Hnd) as (Hl1 & Hnd1 & Hgrow & Hin).
  destruct (ttf_font_keeps _ _ _ _ _ Hfont) as (_ & _ & Hc & Hf & Hld & _).
  assert (Hp : face_paths mem g' = face_paths mem g1)
    by (unfold face_paths; rewrite Hc, Hf; reflexivity).
  rewrite Hp, Hld. auto.
Qed.

Lemma nk_cairo_ttf_reads (mem : memory) (g g' : globals) (ttf size handle : Z) :
  nk_cairo_ttf mem g ttf size = Ok (handle, g') -> exists path, mem ttf = Some path.
Proof.
  intros H. destruct (ttf_handle_entry _ _ _ _ _ _ H) as (_ & c & e & p & _ & _ & _ & _ & Hp & _).
  eauto.
Qed.

(** X4.  After initialisation and any run of requests that all
    returned, made while the caller's strings stayed as they are, every
    font file has been opened exactly once: the list of paths handed to
    FreeType has no duplicates, it is the list of paths the face table
    points at, in table order, and it holds exactly the paths that were
    requested. *)
Theorem font_files_loaded_once (mem : memory) (g0 g : globals) (requests : list (Z * Z)) :
  nk_cairo_init static_globals = Ok g0 ->
  ttf_calls g0 (in_memory mem requests) = Ok g ->
  NoDup (ft_loaded g)
  /\ ft_loaded g = face_paths mem g
  /\ forall path,
       path ∈ ft_loaded g <-> exists r, r ∈ requests /\ mem r.1 = Some path.
Proof.
  intros Hinit Hrun.
  assert (H0 : ft_loaded g0 = face_paths mem g0 /\ NoDup (face_paths mem g0)
               /\ ft_loaded g0 = []).
  { unfold nk_cairo_init in Hinit. apply bind_Ok in Hinit as (u & _ & Hinit).
    injection Hinit as <-. unfold face_paths. simpl. repeat split. constructor. }
  clear Hinit. destruct H0 as (Hl & Hnd & Hnil).
  assert (Hgen : forall reqs ga gb,
            ttf_calls ga (in_memory mem reqs) = Ok gb ->
            ft_loaded ga = face_paths mem ga -> NoDup (face_paths mem ga) ->
            ft_loaded gb = face_paths mem gb /\ NoDup (face_paths mem gb)
            /\ forall path, path ∈ ft_loaded gb
                 <-> path ∈ ft_loaded ga \/ exists r, r ∈ reqs /\ mem r.1 = Some path).
  { induction reqs as [|[p s] rest IH]; intros ga gb Hr Hla Hna.
    - injection Hr as <-. split; [exact Hla|]. split; [exact Hna|].
      intros path. split; [auto|]. intros [H | (r & Hr & _)]; [exact H|].
      apply elem_of_nil in Hr. contradiction.
    - unfold in_memory in Hr. rewrite fmap_cons in Hr. fold (in_memory mem rest) in Hr.
      cbn [ttf_calls fst snd] in Hr. apply bind_Ok in Hr as ([h gm] & Hstep & Hr).
      destruct (nk_cairo_ttf_reads _ _ _ _ _ _ Hstep) as [pth Hpth].
      destruct (nk_cairo_ttf_loads _ _ _ _ _ _ _ Hstep Hpth Hla Hna)
        as (Hlm & Hnm & Hgrow & Hin).
      destruct (IH gm gb Hr Hlm Hnm) as (Hlb & Hnb & Hiff).
      split; [exact Hlb|]. split; [exact Hnb|].
      intros path. rewrite Hiff. rewrite <- Hlm in Hin.
      assert (Hreq : (exists r, r ∈ (p, s) :: rest /\ mem r.1 = Some path)
                     <-> path = pth \/ exists r, r ∈ rest /\ mem r.1 = Some path).
      { split.
        - intros (r & Hr' & Hm). apply elem_of_cons in Hr' as [-> | Hr'].
          + left. simpl in Hm. congruence.
          + right. eauto.
        - intros [-> | (r & Hr' & Hm)].
          + exists (p, s). split; [apply elem_of_cons; left; reflexivity | exact Hpth].
          + exists r. split; [apply elem_of_cons; right; exact Hr' | exact Hm]. }
      rewrite Hreq.
      destruct Hgrow as [Hg | Hg]; rewrite Hg in *.
      + split; [tauto|]. intros [H | [-> | H]]; auto.
      + rewrite elem_of_app, list_elem_of_singleton. tauto. }
  destruct (Hgen requests g0 g Hrun Hl Hnd) as (Hlg & Hng & Hiff).
  split; [rewrite Hlg; exact Hng|]. split; [exact Hlg|].
  intros path. rewrite Hiff, Hnil. split; [|auto].
  intros [H | H]; [apply elem_of_nil in H; contradiction | exact H].
Qed.

End CacheRuns.
(** ** What a returned font holds *)

Section CacheContents.
Context {F : CFloat} {L : FontLib F}.

(** The face table of a state that [nk_cairo_ttf] calls built while the
    caller's strings stayed as in [mem]. *)
Lemma ttf_face_made (mem : memory) (g g1 : globals) (ttf : Z) (face : Z) :
  ttf_face mem g ttf = Ok (face, g1) -> cache_made mem g -> cache_made mem g1.
Proof.
  intros H [Hfaces Hfonts].
  destruct (ttf_face_cases _ _ _ _ _ H)
    as [(-> & _) | (-> & _ & Hc & Hlen & path & ft & Hpath & Hft & ->)]; [split; assumption|].
  split.
  - simpl. intros i e Hi He. destruct (decide (i = nk_cairo_face g)) as [-> | Hne].
    + rewrite list_lookup_insert_eq in He by exact Hlen. injection He as <-.
      exists path, ft. unfold stored_path. simpl. auto.
    + rewrite list_lookup_insert_ne in He by lia. apply (Hfaces i e); [lia | exact He].
  - simpl. intros i e Hi He.
    destruct (Hfonts i e Hi He) as (Hu & Hw & Hb & fe & Hfe & Hh).
    split; [exact Hu|]. split; [exact Hw|]. simpl. split; [lia|].
    exists fe. split; [|exact Hh].
    apply aread_Ok in Hfe as [H0 Hfe]. apply aread_Ok. split; [exact H0|].
    rewrite list_lookup_insert_ne by lia. exact Hfe.
Qed.

Lemma ttf_font_made (mem : memory) (g g2 : globals) (face size font : Z) :
  ttf_font g face size = Ok (font, g2) -> 0 <= face < nk_cairo_face g ->
  cache_made mem g -> cache_made mem g2.
Proof.
  intros H Hface [Hfaces Hfonts].
  destruct (ttf_font_cases _ _ _ _ _ H)
    as [(-> & _) | (-> & _ & Hc & Hlen & scratch & fe & Hfe & ->)]; [split; assumption|].
  split; [exact Hfaces|].
  intros i e Hi He. unfold font_made. simpl in *.
  destruct (decide (i = nk_cairo_font g)) as [-> | Hne].
  - rewrite list_lookup_insert_eq in He by exact Hlen. injection He as <-. simpl.
    split; [reflexivity|]. split; [reflexivity|]. split; [exact Hface|].
    exists fe. auto.
  - rewrite list_lookup_insert_ne in He by lia. apply (Hfonts i e); [lia | exact He].
Qed.

Lemma nk_cairo_ttf_made (mem : memory) (g g' : globals) (ttf : Z) (size handle : Z) :
  nk_cairo_ttf mem g ttf size = Ok (handle, g') -> cache_made mem g -> cache_made mem g'.
Proof.
  unfold nk_cairo_ttf. intros H Hg.
  apply bind_Ok in H as ([face g1] & Hface & Hfont).
  destruct (ttf_face_entry _ _ _ _ _ Hface) as (Hf & _).
  apply (ttf_font_made _ _ _ _ _ _ Hfont Hf).
  apply (ttf_face_made _ _ _ _ _ Hface Hg).
Qed.

Lemma ttf_calls_made (mem : memory) (requests : list (Z * Z)) :
  forall g g', ttf_calls g (in_memory mem requests) = Ok g' ->
    cache_made mem g -> cache_made mem g'.
Proof.
  induction requests as [|[p s] rest IH]; intros g g' H Hg.
  - injection H as <-. exact Hg.
  - unfold in_memory in H. rewrite fmap_cons in H. fold (in_memory mem rest) in H.
    cbn [ttf_calls fst snd] in H. apply bind_Ok in H as ([h gm] & Hstep & H).
    apply (IH gm g' H). apply (nk_cairo_ttf_made _ _ _ _ _ _ Hstep Hg).
Qed.

Lemma nk_cairo_init_made (mem : memory) (g0 : globals) :
  nk_cairo_init static_globals = Ok g0 -> cache_made mem g0.
Proof.
  unfold nk_cairo_init. intros H. apply bind_Ok in H as (u & _ & H).
  injection H as <-. split; simpl; intros i e Hi; lia.
Qed.

(** X5.  In a program that initialises the backend and then requests
    fonts while the strings it passes stay as they are, every request
    that returns hands out a complete font: the handle leads to a table
    entry of the requested size whose face entry points at the requested
    path and holds the face FreeType opened for that path and its Cairo
    wrapper; the toolkit font in the entry points back at the entry, its
    height is the line height Cairo reports for that face at that size
    (narrowed to [float]), and its width callback is the measurement
    function of this backend. *)
Theorem returned_font_is_complete (mem : memory) (g0 g g' : globals)
    (requests : list (Z * Z)) (ttf : Z) (ttf_size handle : Z) :
  nk_cairo_init static_globals = Ok g0 ->
  ttf_calls g0 (in_memory mem requests) = Ok g ->
  nk_cairo_ttf mem g ttf ttf_size = Ok (handle, g') ->
  exists cfont path ft q,
    mem ttf = Some path
    /\ deref_font g' (Some handle) = Ok cfont
    /\ fn_size cfont = ttf_size
    /\ FT_New_Face path = Some ft
    /\ aread (nk_cairo_faces g') (fn_face cfont)
       = Ok {| fc_ttf := Some q; fc_ft := Some ft;
               fc_ca := Some (cairo_ft_font_face_create_for_ft_face ft) |}
    /\ mem q = Some path
    /\ fn_font cfont
       = {| uf_userdata := Some handle;
            uf_height := d2f (fe_height
                                (font_extents_of
                                   (Some (cairo_ft_font_face_create_for_ft_face ft))
                                   (i2d ttf_size)));
            uf_width := Some nk_cairo_text_width_ptr |}.
Proof.
  intros Hinit Hrun Hreq.
  assert (Hmade : cache_made mem g').
  { apply (nk_cairo_ttf_made _ _ _ _ _ _ Hreq). apply (ttf_calls_made _ _ _ _ Hrun).
    apply nk_cairo_init_made. exact Hinit. }
  destruct Hmade as [Hfaces Hfonts].
  destruct (ttf_handle_entry _ _ _ _ _ _ Hreq)
    as (Hh & cfont & face & path & Hc & Hsize & Hf & He & Hmem & Hpath).
  pose proof Hc as Hc'. apply aread_Ok in Hc' as [_ Hc'].
  pose proof He as He'. apply aread_Ok in He' as [_ He'].
  destruct (Hfonts handle cfont Hh Hc') as (Hu & Hw & _ & face' & Hface' & Hheight).
  rewrite He in Hface'. injection Hface' as <-.
  destruct (Hfaces (fn_face cfont) face Hf He') as (path' & ft & Hp & Hft & Hfc & Hca).
  rewrite Hpath in Hp. injection Hp as <-.
  apply stored_path_pointer in Hpath as (q & Hq & Hmq).
  exists cfont, path, ft, q. split; [exact Hmem|]. split; [exact Hc|].
  split; [exact Hsize|]. split; [exact Hft|]. split; [|split; [exact Hmq|]].
  - rewrite He. f_equal. destruct face. simpl in *. congruence.
  - destruct cfont as [[u hgt wd] fa sz]. simpl in *. subst. rewrite Hca. reflexivity.
Qed.

(** *** Which requests return *)

(** X6.  A font file that is not in the cache yet, that FreeType can
    open, requested while both tables have room, takes the next free
    slot of each table: the handle is the old font count, both counters
    grow by one, and the path is handed to FreeType once. *)
Theorem nk_cairo_ttf_fresh (mem : memory) (g : globals) (ttf : Z) (path : string)
    (ttf_size : Z) (ft : FT_Face) :
  cache_ok g -> mem ttf = Some path -> unknown_path mem g path ->
  FT_New_Face path = Some ft ->
  nk_cairo_face g < MAXFONTS -> nk_cairo_font g < MAXFONTS ->
  exists g',
    nk_cairo_ttf mem g ttf ttf_size = Ok (nk_cairo_font g, g')
    /\ nk_cairo_face g' = nk_cairo_face g + 1
    /\ nk_cairo_font g' = nk_cairo_font g + 1
    /\ ft_loaded g' = ft_loaded g ++ [path].
Proof.
  intros Hok Hpath Hnew Hft Hroom1 Hroom2.
  pose proof Hok as (Hface & Hfont & Hlfaces & Hlfonts & Hnamed & Hrefs & Hscratch).
  assert (Hread : paths_readable mem g).
  { intros i e Hi He. destruct (Hnew i e Hi He) as (s & Hs & _). eauto. }
  destruct (nk_cairo_ttf_returns mem g ttf ttf_size Hok Hread)
    as [(handle & g' & Hrun) | Hab]; [eauto | |].
  - pose proof Hrun as Hrun'. unfold nk_cairo_ttf in Hrun'.
    apply bind_Ok in Hrun' as ([face g1] & Hrun1 & Hrun2).
    destruct (ttf_face_cases _ _ _ _ _ Hrun1)
      as [(-> & Hold & Hloop) | (-> & _ & _ & _ & path' & ft' & Hp' & _ & ->)].
    + exfalso. destruct (face_loop_hit _ _ _ _ 0 face ltac:(lia) Hloop ltac:(lia))
        as (e & s & He & Hs & Hst).
      apply aread_Ok in He as [_ He].
      destruct (Hnew face e Hold He) as (t & Ht & Hne). congruence.
    + assert (path' = path) as -> by congruence.
      destruct (ttf_font_cases _ _ _ _ _ Hrun2)
        as [(-> & Hold & Hloop) | (-> & _ & _ & _ & scratch & fe & _ & ->)].
      * exfalso. destruct (font_loop_hit _ _ _ _ 0 handle ltac:(lia) Hloop ltac:(lia))
          as (e & He & Hfe & _).
        apply aread_Ok in He as [_ He]. simpl in He, Hold.
        specialize (Hrefs handle e Hold He). lia.
      * eexists. split; [exact Hrun|]. simpl. auto.
  - exfalso. revert Hab. unfold nk_cairo_ttf, ttf_face.
    destruct (face_loop_total mem (nk_cairo_faces g) ttf (nk_cairo_face g)
                (Z.to_nat (nk_cairo_face g))) with (i := 0) as [r Hloop];
      [unfold MAXFONTS in *; lia | eauto | exact Hread | lia | lia |].
    assert (r = -1) as ->.
    { apply (face_loop_absent _ _ _ path _ 0 r ltac:(lia) Hloop Hpath).
      intros j e Hj He. destruct (Hnew j e ltac:(lia) He) as (s & Hs & Hne). congruence. }
    rewrite Hloop. cbn [mbind outcome_bind]. simpl.
    destruct (nk_cairo_face g <? MAXFONTS) eqn:Hlt; [|lia]. simpl.
    destruct (awrite_in_range (nk_cairo_faces g) (nk_cairo_face g)
                (fun e => {| fc_ttf := Some ttf; fc_ft := fc_ft e; fc_ca := fc_ca e |}))
      as (e0 & He0 & ->); [unfold MAXFONTS in *; lia|]. simpl.
    pose proof (lookup_lt_Some _ _ _ He0) as Hlt0.
    unfold read_str. rewrite Hpath. simpl. rewrite Hft.
    match goal with |- context [awrite ?a ?c ?f] =>
      destruct (awrite_in_range a c f) as (e1 & He1 & ->);
        [rewrite length_insert; unfold MAXFONTS in *; lia|]
    end. simpl.
    match goal with |- context [awrite ?a ?c ?f] =>
      destruct (awrite_in_range a c f) as (e2 & He2 & ->);
        [rewrite !length_insert; unfold MAXFONTS in *; lia|]
    end. simpl.
    unfold ttf_font. simpl.
    destruct (font_loop_total (nk_cairo_fonts g) (nk_cairo_face g) ttf_size
                (nk_cairo_font g) (Z.to_nat (nk_cairo_font g))) with (i := 0)
      as [r Hr]; [unfold MAXFONTS in *; lia | lia | lia |].
    rewrite Hr. cbn [mbind outcome_bind].
    destruct (r <? 0); [|discriminate]. simpl.
    destruct (nk_cairo_font g <? MAXFONTS) eqn:Hlt'; [|lia]. simpl.
    destruct (nk_cairo g); [|contradiction].
    destruct (aread _ (nk_cairo_face g)) eqn:Hrd; simpl;
      try discriminate; [|exfalso; exact (aread_no_abort _ _ Hrd)].
    destruct (awrite _ _ _) eqn:Hwr; simpl; try discriminate.
    exfalso; exact (awrite_no_abort _ _ _ Hwr).
Qed.

(** X7.  With the face table full, a request for a font file that is not
    in it stops the program on the capacity assertion, whatever the
    size asked for. *)
Theorem full_face_table_aborts (mem : memory) (g : globals) (ttf : Z) (path : string)
    (ttf_size : Z) :
  cache_ok g -> nk_cairo_face g = MAXFONTS ->
  mem ttf = Some path -> unknown_path mem g path ->
  nk_cairo_ttf mem g ttf ttf_size = AssertFailed.
Proof.
  intros Hok Hfull Hpath Hnew.
  assert (Hread : paths_readable mem g).
  { intros i e Hi He. destruct (Hnew i e Hi He) as (s & Hs & _). eauto. }
  destruct (nk_cairo_ttf_returns mem g ttf ttf_size Hok Hread)
    as [(handle & g' & Hrun) | Hab]; [eauto | | exact Hab].
  exfalso. unfold nk_cairo_ttf in Hrun.
  apply bind_Ok in Hrun as ([face g1] & Hface & _).
  destruct (ttf_face_cases _ _ _ _ _ Hface)
    as [(-> & Hold & Hloop) | (_ & _ & Hc & _)]; [|lia].
  destruct (face_loop_hit _ _ _ _ 0 face ltac:(lia) Hloop ltac:(lia))
    as (e & s & He & Hs & Hst).
  apply aread_Ok in He as [_ He].
  destruct (Hnew face e Hold He) as (t & Ht & Hne). congruence.
Qed.

(** X8.  With the font table full, a request whose paths can all be
    read either stops the program on an assertion or returns a handle
    that is already in the table and leaves the whole state as it was:
    only font files and sizes served before can still be served. *)
Theorem full_font_table_serves_known (mem : memory) (g : globals) (ttf : Z)
    (ttf_size : Z) :
  cache_ok g -> nk_cairo_font g = MAXFONTS ->
  paths_readable mem g -> is_Some (mem ttf) ->
  nk_cairo_ttf mem g ttf ttf_size = AssertFailed
  \/ exists handle,
       nk_cairo_ttf mem g ttf ttf_size = Ok (handle, g) /\ 0 <= handle < MAXFONTS.
Proof.
  intros Hok Hfull Hread Httf.
  destruct (nk_cairo_ttf_returns mem g ttf ttf_size Hok Hread Httf)
    as [(h & g' & Hrun) | Hrun]; [right | left; exact Hrun].
  exists h.
  destruct (nk_cairo_ttf_keeps_ok _ _ _ _ _ _ Hrun Hok) as [Hok' Hh].
  pose proof Hrun as Hrun'. unfold nk_cairo_ttf in Hrun'.
  apply bind_Ok in Hrun' as ([face g1] & Hface & Hfont).
  destruct (ttf_face_keeps _ _ _ _ _ Hface) as (_ & _ & Hn1 & Hf1 & _).
  destruct (ttf_font_keeps _ _ _ _ _ Hfont) as (Hc2 & _).
  pose proof Hok' as (_ & (_ & Hmax) & _).
  assert (Hsame : nk_cairo_font g' = nk_cairo_font g1) by lia.
  pose proof (ttf_font_same_count _ _ _ _ _ Hfont Hsame) as ->.
  destruct (ttf_face_cases _ _ _ _ _ Hface) as [(-> & _) | (-> & _ & _ & _ & p & ft & _ & _ & Hg1)].
  - split; [exact Hrun | lia].
  - exfalso. destruct (ttf_font_entry _ _ _ _ _ Hfont) as (Hh1 & e & He & Hfe & _).
    apply aread_Ok in He as [_ He]. rewrite Hf1 in He.
    destruct Hok as (_ & _ & _ & _ & _ & Hrefs & _).
    specialize (Hrefs h e ltac:(lia) He). lia.
Qed.

(** X9.  While the face table has room, a font file that is not in the
    cache and that FreeType cannot open stops the program on an
    assertion; the capacity assertion holds there, so it is the one
    around [FT_New_Face].  No handle is returned for the file. *)
Theorem unreadable_font_aborts (mem : memory) (g : globals) (ttf : Z) (path : string)
    (ttf_size : Z) :
  cache_ok g -> nk_cairo_face g < MAXFONTS ->
  mem ttf = Some path -> unknown_path mem g path -> FT_New_Face path = None ->
  assert (nk_cairo_face g <? MAXFONTS) = Ok tt
  /\ nk_cairo_ttf mem g ttf ttf_size = AssertFailed.
Proof.
  intros Hok Hroom Hpath Hnew Hfail.
  pose proof Hok as (Hface & Hfont & Hlfaces & Hlfonts & Hnamed & Hrefs & Hscratch).
  unfold MAXFONTS in Hface, Hlfaces, Hroom.
  assert (Hcap : (nk_cairo_face g <? MAXFONTS) = true)
    by (apply Z.ltb_lt; unfold MAXFONTS; exact Hroom).
  split; [rewrite Hcap; reflexivity|].
  destruct (face_loop_total mem (nk_cairo_faces g) ttf (nk_cairo_face g)
              (Z.to_nat (nk_cairo_face g))) with (i := 0) as [r Hloop];
    [lia | eauto | | lia | lia |].
  { intros i e Hi He. destruct (Hnew i e Hi He) as (s & Hs & _). eauto. }
  assert (r = -1) as ->.
  { apply (face_loop_absent _ _ _ path _ 0 r ltac:(lia) Hloop Hpath).
    intros j e Hj He. destruct (Hnew j e ltac:(lia) He) as (s & Hs & Hne). congruence. }
  unfold nk_cairo_ttf, ttf_face. rewrite Hloop. simpl. rewrite Hcap. simpl.
  destruct (awrite_in_range (nk_cairo_faces g) (nk_cairo_face g)
              (fun e => {| fc_ttf := Some ttf; fc_ft := fc_ft e; fc_ca := fc_ca e |}))
    as (e0 & He0 & ->); [lia|]. simpl.
  unfold read_str. rewrite Hpath. simpl. rewrite Hfail. reflexivity.
Qed.

(** X10.  Before [nk_cairo_init] has made the scratch context, no
    request returns: with no sized font in the table a request has to
    measure the line height, and there is nothing to measure it on. *)
Theorem nk_cairo_ttf_needs_init (mem : memory) (g : globals) (ttf : Z) (ttf_size : Z) :
  nk_cairo g = None -> nk_cairo_font g = 0 ->
  forall r, nk_cairo_ttf mem g ttf ttf_size <> Ok r.
Proof.
  intros Hnone Hzero [handle g'] H. unfold nk_cairo_ttf in H.
  apply bind_Ok in H as ([face g1] & Hface & Hfont).
  destruct (ttf_face_keeps _ _ _ _ _ Hface) as (_ & _ & Hn1 & _ & Hs1 & _).
  revert Hfont. unfold ttf_font. rewrite Hn1, Hzero. simpl.
  rewrite Hs1, Hnone. discriminate.
Qed.

End CacheContents.
(** ** Text: measuring and drawing *)

Section Text.
Context {F : CFloat} {L : FontLib F}.

Lemma c_str_stops (pre post : list byte) : c_str (pre ++ x00 :: post) = c_str pre.
Proof.
  induction pre as [|b pre IH]; simpl; [reflexivity|].
  destruct (Byte.eqb b x00); [reflexivity|]. rewrite IH. reflexivity.
Qed.

Lemma c_str_terminated (s : list byte) : c_str (s ++ [x00]) = c_str s.
Proof. apply c_str_stops. Qed.

Lemma c_str_id (s : list byte) : x00 ∉ s -> c_str s = s.
Proof.
  intros H. rewrite <- (c_str_nul_free s H) at 2. symmetry. apply c_str_terminated.
Qed.


Lemma text_width_tables (g g' : globals) (handle : option Z) (h w : float)
    (text : list byte) (len : Z) :
  nk_cairo_text_width g handle h text len = Ok (w, g') ->
  nk_cairo_face g' = nk_cairo_face g
  /\ nk_cairo_faces g' = nk_cairo_faces g
  /\ nk_cairo_font g' = nk_cairo_font g
  /\ nk_cairo_fonts g' = nk_cairo_fonts g
  /\ ft_loaded g' = ft_loaded g
  /\ nk_cairo g <> None /\ nk_cairo g' <> None.
Proof.
  unfold nk_cairo_text_width. intros H.
  apply bind_Ok in H as (tmp & _ & H). apply bind_Ok in H as (cfont & _ & H).
  destruct (nk_cairo g) as [scratch|]; [|discriminate].
  apply bind_Ok in H as (face & _ & H). simpl in H. injection H as _ <-.
  simpl. repeat split; discriminate.
Qed.

Lemma same_tables_text_width (g g' : globals) (handle : option Z) (h : float)
    (text : list byte) (len : Z) :
  same_tables g g' ->
  width_of (nk_cairo_text_width g' handle h text len)
  = width_of (nk_cairo_text_width g handle h text len).
Proof.
  intros (Hc & Hf & Hn & Hfs & _ & Hs). unfold nk_cairo_text_width, deref_font.
  rewrite Hf, Hfs.
  destruct (copy_span text len) as [tmp| |]; [|reflexivity..]. cbn [mbind outcome_bind].
  destruct (match handle with Some i => aread (nk_cairo_fonts g) i | None => Undefined end)
    as [cfont| |]; [|reflexivity..]. cbn [mbind outcome_bind].
  destruct (nk_cairo g) as [s|], (nk_cairo g') as [s'|]; try reflexivity;
    try (exfalso; destruct Hs as [Ha Hb]; first [discriminate (Ha eq_refl)
                                                 | discriminate (Hb eq_refl)]).
  destruct (aread (nk_cairo_faces g) (fn_face cfont)) as [face| |]; reflexivity.
Qed.

Lemma same_tables_ttf (mem : memory) (g g' : globals) (ttf : Z) (ttf_size : Z) :
  same_tables g g' ->
  match nk_cairo_ttf mem g ttf ttf_size, nk_cairo_ttf mem g' ttf ttf_size with
  | Ok (h, r), Ok (h', r') => h' = h /\ same_tables r r'
  | AssertFailed, AssertFailed => True
  | Undefined, Undefined => True
  | _, _ => False
  end.
Proof.
  destruct g as [c faces n fonts s ld], g' as [c' faces' n' fonts' s' ld'].
  intros (Hc & Hf & Hn & Hfs & Hld & Hs). simpl in *. subst c' faces' n' fonts' ld'.
  unfold nk_cairo_ttf, ttf_face. simpl.
  destruct (face_loop mem faces ttf 0 (Z.to_nat c)) as [r| |]; simpl; [|exact I..].
  assert (Hfont : forall c1 faces1 ld1 face,
    match ttf_font {| nk_cairo_face := c1; nk_cairo_faces := faces1; nk_cairo_font := n;
                      nk_cairo_fonts := fonts; nk_cairo := s; ft_loaded := ld1 |}
                   face ttf_size,
          ttf_font {| nk_cairo_face := c1; nk_cairo_faces := faces1; nk_cairo_font := n;
                      nk_cairo_fonts := fonts; nk_cairo := s'; ft_loaded := ld1 |}
                   face ttf_size with
    | Ok (h, r), Ok (h', r') => h' = h /\ same_tables r r'
    | AssertFailed, AssertFailed => True
    | Undefined, Undefined => True
    | _, _ => False
    end).
  { intros c1 faces1 ld1 face. unfold ttf_font. simpl.
    destruct (font_loop fonts face ttf_size 0 (Z.to_nat n)) as [q| |]; simpl; [|exact I..].
    destruct (q <? 0); simpl.
    - destruct (n <? MAXFONTS); simpl; [|exact I].
      destruct s as [sc|], s' as [sc'|]; try exact I;
        try (exfalso; destruct Hs as [Ha Hb]; first [discriminate (Ha eq_refl)
                                                     | discriminate (Hb eq_refl)]).
      destruct (aread faces1 face) as [fe| |]; simpl; [|exact I..].
      destruct (awrite fonts n _) as [fonts1| |] eqn:Hw; simpl; [|exact I..].
      split; [reflexivity|]. unfold same_tables. simpl.
      repeat split; intros; discriminate.
    - split; [reflexivity|]. unfold same_tables. simpl. repeat split; apply Hs. }
  destruct (r <? 0); simpl; [|apply Hfont].
  destruct (c <? MAXFONTS); simpl; [|exact I].
  destruct (awrite faces c _) as [faces1| |]; simpl; [|exact I..].
  destruct (read_str mem ttf) as [path| |]; simpl; [|exact I..].
  destruct (FT_New_Face path) as [ft|]; [|exact I].
  destruct (awrite faces1 c _) as [faces2| |]; simpl; [|exact I..].
  destruct (awrite faces2 c _) as [faces3| |]; simpl; [|exact I..].
  apply Hfont.
Qed.

Lemma same_tables_render_command (g g' : globals) (fr : frame) (cmd : nk_command) :
  same_tables g g' -> render_command g' fr cmd = render_command g fr cmd.
Proof.
  intros (_ & Hf & _ & Hfs & _). destruct cmd; try reflexivity.
  cbn [render_command]. unfold nk_cairo_draw_text, deref_font. rewrite Hf, Hfs. reflexivity.
Qed.

Lemma same_tables_foreach (g g' : globals) (cmds : list nk_command) :
  same_tables g g' -> forall fr, nk_foreach g' fr cmds = nk_foreach g fr cmds.
Proof.
  intros Hsame. induction cmds as [|cmd cmds IH]; intros fr; [reflexivity|].
  cbn [nk_foreach]. rewrite (same_tables_render_command _ _ _ _ Hsame).
  destruct (render_command g fr cmd); [|reflexivity..]. cbn [mbind outcome_bind]. apply IH.
Qed.

(** X12.  Measuring text changes nothing that can be observed later:
    the counters, both tables and the list of opened files are as
    before (only the scratch context has new font settings), every later
    measurement returns the width it would have returned, every later
    font request returns the handle it would have returned, and every
    later frame is rendered call for call as it would have been. *)
Theorem measuring_changes_nothing (g g' : globals) (handle : option Z) (h w : float)
    (text : list byte) (len : Z) :
  nk_cairo_text_width g handle h text len = Ok (w, g') ->
  same_tables g g'
  /\ (forall handle2 h2 text2 len2,
        width_of (nk_cairo_text_width g' handle2 h2 text2 len2)
        = width_of (nk_cairo_text_width g handle2 h2 text2 len2))
  /\ (forall mem ttf ttf_size,
        handle_of (nk_cairo_ttf mem g' ttf ttf_size)
        = handle_of (nk_cairo_ttf mem g ttf ttf_size))
  /\ (forall stderr ctx fb width height pitch,
        nk_cairo_render g' stderr ctx fb width height pitch
        = nk_cairo_render g stderr ctx fb width height pitch).
Proof.
  intros H.
  assert (Hsame : same_tables g g').
  { destruct (text_width_tables _ _ _ _ _ _ _ H) as (Ha & Hb & Hc & Hd & He & Hs & Hs').
    unfold same_tables. repeat split; auto; intros; contradiction. }
  split; [exact Hsame|]. split; [|split].
  - intros. apply same_tables_text_width. exact Hsame.
  - intros mem ttf ttf_size.
    pose proof (same_tables_ttf mem g g' ttf ttf_size Hsame) as Ht.
    destruct (nk_cairo_ttf mem g ttf ttf_size) as [[a r]| |],
             (nk_cairo_ttf mem g' ttf ttf_size) as [[a' r']| |];
      try contradiction; try reflexivity.
    destruct Ht as [-> _]. reflexivity.
  - intros. unfold nk_cairo_render. rewrite (same_tables_foreach _ _ _ Hsame). reflexivity.
Qed.


(** X14.  Text is drawn as it is measured.  For a toolkit font in the
    table, drawing a span with it and measuring the span through its
    [userdata] handle return together or not at all; when they return,
    the frame's context was told the very face, size and C string that
    the scratch context was asked the extents of, and the one painting
    call of the drawing shows that string in that face and size, in the
    command's colour, starting at the rectangle's left edge on the
    baseline one ascent below its top, under the clip and transformation
    in force.  The rectangle's width and height and the height argument
    are not used. *)
Theorem text_is_drawn_as_measured (g : globals) (cairo scratch : cairo_t) (font : Z)
    (f : nk_cairo_font_t) (rect : nk_rect_t) (text : list byte) (len : Z)
    (font_height h : float) (fg : nk_color) :
  aread (nk_cairo_fonts g) font = Ok f ->
  nk_cairo g = Some scratch ->
  ((exists cairo', nk_cairo_draw_text g cairo font rect text len font_height fg = Ok cairo')
   <-> (exists r, nk_cairo_text_width g (uf_userdata (fn_font f)) h text len = Ok r))
  /\ forall cairo' w g',
       nk_cairo_draw_text g cairo font rect text len font_height fg = Ok cairo' ->
       nk_cairo_text_width g (uf_userdata (fn_font f)) h text len = Ok (w, g') ->
       exists face size s scratch',
         nk_cairo g' = Some scratch'
         /\ s = c_str (take (Z.to_nat len) text)
         /\ calls_since scratch scratch'
            = [SetFontFace face; SetFontSize size; TextExtents s]
         /\ calls_since cairo cairo'
            = [SetFontFace face; SetFontSize size; FontExtents;
               SetSourceRgba (ddiv (i2d (col_r fg)) (i2d 255))
                             (ddiv (i2d (col_g fg)) (i2d 255))
                             (ddiv (i2d (col_b fg)) (i2d 255))
                             (ddiv (i2d (col_a fg)) (i2d 255));
               MoveTo (f2d (rect_x rect))
                      (dadd (f2d (rect_y rect)) (fe_ascent (font_extents_of face size)));
               ShowText s]
         /\ forall st : gstate,
              jobs_from st (calls_since cairo cairo')
              = [{| job_ink :=
                      Glyphs s
                        (Some (XY (f2d (rect_x rect))
                                  (dadd (f2d (rect_y rect))
                                        (fe_ascent (font_extents_of face size)))))
                        face size;
                    job_source := rgba fg;
                    job_clip := gs_clip st;
                    job_matrix := gs_matrix st |}].
Proof.
  intros Hf Hscratch. unfold nk_cairo_draw_text, nk_cairo_text_width.
  rewrite Hf, Hscratch. cbn [mbind outcome_bind].
  destruct (deref_font g (uf_userdata (fn_font f))) as [cfont| |];
    cbn [mbind outcome_bind].
  2, 3: split; [split; intros [x Hx]; revert Hx;
                  destruct (copy_span text len); discriminate
               | intros ? ? ?; discriminate].
  destruct (aread (nk_cairo_faces g) (fn_face cfont)) as [face| |];
    cbn [mbind outcome_bind].
  2, 3: split; [split; intros [x Hx]; revert Hx;
                  destruct (copy_span text len); discriminate
               | intros ? ? ?; discriminate].
  unfold copy_span.
  destruct ((len <? 0) || (Z.of_nat (length text) <? len)) eqn:Hrange;
    cbn [mbind outcome_bind].
  { split; [split; intros [x Hx]; discriminate | intros ? ? ?; discriminate]. }
  split; [split; intros _; eexists; reflexivity|].
  intros cairo' w g' Hd Hm. simpl in Hd, Hm. injection Hd as <-. injection Hm as _ <-.
  exists (fc_ca face), (i2d (fn_size cfont)), (c_str (take (Z.to_nat len) text)).
  eexists. split; [reflexivity|]. split; [reflexivity|].
  rewrite !c_str_terminated.
  split; [since_calls; reflexivity|]. split; [since_calls; reflexivity|].
  intros st. since_calls. reflexivity.
Qed.

End Text.

(** ** What a frame paints *)

Section Paints.
Context {F : CFloat} {L : FontLib F}.

(** *** The two interpreters *)

Lemma jobs_from_app (l1 l2 : list cairo_call) :
  forall s, jobs_from s (l1 ++ l2) = jobs_from s l1 ++ jobs_from (gstate_after s l1) l2.
Proof.
  induction l1 as [|c l1 IH]; intros s; [reflexivity|].
  cbn [app jobs_from gstate_after fold_left]. rewrite IH, <- app_assoc. reflexivity.
Qed.

Lemma gstate_after_app (l1 l2 : list cairo_call) (s : gstate) :
  gstate_after s (l1 ++ l2) = gstate_after (gstate_after s l1) l2.
Proof. apply fold_left_app. Qed.

Lemma gstate_after_path (calls : list cairo_call) :
  forall s, gs_path (gstate_after s calls) = fold_left path_step calls (gs_path s).
Proof.
  induction calls as [|c calls IH]; intros s; [reflexivity|].
  cbn [gstate_after fold_left]. apply (IH (gstate_step s c)).
Qed.

(** The two interpreters agree on what is stroked and filled. *)
Lemma jobs_are_shapes (calls : list cairo_call) :
  forall s, omap job_shape (jobs_from s calls)
            = List.filter painted_shape (shapes_from (gs_path s) calls).
Proof.
  induction calls as [|c calls IH]; intros s; [reflexivity|].
  cbn [jobs_from shapes_from]. rewrite omap_app, List.filter_app, IH.
  f_equal. destruct c; reflexivity.
Qed.

(** *** Runs of [cairo_line_to] *)

Lemma line_to_points_read (pnts : list nk_vec2i) (n : nat) :
  forall (i : Z) (cr : cairo_t),
    line_to_points cr pnts i n
    = (ps ← points_read pnts i n; Ok (emit_all cr (line_to_call <$> ps))).
Proof.
  induction n as [|n IH]; intros i cr.
  - simpl. rewrite emit_all_nil. reflexivity.
  - cbn [line_to_points points_read].
    destruct (aread pnts i) as [p| |]; [|reflexivity..]. cbn [mbind outcome_bind].
    rewrite IH. destruct (points_read pnts (i + 1) n) as [ps| |]; [|reflexivity..].
    cbn [mbind outcome_bind]. unfold cairo_line_to. rewrite emit_emit_all. reflexivity.
Qed.

Lemma jobs_from_lines (ps : list nk_vec2i) :
  forall s, jobs_from s (line_to_call <$> ps) = [].
Proof.
  induction ps as [|p ps IH]; intros s; [reflexivity|].
  cbn [fmap list_fmap jobs_from]. rewrite IH. reflexivity.
Qed.

Lemma gstate_after_lines (ps : list nk_vec2i) :
  forall (s : gstate) (a : point),
    p_current (gs_path s) = Some a ->
    gstate_after s (line_to_call <$> ps)
    = with_path s {| p_segments := p_segments (gs_path s) ++ chain a (vertex <$> ps);
                     p_start := p_start (gs_path s);
                     p_current := Some (chain_end a (vertex <$> ps)) |}.
Proof.
  induction ps as [|p ps IH]; intros s a Hcur.
  - destruct s as [[segs st cur] ? ? ? ? ? ?]. simpl in *. subst cur.
    unfold with_path. simpl. rewrite app_nil_r. reflexivity.
  - transitivity (gstate_after (gstate_step s (line_to_call p)) (line_to_call <$> ps));
      [reflexivity|].
    rewrite (IH _ (vertex p)); [|simpl; rewrite Hcur; reflexivity].
    unfold with_path. simpl. rewrite Hcur. simpl. rewrite <- app_assoc. reflexivity.
Qed.

End Paints.

(** *** The calls of one command *)

(** Unfold [command_calls] down to the library calls. *)
Ltac open_command :=
  unfold command_calls; cbn [render_command];
  unfold nk_cairo_stroke_polygon, nk_cairo_fill_polygon, nk_cairo_stroke_polyline,
    nk_cairo_draw_text, nk_cairo_stroke_rect, nk_cairo_fill_rect;
  rewrite ?line_to_points_read.

(** Take the branch in which every array access is defined. *)
Ltac walk_command :=
  repeat match goal with
         | |- context [aread ?a ?i ≫= _] =>
             destruct (aread a i); cbn [mbind outcome_bind]; try reflexivity;
             try discriminate
         | |- context [deref_font ?g ?p ≫= _] =>
             destruct (deref_font g p); cbn [mbind outcome_bind]; try reflexivity
         | |- context [points_read ?a ?i ?n ≫= _] =>
             destruct (points_read a i n); cbn [mbind outcome_bind]; try reflexivity
         | |- context [copy_span ?t ?l ≫= _] =>
             destruct (copy_span t l); cbn [mbind outcome_bind]; try reflexivity
         | |- context [if ?r =? 0 then _ else _] => destruct (r =? 0)
         | |- context [line_to_points _ _ _ _] => rewrite !line_to_points_read
         end;
  cbn [mbind outcome_bind];
  unfold calls_since; simpl; rewrite <- ?app_assoc; simpl;
  rewrite ?drop_app_length, ?drop_all.


(** The calls of a point-array command: those before the run of
    [cairo_line_to], the run, and those after it. *)
Ltac split_at_lines :=
  match goal with
  | |- context [?c1 :: ?c2 :: ?c3 :: ?c4 :: (?run ++ ?post)] =>
      change (c1 :: c2 :: c3 :: c4 :: (run ++ post)) with ([c1; c2; c3; c4] ++ run ++ post)
  | |- context [?c1 :: ?c2 :: ?c3 :: (?run ++ ?post)] =>
      change (c1 :: c2 :: c3 :: (run ++ post)) with ([c1; c2; c3] ++ run ++ post)
  end.

Section Commands.
Context {F : CFloat} {L : FontLib F}.

Lemma command_calls_frame (g : globals) (fr fr2 : frame) (cmd : nk_command) :
  cr_matrix (fr_cairo fr2) = cr_matrix (fr_cairo fr) ->
  command_calls g fr2 cmd = command_calls g fr cmd.
Proof.
  intros Hm. destruct cmd; open_command; walk_command; try reflexivity.
  rewrite Hm. reflexivity.
Qed.

Lemma command_state (g : globals) (fr : frame) (cmd : nk_command)
    (calls : list cairo_call) (s : gstate) :
  command_calls g fr cmd = Ok calls ->
  p_segments (gs_path s) = [] -> gs_matrix s = cr_matrix (fr_cairo fr) ->
  p_segments (gs_path (gstate_after s calls)) = []
  /\ gs_matrix (gstate_after s calls) = gs_matrix s
  /\ gs_clip (gstate_after s calls) = clip_after (gs_clip s) cmd
  /\ jobs_from s calls = jobs_from (state_with (gs_clip s) (gs_matrix s)) calls.
Proof.
  intros H Hseg Hmat. revert H.
  destruct cmd; open_command; walk_command; try discriminate; intros [= <-].
  all: try (unfold gstate_after; simpl; rewrite ?Hseg, ?Hmat; repeat split; reflexivity).
  all: split_at_lines;
    rewrite !jobs_from_app, !gstate_after_app, !jobs_from_lines;
    erewrite !gstate_after_lines by reflexivity;
    unfold gstate_after, with_path; simpl; rewrite ?Hseg; repeat split; reflexivity.
Qed.

Lemma command_appends (g : globals) (fr fr' : frame) (cmd : nk_command) :
  render_command g fr cmd = Ok fr' ->
  cr_calls (fr_cairo fr')
  = cr_calls (fr_cairo fr) ++ calls_since (fr_cairo fr) (fr_cairo fr')
  /\ cr_matrix (fr_cairo fr') = cr_matrix (fr_cairo fr).
Proof.
  destruct cmd; open_command; walk_command; try discriminate; intros [= <-];
    unfold calls_since; simpl; rewrite <- ?app_assoc; simpl;
    rewrite ?drop_app_length, ?drop_all, ?app_nil_r; split; reflexivity.
Qed.

Lemma command_attributes (g : globals) (fr : frame) (cmd : nk_command)
    (calls : list cairo_call) (s : gstate) :
  command_calls g fr cmd = Ok calls ->
  p_segments (gs_path s) = [] -> gs_matrix s = cr_matrix (fr_cairo fr) ->
  length (jobs_from s calls) = (if painting cmd then 1 else 0)%nat
  /\ Forall (fun j =>
       job_clip j = gs_clip s
       /\ (forall col, colour_of cmd = Some col -> job_source j = rgba col)
       /\ (forall t path width,
             thickness_of cmd = Some t -> job_ink j = StrokeOf path width ->
             width = i2d t)
       /\ match cmd with
          | NK_COMMAND_IMAGE x y w h img _ =>
              let xs := ddiv (i2d w) (i2d (img_w img)) in
              let ys := ddiv (i2d h) (i2d (img_h img)) in
              let m := cairo_matrix_multiply (cairo_matrix_init_scale xs ys) (gs_matrix s) in
              job_ink j = Everywhere
              /\ job_matrix j = m
              /\ job_source j
                 = SurfaceAt {| surf_data := img_ptr img; surf_width := img_w img;
                                surf_height := img_h img; surf_stride := img_w img * 4 |}
                             (ddiv (i2d x) xs) (ddiv (i2d y) ys) m
          | _ => job_matrix j = gs_matrix s
          end)
       (jobs_from s calls).
Proof.
  intros H Hseg Hmat. revert H.
  destruct cmd; open_command; walk_command; try discriminate; intros [= <-].
  all: try split_at_lines;
    rewrite ?jobs_from_app, ?gstate_after_app, ?jobs_from_lines;
    try (erewrite !gstate_after_lines by reflexivity);
    unfold gstate_after, with_path; simpl;
    (split; [reflexivity|]);
    repeat constructor; simpl; try discriminate;
    try (intros ? [= <-]; reflexivity);
    try (intros ? ? ? [= <-] [= <- <-]; reflexivity);
    try (intros ? ? ? ? [=]).
Qed.

(** X15.  Nothing but the clip leaks from one command into the next.
    What a command paints is the same in any two contexts that have the
    same clip and transformation and no pending path segments, whatever
    source colour, line width, font, current point and call history the
    commands before have left; and the command leaves the context again
    without pending segments, with the transformation it found, and with
    the clip it found unless it is a scissor command. *)
Theorem commands_do_not_leak (g : globals) (fr1 fr2 : frame) (s1 s2 : gstate)
    (cmd : nk_command) :
  gs_matrix s1 = cr_matrix (fr_cairo fr1) -> gs_matrix s2 = cr_matrix (fr_cairo fr2) ->
  gs_matrix s1 = gs_matrix s2 -> gs_clip s1 = gs_clip s2 ->
  p_segments (gs_path s1) = [] -> p_segments (gs_path s2) = [] ->
  paints_of g s1 fr1 cmd = paints_of g s2 fr2 cmd
  /\ forall calls,
       command_calls g fr1 cmd = Ok calls ->
       p_segments (gs_path (gstate_after s1 calls)) = []
       /\ gs_matrix (gstate_after s1 calls) = gs_matrix s1
       /\ gs_clip (gstate_after s1 calls) = clip_after (gs_clip s1) cmd.
Proof.
  intros Hm1 Hm2 Hm Hclip Hp1 Hp2. split.
  - unfold paints_of.
    rewrite (command_calls_frame g fr1 fr2 cmd) by congruence.
    destruct (command_calls g fr1 cmd) as [calls| |] eqn:Hcalls; [|reflexivity..].
    cbn [mbind outcome_bind]. f_equal.
    destruct (command_state g fr1 cmd calls s1 Hcalls Hp1 Hm1) as (_ & _ & _ & ->).
    assert (Hcalls2 : command_calls g fr2 cmd = Ok calls).
    { rewrite <- Hcalls. symmetry. apply command_calls_frame. congruence. }
    destruct (command_state g fr2 cmd calls s2 Hcalls2 Hp2 Hm2) as (_ & _ & _ & ->).
    rewrite Hclip, Hm. reflexivity.
  - intros calls Hcalls.
    destruct (command_state g fr1 cmd calls s1 Hcalls Hp1 Hm1) as (Ha & Hb & Hc & _).
    auto.
Qed.

(** X16.  Every command paints with its own attributes.  A command
    that draws makes exactly one painting call, the scissor, curve,
    multi-colour and unknown commands none; what is painted is clipped to
    the region in force when the command starts, is painted in the
    command's own colour when it has one, is stroked with the command's
    own line thickness when it has one, and is painted under the
    transformation in force when the command starts, except for an
    image, which is painted everywhere inside the clip from the image
    surface under the scaled transformation.  What is stroked or filled
    is what the path interpretation of the command gives. *)
Theorem command_paints_with_own_attributes (g : globals) (fr : frame) (s : gstate)
    (cmd : nk_command) (js : list job) :
  paints_of g s fr cmd = Ok js ->
  gs_path s = empty_path ->
  gs_matrix s = cr_matrix (fr_cairo fr) ->
  length js = (if painting cmd then 1 else 0)%nat
  /\ (forall j, j ∈ js ->
        job_clip j = gs_clip s
        /\ (forall col, colour_of cmd = Some col -> job_source j = rgba col)
        /\ (forall t path width,
              thickness_of cmd = Some t -> job_ink j = StrokeOf path width ->
              width = i2d t)
        /\ match cmd with
           | NK_COMMAND_IMAGE x y w h img _ =>
               let xs := ddiv (i2d w) (i2d (img_w img)) in
               let ys := ddiv (i2d h) (i2d (img_h img)) in
               let m := cairo_matrix_multiply (cairo_matrix_init_scale xs ys)
                          (gs_matrix s) in
               job_ink j = Everywhere
               /\ job_matrix j = m
               /\ job_source j
                  = SurfaceAt {| surf_data := img_ptr img; surf_width := img_w img;
                                 surf_height := img_h img;
                                 surf_stride := img_w img * 4 |}
                              (ddiv (i2d x) xs) (ddiv (i2d y) ys) m
           | _ => job_matrix j = gs_matrix s
           end)
  /\ exists shs, drawn g fr cmd = Ok shs
       /\ omap job_shape js = List.filter painted_shape shs.
Proof.
  unfold paints_of. intros H Hpath Hmat.
  assert (Hseg : p_segments (gs_path s) = []) by (rewrite Hpath; reflexivity).
  apply bind_Ok in H as (calls & Hcalls & [= <-]).
  destruct (command_attributes g fr cmd calls s Hcalls Hseg Hmat) as [Hlen Hall].
  split; [exact Hlen|]. split.
  - intros j Hj. rewrite Forall_forall in Hall. apply Hall. exact Hj.
  - unfold command_calls in Hcalls. apply bind_Ok in Hcalls as (fr' & Hrun & [= <-]).
    exists (shapes (calls_since (fr_cairo fr) (fr_cairo fr'))). split.
    + unfold drawn. rewrite Hrun. reflexivity.
    + rewrite jobs_are_shapes, Hpath. reflexivity.
Qed.

(** *** The whole frame *)

Lemma foreach_jobs (g : globals) (cmds : list nk_command) :
  forall (fr fr' : frame) (s : gstate),
    nk_foreach g fr cmds = Ok fr' ->
    p_segments (gs_path s) = [] ->
    gs_matrix s = identity_matrix -> cr_matrix (fr_cairo fr) = identity_matrix ->
    exists calls,
      cr_calls (fr_cairo fr') = cr_calls (fr_cairo fr) ++ calls
      /\ frame_jobs g (gs_clip s) cmds = Ok (jobs_from s calls).
Proof.
  induction cmds as [|cmd rest IH]; intros fr fr' s Hrun Hseg Hms Hmf.
  - injection Hrun as <-. exists []. rewrite app_nil_r. split; reflexivity.
  - cbn [nk_foreach] in Hrun. apply bind_Ok in Hrun as (fr1 & Hcmd & Hrest).
    destruct (command_appends _ _ _ _ Hcmd) as [Hlog Hmat].
    set (calls1 := calls_since (fr_cairo fr) (fr_cairo fr1)) in *.
    assert (Hcalls : command_calls g fr cmd = Ok calls1).
    { unfold command_calls. rewrite Hcmd. reflexivity. }
    destruct (command_state g fr cmd calls1 s Hcalls Hseg ltac:(congruence))
      as (Hseg1 & Hm1 & Hclip1 & Hjobs).
    destruct (IH fr1 fr' (gstate_after s calls1) Hrest Hseg1 ltac:(congruence)
                ltac:(congruence)) as (calls2 & Hlog2 & Hjobs2).
    exists (calls1 ++ calls2). split.
    + rewrite Hlog2, Hlog, <- app_assoc. reflexivity.
    + cbn [frame_jobs]. unfold paints_of.
      rewrite (command_calls_frame g fr blank_frame cmd) by (rewrite Hmf; reflexivity).
      rewrite Hcalls. cbn [mbind outcome_bind].
      rewrite <- Hclip1, Hjobs2. cbn [mbind outcome_bind].
      rewrite jobs_from_app, Hjobs, Hms. reflexivity.
Qed.

(** X17.  A frame paints its commands one by one.  The painting calls
    of a whole render pass, read in the graphics state that the calls
    before them have built up on the frame's context, paint exactly what
    the commands paint when each is rendered alone on a new context that
    is clipped to the rectangle of the last scissor command before it,
    or to the whole buffer when there is none; the set-up and the
    tear-down of the frame paint nothing. *)
Theorem frame_paints_command_by_command (g : globals) (stderr : list string)
    (ctx ctx' : nk_context) (fb w h pitch : Z) (fr : frame) :
  nk_cairo_render g stderr ctx fb w h pitch = Ok (fr, ctx') ->
  frame_jobs g [scissor_outline (i2f 0) (i2f 0) (i2f w) (i2f h)] (ctx_commands ctx)
  = Ok (jobs_from new_gstate (cr_calls (fr_cairo fr))).
Proof.
  unfold nk_cairo_render. intros H. apply bind_Ok in H as (fr1 & Hloop & [= <- _]).
  fold (first_frame stderr fb w h pitch) in Hloop.
  set (log0 := cr_calls (fr_cairo (first_frame stderr fb w h pitch))) in *.
  destruct (foreach_jobs g _ _ _ (gstate_after new_gstate log0) Hloop)
    as (calls & Hlog & Hjobs); [reflexivity..|].
  cbn [fr_cairo draw cairo_destroy cairo_surface_destroy cairo_surface_flush emit cr_calls].
  rewrite Hlog. fold log0.
  rewrite <- !app_assoc, !jobs_from_app.
  change (jobs_from new_gstate log0) with (@nil job).
  cbn [jobs_from job_of app]. rewrite app_nil_r. exact Hjobs.
Qed.

End Commands.

(** ** Paths of the remaining commands *)

Section Paths.
Context {F : CFloat} {L : FontLib F}.

(** X18.  A line command strokes the single segment from its first to
    its second point.  An arc command, stroked or filled, draws the arc
    from [a0] to [a1] about its centre and closes it with the chord from
    the arc's end back to its start: the centre is not part of the
    outline.  A scissor command paints nothing and clips to its
    rectangle, whose far corner is computed in single precision. *)
Theorem line_arc_and_scissor_paths (g : globals) (fr : frame) (line_thickness : Z)
    (a b : nk_vec2i) (cx cy r x y w h : Z) (a0 a1 : float) (color : nk_color) :
  drawn g fr (NK_COMMAND_LINE line_thickness a b color)
    = Ok [Stroked [Line (vertex a) (vertex b)]]
  /\ drawn g fr (NK_COMMAND_ARC cx cy r line_thickness a0 a1 color)
    = Ok [Stroked (arc_outline cx cy r a0 a1)]
  /\ drawn g fr (NK_COMMAND_ARC_FILLED cx cy r a0 a1 color)
    = Ok [Filled (arc_outline cx cy r a0 a1)]
  /\ drawn g fr (NK_COMMAND_SCISSOR x y w h)
    = Ok [ClippedTo (scissor_outline (i2f x) (i2f y) (i2f w) (i2f h))].
Proof.
  unfold drawn. simpl. repeat split; f_equal; since_calls; reflexivity.
Qed.

Lemma line_to_points_overrun (pnts : list nk_vec2i) (n : nat) :
  forall (i : Z) (cr : cairo_t),
    0 <= i <= Z.of_nat (length pnts) -> Z.of_nat (length pnts) < i + Z.of_nat n ->
    line_to_points cr pnts i n = Undefined.
Proof.
  induction n as [|n IH]; intros i cr Hi Hn; [lia|].
  cbn [line_to_points].
  destruct (decide (i = Z.of_nat (length pnts))) as [-> | Hne].
  - unfold aread. destruct (Z.of_nat (length pnts) <? 0); [reflexivity|].
    rewrite Nat2Z.id, (lookup_ge_None_2 pnts (length pnts)) by lia. reflexivity.
  - destruct (aread_in_range pnts i) as [p ->]; [lia|]. cbn [mbind outcome_bind].
    apply IH; lia.
Qed.

Lemma line_to_used (cr : cairo_t) (p0 : nk_vec2i) (rest : list nk_vec2i) (count : Z) :
  count <= Z.of_nat (length (p0 :: rest)) ->
  line_to_points cr (p0 :: rest) 1 (Z.to_nat (count - 1))
  = Ok (emit_all cr (line_to_call <$> take (Z.to_nat (count - 1)) rest)).
Proof.
  intros Hc. rewrite line_to_points_run by (simpl length in *; lia).
  change (Z.to_nat 1) with 1%nat. cbn [drop]. rewrite drop_0. reflexivity.
Qed.

(** X19.  Point-array commands, for any point count.  With a point
    array [p0 :: rest] that holds at least [count] points, a polygon
    command, stroked or filled, draws the chain through the first
    [count] points, a segment from the last of them back to [p0], and a
    closing segment of length zero at [p0]; a polyline command draws the
    same chain and closes it with a segment from the last point back to
    [p0].  A count of one or less uses [p0] alone.  With an empty array,
    or a count above the number of points, the command reads outside
    the array.  A triangle command draws what the polygon command of
    its three corners draws. *)
Theorem point_array_paths (g : globals) (fr : frame) (color : nk_color)
    (line_thickness count : Z) (points : list nk_vec2i) :
  (forall p0 rest,
     points = p0 :: rest -> count <= Z.of_nat (length points) ->
     let used := points_used count rest in
     let last := chain_end (vertex p0) used in
     let closed := chain (vertex p0) used
                   ++ [Line last (vertex p0); CloseLine (vertex p0) (vertex p0)] in
     drawn g fr (NK_COMMAND_POLYGON color line_thickness count points)
       = Ok [Stroked closed]
     /\ drawn g fr (NK_COMMAND_POLYGON_FILLED color count points) = Ok [Filled closed]
     /\ drawn g fr (NK_COMMAND_POLYLINE color line_thickness count points)
       = Ok [Stroked (chain (vertex p0) used ++ [CloseLine last (vertex p0)])])
  /\ (points = [] \/ Z.of_nat (length points) < count ->
      drawn g fr (NK_COMMAND_POLYGON color line_thickness count points) = Undefined
      /\ drawn g fr (NK_COMMAND_POLYGON_FILLED color count points) = Undefined
      /\ drawn g fr (NK_COMMAND_POLYLINE color line_thickness count points) = Undefined)
  /\ (forall a b c,
        drawn g fr (NK_COMMAND_TRIANGLE line_thickness a b c color)
          = drawn g fr (NK_COMMAND_POLYGON color line_thickness 3 [a; b; c])
        /\ drawn g fr (NK_COMMAND_TRIANGLE_FILLED a b c color)
          = drawn g fr (NK_COMMAND_POLYGON_FILLED color 3 [a; b; c])).
Proof.
  split; [|split].
  - intros p0 rest -> Hc used last closed. unfold drawn. cbn [render_command].
    unfold nk_cairo_stroke_polygon, nk_cairo_fill_polygon, nk_cairo_stroke_polyline.
    change (aread (p0 :: rest) 0) with (Ok p0). cbn [mbind outcome_bind].
    rewrite !(line_to_used _ _ _ _ Hc). cbn [mbind outcome_bind].
    unfold closed, last, used, points_used.
    repeat split; f_equal; since_calls; unfold shapes;
      cbn [shapes_from path_step app p_segments p_current p_start empty_path];
      match goal with
      | |- context [list_fmap _ _ line_to_call ?l] =>
          change (list_fmap _ _ line_to_call l) with (line_to_call <$> l)
      | _ => idtac
      end;
      rewrite (shapes_from_line_to _ _ (vertex p0)) by reflexivity;
      cbn [shapes_from path_step app p_segments p_current p_start];
      rewrite <- ?app_assoc; reflexivity.
  - intros Hbad. unfold drawn. cbn [render_command].
    unfold nk_cairo_stroke_polygon, nk_cairo_fill_polygon, nk_cairo_stroke_polyline.
    destruct points as [|p0 rest]; [repeat split; reflexivity|].
    destruct Hbad as [Hnil | Hover]; [discriminate|].
    change (aread (p0 :: rest) 0) with (Ok p0). cbn [mbind outcome_bind].
    rewrite !line_to_points_overrun by (simpl length in *; lia).
    repeat split; reflexivity.
  - intros a b c. unfold drawn. simpl. split; f_equal; since_calls; reflexivity.
Qed.

End Paths.

(** ** The frame's resources and diagnostics *)

Section Resources.
Context {F : CFloat} {L : FontLib F}.

Lemma count_app {A} (f : A -> bool) (l1 l2 : list A) :
  length (List.filter f (l1 ++ l2))
  = (length (List.filter f l1) + length (List.filter f l2))%nat.
Proof. rewrite List.filter_app, length_app. reflexivity. Qed.

Lemma lines_no_surface (ps : list nk_vec2i) :
  List.filter makes_surface (line_to_call <$> ps) = []
  /\ List.filter drops_surface (line_to_call <$> ps) = [].
Proof. induction ps as [|p ps [IH1 IH2]]; split; simpl; auto. Qed.

Lemma command_surfaces (g : globals) (fr : frame) (cmd : nk_command)
    (calls : list cairo_call) :
  command_calls g fr cmd = Ok calls ->
  length (List.filter makes_surface calls) = (if is_image cmd then 1 else 0)%nat
  /\ length (List.filter drops_surface calls) = (if is_image cmd then 1 else 0)%nat
  /\ ~ In Create calls /\ ~ In Destroy calls.
Proof.
  intros H. revert H.
  destruct cmd; open_command; walk_command; try discriminate; intros [= <-].
  all: try (repeat split; try reflexivity; simpl; intuition discriminate).
  all: split_at_lines; rewrite !List.filter_app;
    rewrite (proj1 (lines_no_surface _)), (proj2 (lines_no_surface _));
    repeat split; try reflexivity;
    rewrite !in_app_iff, in_map_iff; simpl;
    intros [H | [(p & H & _) | H]]; try discriminate H; intuition discriminate.
Qed.

Lemma foreach_surfaces (g : globals) (cmds : list nk_command) :
  forall fr fr',
    nk_foreach g fr cmds = Ok fr' ->
    exists calls,
      cr_calls (fr_cairo fr') = cr_calls (fr_cairo fr) ++ calls
      /\ length (List.filter makes_surface calls) = length (List.filter is_image cmds)
      /\ length (List.filter drops_surface calls) = length (List.filter is_image cmds)
      /\ ~ In Create calls /\ ~ In Destroy calls.
Proof.
  induction cmds as [|cmd rest IH]; intros fr fr' Hrun.
  - injection Hrun as <-. exists []. rewrite app_nil_r. repeat split; simpl; auto.
  - cbn [nk_foreach] in Hrun. apply bind_Ok in Hrun as (fr1 & Hcmd & Hrest).
    destruct (command_appends _ _ _ _ Hcmd) as [Hlog _].
    assert (Hcalls : command_calls g fr cmd
                     = Ok (calls_since (fr_cairo fr) (fr_cairo fr1))).
    { unfold command_calls. rewrite Hcmd. reflexivity. }
    destruct (command_surfaces _ _ _ _ Hcalls) as (Hm & Hd & Hc & Hx).
    destruct (IH fr1 fr' Hrest) as (calls2 & Hlog2 & Hm2 & Hd2 & Hc2 & Hx2).
    exists (calls_since (fr_cairo fr) (fr_cairo fr1) ++ calls2). split.
    + rewrite Hlog2, Hlog, <- app_assoc. reflexivity.
    + rewrite !count_app, Hm, Hd, Hm2, Hd2. cbn [List.filter].
      destruct (is_image cmd); simpl; rewrite !in_app_iff; intuition.
Qed.

(** X20.  A frame releases what it acquires.  In the calls of a render
    pass that returns, the surfaces made (the one over the frame buffer
    and one per image command) are as many as the surfaces released; one
    drawing context is made, at the start, and it is destroyed by the
    last call of the pass. *)
Theorem render_releases_what_it_makes (g : globals) (stderr : list string)
    (ctx ctx' : nk_context) (fb w h pitch : Z) (fr : frame) :
  nk_cairo_render g stderr ctx fb w h pitch = Ok (fr, ctx') ->
  let log := cr_calls (fr_cairo fr) in
  let images := length (List.filter is_image (ctx_commands ctx)) in
  length (List.filter makes_surface log) = S images
  /\ length (List.filter drops_surface log) = S images
  /\ (exists body,
        log = [ImageSurfaceCreateForData
                 {| surf_data := fb; surf_width := w; surf_height := h;
                    surf_stride := pitch |}; Create] ++ body ++ [Destroy]
        /\ ~ In Create body /\ ~ In Destroy body).
Proof.
  unfold nk_cairo_render. intros H. apply bind_Ok in H as (fr1 & Hloop & [= <- _]).
  destruct (foreach_surfaces g _ _ _ Hloop) as (calls & Hlog & Hm & Hd & Hc & Hx).
  cbn [fr_cairo draw cairo_destroy cairo_surface_destroy cairo_surface_flush emit cr_calls].
  rewrite Hlog. cbn [fr_cairo cr_calls nk_cairo_scissor cairo_clip cairo_line_to cairo_move_to
                       cairo_new_path cairo_reset_clip cairo_create emit].
  rewrite <- !app_assoc. cbn [app].
  split; [|split].
  - simpl. rewrite count_app, Hm. simpl. lia.
  - simpl. rewrite count_app, Hd. simpl. lia.
  - match goal with
    | |- exists body, ?a :: ?b :: ?pre ++ _ = _ /\ _ =>
        exists (pre ++ calls ++ [SurfaceFlush; SurfaceDestroy])
    | |- exists body, ?a :: ?b :: ?c1 :: ?c2 :: ?c3 :: ?c4 :: ?c5 :: ?c6 :: ?c7 :: ?c8 :: _ = _ /\ _ =>
        exists ([c1; c2; c3; c4; c5; c6; c7; c8] ++ calls ++ [SurfaceFlush; SurfaceDestroy])
    end.
    split; [cbn [app]; rewrite <- !app_assoc; reflexivity|].
    rewrite !in_app_iff. simpl. intuition discriminate.
Qed.

Lemma foreach_stderr (g : globals) (cmds : list nk_command) :
  forall fr fr',
    nk_foreach g fr cmds = Ok fr' ->
    fr_stderr fr' = fr_stderr fr ++ concat (diagnostic <$> cmds).
Proof.
  induction cmds as [|cmd rest IH]; intros fr fr' Hrun.
  - injection Hrun as <-. simpl. rewrite app_nil_r. reflexivity.
  - cbn [nk_foreach] in Hrun. apply bind_Ok in Hrun as (fr1 & Hcmd & Hrest).
    rewrite (IH _ _ Hrest), (render_command_stderr _ _ _ _ Hcmd).
    rewrite fmap_cons. cbn [concat]. rewrite <- app_assoc. reflexivity.
Qed.

Lemma quiet_commands (cmds : list nk_command) :
  Forall (fun cmd => diagnostic cmd = []) cmds -> concat (diagnostic <$> cmds) = [].
Proof.
  induction 1 as [|cmd rest Hcmd _ IH]; [reflexivity|].
  rewrite fmap_cons. cbn [concat]. rewrite Hcmd, IH. reflexivity.
Qed.

(** X21.  What a frame writes to [stderr] is, in command order, the
    diagnostic lines of its curve, multi-colour rectangle, arc and
    filled-arc commands, after what was there; a frame without such
    commands writes nothing. *)
Theorem frame_diagnostics (g : globals) (stderr : list string)
    (ctx ctx' : nk_context) (fb w h pitch : Z) (fr : frame) :
  nk_cairo_render g stderr ctx fb w h pitch = Ok (fr, ctx') ->
  fr_stderr fr = stderr ++ concat (diagnostic <$> ctx_commands ctx)
  /\ (Forall (fun cmd => diagnostic cmd = []) (ctx_commands ctx) ->
      fr_stderr fr = stderr).
Proof.
  unfold nk_cairo_render. intros H. apply bind_Ok in H as (fr1 & Hloop & [= <- _]).
  apply foreach_stderr in Hloop. cbn [fr_stderr draw]. split; [exact Hloop|].
  intros Hquiet. rewrite Hloop.
  rewrite (quiet_commands _ Hquiet). apply app_nil_r.
Qed.

End Resources.

(** ** Colours *)

Lemma byte_values_all (c : Z) : 0 <= c <= 255 -> In c byte_values.
Proof.
  intros Hc. unfold byte_values. apply in_map_iff. exists (Z.to_nat c).
  split; [lia|]. apply in_seq. lia.
Qed.

Lemma channels_increase :
  let table := List.map channel_entry byte_values in
  forallb (fun p => forallb (increasing p) table) table = true.
Proof. vm_compute. reflexivity. Qed.

Lemma channel_ends :
  @eq spec_float (channel (F := IEEE.ieee) 0) (i2d (CFloat := IEEE.ieee) 0)
  /\ @eq spec_float (channel (F := IEEE.ieee) 255) (i2d (CFloat := IEEE.ieee) 1).
Proof. split; vm_compute; reflexivity. Qed.

(** X22.  Colours in IEEE arithmetic.  The colour of a command is
    handed to Cairo as four binary64 components, each the channel value
    divided by 255.  For channel values 0 to 255 the component of 0 is
    exactly 0, the component of 255 is exactly 1, and a smaller channel
    value gives a strictly smaller component: all components lie
    between 0 and 1, and no two channel values are merged by
    rounding. *)
Theorem colour_components_in_range (L : FontLib IEEE.ieee) (cr : @cairo_t IEEE.ieee L)
    (col : nk_color) (c c' : Z) :
  0 <= c <= 255 -> 0 <= c' <= 255 ->
  calls_since cr (nk_cairo_set_color cr col)
    = [SetSourceRgba (channel (col_r col)) (channel (col_g col))
                     (channel (col_b col)) (channel (col_a col))]
  /\ channel (F := IEEE.ieee) 0 = i2d 0
  /\ channel (F := IEEE.ieee) 255 = i2d 1
  /\ (c < c' -> dltb (channel (F := IEEE.ieee) c) (channel c') = true).
Proof.
  intros Hc Hc'. split; [since_calls; reflexivity|].
  split; [exact (proj1 channel_ends)|]. split; [exact (proj2 channel_ends)|].
  intros Hlt. pose proof channels_increase as H. cbv zeta in H.
  rewrite forallb_forall in H.
  specialize (H (channel_entry c) (in_map channel_entry _ _ (byte_values_all c Hc))).
  rewrite forallb_forall in H.
  specialize (H (channel_entry c') (in_map channel_entry _ _ (byte_values_all c' Hc'))).
  unfold increasing, channel_entry in H. cbn [fst snd] in H.
  destruct (c <? c') eqn:E; [exact H | lia].
Qed.

(** ** The backend on concrete inputs *)

Import Demo.
Import Tour.

Example nk_cairo_init_started : @nk_cairo_init F64 fonts static_globals = Ok started.
Proof. reflexivity. Qed.

(** C1 fails when the caller reuses the buffer it passed the path in.
    "a.ttf" is requested through the buffer; the caller overwrites the
    buffer with "b.ttf"; "a.ttf" is requested again, at the same size:
    the loop compares it with what the buffer holds now, finds nothing,
    and the file is opened a second time, into a second face and a
    second sized font under another handle. *)
Lemma rewritten_buffer_loads_again :
  buffer_a buffer = Some "a.ttf" /\ buffer_b a_ttf = Some "a.ttf"
  /\ nk_cairo_ttf buffer_a started buffer 12 = Ok (0, reused)
  /\ nk_cairo_ttf buffer_b reused a_ttf 12 = Ok (1, reloaded)
  /\ nk_cairo_face reloaded = 2 /\ nk_cairo_font reloaded = 2
  /\ ft_loaded reloaded = ["a.ttf"; "a.ttf"].
Proof.
  split; [reflexivity|]. split; [reflexivity|].
  split; [evaluate; reflexivity|]. split; [evaluate; reflexivity|].
  split; [reflexivity|]. split; reflexivity.
Qed.

(** ... and "b.ttf", requested through the buffer that held "a.ttf"
    before, is taken for "a.ttf": no file is opened, and the handle is
    the one of the font made of "a.ttf". *)
Example one_buffer_two_fonts :
  buffer_b buffer = Some "b.ttf"
  /\ nk_cairo_ttf buffer_b reused buffer 12 = Ok (0, reused)
  /\ ft_loaded reused = ["a.ttf"].
Proof. split; [reflexivity|]. split; [evaluate; reflexivity | reflexivity]. Qed.

Lemma nk_cairo_ttf_idempotent_witness :
  nk_cairo_ttf literals started sans_ttf 24 = Ok (0, loaded)
  /\ copied buffer = literals sans_ttf
  /\ buffers_kept literals copied loaded
  /\ nk_cairo_ttf copied loaded buffer 24 = Ok (0, loaded).
Proof.
  assert (H : nk_cairo_ttf literals started sans_ttf 24 = Ok (0, loaded))
    by (evaluate; reflexivity).
  assert (Hkept : buffers_kept literals copied loaded)
    by (apply buffers_kept_by_paths; reflexivity).
  split; [exact H|]. split; [reflexivity|]. split; [exact Hkept|].
  exact (nk_cairo_ttf_idempotent literals copied started loaded sans_ttf buffer 24 0
           H eq_refl Hkept).
Defined.

Lemma font_tables_within_capacity_witness :
  nk_cairo_init static_globals = Ok started
  /\ buffers_live (many_fonts 17)
  /\ ((exists g, ttf_calls started (many_fonts 17) = Ok g
         /\ nk_cairo_face g <= MAXFONTS /\ nk_cairo_font g <= MAXFONTS
         /\ Z.of_nat (length (nk_cairo_faces g)) = MAXFONTS
         /\ Z.of_nat (length (nk_cairo_fonts g)) = MAXFONTS)
      \/ ttf_calls started (many_fonts 17) = AssertFailed)
  /\ nk_cairo_face toured <= MAXFONTS /\ nk_cairo_font toured <= MAXFONTS
  /\ Z.of_nat (length (nk_cairo_faces toured)) = MAXFONTS
  /\ Z.of_nat (length (nk_cairo_fonts toured)) = MAXFONTS.
Proof.
  assert (Hlive : buffers_live (many_fonts 17)) by reflexivity.
  destruct (font_tables_within_capacity started (many_fonts 17) eq_refl) as [_ Hruns].
  destruct (font_tables_within_capacity started ((literals, sans_ttf, 24) :: more_requests)
              eq_refl) as [Hbounds _].
  split; [reflexivity|]. split; [exact Hlive|]. split; [exact (Hruns Hlive)|].
  apply Hbounds. evaluate. reflexivity.
Defined.

(** Sixteen faces fill the tables; the seventeenth request fails its
    assertion. *)
Example seventeen_faces_abort : ttf_calls started (many_fonts 17) = AssertFailed.
Proof. reflexivity. Qed.

Example sixteen_faces_fit :
  exists g,
    ttf_calls started (many_fonts 16) = Ok g
    /\ nk_cairo_face g = 16 /\ nk_cairo_font g = 16.
Proof. eexists. split; [evaluate; reflexivity|]. split; reflexivity. Qed.



(** C3.  The polyline through (0,0), (10,0), (10,10): the stroked path
    visits the points in order and then, through the [cairo_close_path]
    the function ends with, runs back from the last point to the first;
    it is not the open polyline. *)
Theorem polyline_stroke_is_closed :
  drawn started canvas (NK_COMMAND_POLYLINE black 1 3 zigzag)
  = Ok [Stroked [Line (vertex (corner 0 0)) (vertex (corner 10 0));
                 Line (vertex (corner 10 0)) (vertex (corner 10 10));
                 CloseLine (vertex (corner 10 10)) (vertex (corner 0 0))]]
  /\ drawn started canvas (NK_COMMAND_POLYLINE black 1 3 zigzag)
     <> Ok [Stroked (open_polyline zigzag)].
Proof.
  split; [evaluate; reflexivity|].
  intros H. evaluate_in H. discriminate H.
Qed.

(** C4 fails for the arc command, which is drawn and also writes a line
    to [stderr]. *)
Lemma arc_command_writes_diagnostic :
  ~ (forall (fr fr' : frame) (cmd : nk_command),
       cmd <> NK_COMMAND_CURVE -> cmd <> NK_COMMAND_RECT_MULTI_COLOR ->
       render_command started fr cmd = Ok fr' -> fr_stderr fr' = fr_stderr fr).
Proof.
  intros Hclaim.
  specialize (Hclaim canvas _ (NK_COMMAND_ARC 50 50 20 1 (i2f 0) (i2f 1) black)
                ltac:(discriminate) ltac:(discriminate) eq_refl).
  evaluate_in Hclaim. discriminate Hclaim.
Qed.

Lemma diagnostics_by_command_witness :
  fr_stderr canvas ++ diagnostic (F := F64) NK_COMMAND_CURVE
  = [("NK_COMMAND_CURVE not implemented" ++ newline)%string]
  /\ exists line,
       diagnostic (F := F64) NK_COMMAND_CURVE = [line]
       /\ render_command started canvas NK_COMMAND_CURVE = Ok (fprintf_stderr canvas line)
       /\ fr_cairo (fprintf_stderr canvas line) = fr_cairo canvas
       /\ forall rest,
            nk_foreach started canvas (NK_COMMAND_CURVE :: rest)
            = nk_foreach started (fprintf_stderr canvas line) rest.
Proof.
  destruct (diagnostics_by_command started canvas NK_COMMAND_CURVE) as [Hall Hskip].
  split.
  - rewrite <- (Hall (fprintf_stderr canvas
                         ("NK_COMMAND_CURVE not implemented" ++ newline)%string) eq_refl).
    reflexivity.
  - apply Hskip. left. reflexivity.
Defined.

Lemma rect_command_path_witness :
  drawn started canvas (NK_COMMAND_RECT 0 1 10 20 30 40 black)
    = Ok [Stroked (rectangle_outline 10 20 30 40)]
  /\ exists angle : Z -> spec_float,
       forallb (fun k => is_degrees k (angle k)) corner_angles = true
       /\ drawn started canvas (NK_COMMAND_RECT 4 1 10 20 30 40 black)
          = Ok [Stroked (rounded_outline (F := F64) angle 10 20 30 40 4)]
       /\ drawn started canvas (NK_COMMAND_RECT_FILLED 4 10 20 30 40 black)
          = Ok [Filled (rounded_outline (F := F64) angle 10 20 30 40 4)].
Proof.
  split.
  - apply (rect_command_path (L := fonts) started canvas 0 1 10 20 30 40 black). reflexivity.
  - apply (rect_command_path (L := fonts) started canvas 4 1 10 20 30 40 black). lia.
Defined.

(** The angle a quarter turn comes out as, and a number that is no
    quarter turn. *)
Example quarter_turn :
  is_degrees 90 (@dmul F64 (@i2d F64 90) (@degrees F64)) = true
  /\ is_degrees 90 (@i2d F64 0) = false
  /\ is_degrees 90 (@dmul F64 (@i2d F64 91) (@degrees F64)) = false.
Proof. repeat split; vm_compute; reflexivity. Qed.

(** C6 fails for the box (0, 0, 10, 4): the circle is drawn about (2, 2),
    not about the centre (5, 2) of the box. *)
Lemma circle_not_centred :
  drawn started canvas (NK_COMMAND_CIRCLE 0 0 1 10 4 black)
  = Ok [Stroked (circle_outline (i2d 2) (i2d 2) (i2d 2))]
  /\ drawn started canvas (NK_COMMAND_CIRCLE 0 0 1 10 4 black)
     <> Ok [Stroked (inscribed_circle 0 0 10 4)].
Proof.
  split; [evaluate; reflexivity|].
  intros H. evaluate_in H. discriminate H.
Qed.

Lemma circle_command_geometry_witness :
  drawn started canvas (NK_COMMAND_CIRCLE 0 0 1 10 4 black)
    = Ok [Stroked (circle_outline (i2d 2) (i2d 2) (i2d 2))]
  /\ 2 * Z.quot (Z.min 7 9) 2 <= Z.min 7 9 <= 2 * Z.quot (Z.min 7 9) 2 + 1
  /\ 2 * (5 + Z.quot (Z.min 8 8) 2) = 2 * 5 + 8.
Proof.
  split; [apply (circle_command_geometry started canvas 0 0 1 10 4 black)|].
  split.
  - apply (circle_command_geometry started canvas 0 0 1 7 9 black); lia.
  - apply (circle_command_geometry started canvas 5 5 1 8 8 black); [reflexivity..|lia].
Defined.

Lemma one_frame_renderable : Forall (renderable loaded) (ctx_commands one_frame).
Proof.
  repeat constructor; try (simpl; lia); try discriminate.
  exists sans24, sans24, sans. repeat split; reflexivity.
Defined.

Lemma nk_cairo_render_epilogue_witness :
  exists fr_loop fr,
    nk_foreach loaded (first_frame [] 4096 100 100 400) (ctx_commands one_frame) = Ok fr_loop
    /\ nk_cairo_render loaded [] one_frame 4096 100 100 400 = Ok (fr, nk_clear one_frame)
    /\ cr_calls (fr_cairo fr)
       = cr_calls (fr_cairo fr_loop) ++ [SurfaceFlush; SurfaceDestroy; Destroy]
    /\ ctx_commands (nk_clear one_frame) = []
    /\ exists fr2,
         nk_cairo_render loaded (fr_stderr fr) (nk_clear one_frame) 4096 100 100 400
           = Ok (fr2, nk_clear one_frame)
         /\ List.filter paints (cr_calls (fr_cairo fr2)) = []
         /\ forall px : @pixels F64 fonts (counting_raster F64),
              pixels_after [] (cr_calls (fr_cairo fr2)) px = px.
Proof.
  apply (nk_cairo_render_epilogue (R := counting_raster F64)
           loaded [] one_frame 4096 100 100 400 one_frame_renderable).
Defined.

Example one_frame_paints :
  exists fr, nk_cairo_render loaded [] one_frame 4096 100 100 400 = Ok (fr, nk_clear one_frame)
    /\ pixels_after (R := counting_raster F64) [] (cr_calls (fr_cairo fr)) 0%nat = 3%nat
    /\ fr_stderr fr = [("NK_COMMAND_CURVE not implemented" ++ newline)%string].
Proof. eexists. split; [evaluate; reflexivity|]. split; evaluate; reflexivity. Qed.


Example drawimage_rounds :
  surface_origins (cr_matrix (fr_cairo canvas))
    (calls_since (fr_cairo canvas)
       (nk_cairo_drawimage (fr_cairo canvas) 29 5 7 1 image1 black))
  = [(S754_finite false 8162774324609025 (-48), @i2d F64 5)]
  /\ @i2d F64 29 = (S754_finite false 8162774324609024 (-48) : @double F64).
Proof. split; evaluate; reflexivity. Qed.


Lemma nk_cairo_text_width_ignores_h_witness :
  nk_cairo_text_width loaded (Some 0) (i2f 24) hi 2
  = nk_cairo_text_width loaded (Some 0) (i2f 1000) hi 2
  /\ width_of (nk_cairo_text_width loaded (Some 0) (i2f 24) hi 2)
     = width_of (nk_cairo_text_width loaded (Some 0) (i2f 1000) hi 2).
Proof.
  destruct (nk_cairo_text_width_ignores_h (F := F64) (L := fonts)
              (Some 0) hi 2 (i2f 24) (i2f 1000)) as [Hsame Hstate].
  split; [apply Hsame|].
  destruct (nk_cairo loaded) as [scratch|] eqn:Hscratch; [|discriminate Hscratch].
  apply (Hstate loaded loaded sans24 sans24 sans sans scratch scratch);
    first [reflexivity | exact Hscratch].
Defined.

(** ** The cache, text and painting properties on concrete inputs *)

Import Tour.

Lemma started_ok : cache_ok started.
Proof. apply nk_cairo_init_ok. reflexivity. Defined.

Lemma loaded_ok : cache_ok loaded.
Proof.
  apply (nk_cairo_ttf_keeps_ok literals started loaded sans_ttf 24 0);
    [evaluate; reflexivity | exact started_ok].
Defined.

Lemma crowded_ok : cache_ok crowded.
Proof.
  apply (ttf_calls_keep_ok (many_fonts 16) started crowded);
    [evaluate; reflexivity | exact started_ok].
Defined.

Lemma loaded_paths :
  stored_path literals <$> take (Z.to_nat (nk_cairo_face loaded)) (nk_cairo_faces loaded)
  = Some <$> ["sans.ttf"].
Proof. vm_compute. reflexivity. Defined.

Lemma crowded_paths :
  stored_path literals <$> take (Z.to_nat (nk_cairo_face crowded)) (nk_cairo_faces crowded)
  = Some <$> ["A.ttf"; "B.ttf"; "C.ttf"; "D.ttf"; "E.ttf"; "F.ttf"; "G.ttf"; "H.ttf";
              "I.ttf"; "J.ttf"; "K.ttf"; "L.ttf"; "M.ttf"; "N.ttf"; "O.ttf"; "P.ttf"].
Proof. vm_compute. reflexivity. Defined.

Lemma nk_cairo_ttf_keeps_entries_witness :
  ttf_calls loaded more_requests = Ok toured
  /\ nk_cairo_face loaded <= nk_cairo_face toured
  /\ nk_cairo_font loaded <= nk_cairo_font toured
  /\ (forall i, 0 <= i < nk_cairo_face loaded ->
        aread (nk_cairo_faces toured) i = aread (nk_cairo_faces loaded) i)
  /\ (forall handle, 0 <= handle < nk_cairo_font loaded ->
        deref_font toured (Some handle) = deref_font loaded (Some handle)).
Proof.
  assert (H : ttf_calls loaded more_requests = Ok toured) by (evaluate; reflexivity).
  split; [exact H|]. apply (nk_cairo_ttf_keeps_entries loaded toured more_requests H).
Defined.

(** "sans.ttf" at 24 pixels is requested as a literal, other fonts are
    requested, and it is requested again through a buffer the path was
    copied to. *)
Lemma nk_cairo_ttf_same_request_later_witness :
  nk_cairo_ttf literals started sans_ttf 24 = Ok (0, loaded)
  /\ ttf_calls loaded more_requests = Ok toured
  /\ copied buffer = literals sans_ttf
  /\ buffers_kept literals copied loaded
  /\ nk_cairo_ttf copied toured buffer 24 = Ok (0, toured).
Proof.
  assert (H1 : nk_cairo_ttf literals started sans_ttf 24 = Ok (0, loaded))
    by (evaluate; reflexivity).
  assert (H2 : ttf_calls loaded more_requests = Ok toured) by (evaluate; reflexivity).
  assert (Hkept : buffers_kept literals copied loaded)
    by (apply buffers_kept_by_paths; reflexivity).
  split; [exact H1|]. split; [exact H2|]. split; [reflexivity|]. split; [exact Hkept|].
  exact (nk_cairo_ttf_same_request_later literals copied started loaded toured
           sans_ttf buffer 24 0 more_requests H1 H2 eq_refl Hkept).
Defined.

(** "sans.ttf" at 24 pixels gets handle 0; later "mono.ttf" at 12 gets
    handle 1, and "sans.ttf" at 30 gets handle 2. *)
Lemma nk_cairo_ttf_handles_distinct_witness :
  nk_cairo_ttf literals started sans_ttf 24 = Ok (0, loaded)
  /\ ttf_calls loaded more_requests = Ok toured
  /\ nk_cairo_ttf literals toured mono_ttf 12 = Ok (1, toured)
  /\ nk_cairo_ttf literals toured sans_ttf 30 = Ok (2, toured)
  /\ (0 <> 1 /\ 0 <> 2).
Proof.
  assert (H1 : nk_cairo_ttf literals started sans_ttf 24 = Ok (0, loaded))
    by (evaluate; reflexivity).
  assert (H2 : ttf_calls loaded more_requests = Ok toured) by (evaluate; reflexivity).
  assert (H3 : nk_cairo_ttf literals toured mono_ttf 12 = Ok (1, toured))
    by (evaluate; reflexivity).
  assert (H4 : nk_cairo_ttf literals toured sans_ttf 30 = Ok (2, toured))
    by (evaluate; reflexivity).
  assert (Hkept : buffers_kept literals literals loaded) by (intros i e _ _; reflexivity).
  split; [exact H1|]. split; [exact H2|]. split; [exact H3|]. split; [exact H4|].
  split.
  - apply (nk_cairo_ttf_handles_distinct literals literals started loaded toured toured
             sans_ttf mono_ttf 24 12 0 1 more_requests H1 H2 H3 Hkept).
    left. discriminate.
  - apply (nk_cairo_ttf_handles_distinct literals literals started loaded toured toured
             sans_ttf sans_ttf 24 30 0 2 more_requests H1 H2 H4 Hkept).
    right. lia.
Defined.

Lemma font_files_loaded_once_witness :
  nk_cairo_init static_globals = Ok started
  /\ ttf_calls started (in_memory literals [(sans_ttf, 24); (mono_ttf, 12); (sans_ttf, 30)])
     = Ok toured
  /\ NoDup (ft_loaded toured)
  /\ ft_loaded toured = face_paths literals toured
  /\ forall path,
       path ∈ ft_loaded toured
       <-> exists r, r ∈ [(sans_ttf, 24); (mono_ttf, 12); (sans_ttf, 30)]
                     /\ literals r.1 = Some path.
Proof.
  assert (H : ttf_calls started
                (in_memory literals [(sans_ttf, 24); (mono_ttf, 12); (sans_ttf, 30)])
              = Ok toured) by (evaluate; reflexivity).
  split; [reflexivity|]. split; [exact H|].
  apply (font_files_loaded_once literals started toured
           [(sans_ttf, 24); (mono_ttf, 12); (sans_ttf, 30)] eq_refl H).
Defined.

Example files_of_the_tour : ft_loaded toured = ["sans.ttf"; "mono.ttf"].
Proof. reflexivity. Qed.

Lemma returned_font_is_complete_witness :
  nk_cairo_init static_globals = Ok started
  /\ ttf_calls started (in_memory literals [(sans_ttf, 24)]) = Ok loaded
  /\ nk_cairo_ttf literals loaded mono_ttf 12
     = Ok (1, match nk_cairo_ttf literals loaded mono_ttf 12 with
              | Ok (_, g) => g
              | _ => loaded
              end)
  /\ exists cfont path (ft : @FT_Face F64 fonts) q,
       literals mono_ttf = Some path
       /\ deref_font (match nk_cairo_ttf literals loaded mono_ttf 12 with
                      | Ok (_, g) => g
                      | _ => loaded
                      end) (Some 1) = Ok cfont
       /\ fn_size cfont = 12
       /\ FT_New_Face path = Some ft
       /\ aread (nk_cairo_faces (match nk_cairo_ttf literals loaded mono_ttf 12 with
                                 | Ok (_, g) => g
                                 | _ => loaded
                                 end)) (fn_face cfont)
          = Ok {| fc_ttf := Some q; fc_ft := Some ft;
                  fc_ca := Some (cairo_ft_font_face_create_for_ft_face ft) |}
       /\ literals q = Some path
       /\ fn_font cfont
          = {| uf_userdata := Some 1;
               uf_height := d2f (fe_height
                                   (font_extents_of
                                      (Some (cairo_ft_font_face_create_for_ft_face ft))
                                      (i2d 12)));
               uf_width := Some nk_cairo_text_width_ptr |}.
Proof.
  assert (H1 : ttf_calls started (in_memory literals [(sans_ttf, 24)]) = Ok loaded)
    by (evaluate; reflexivity).
  assert (H2 : nk_cairo_ttf literals loaded mono_ttf 12
               = Ok (1, match nk_cairo_ttf literals loaded mono_ttf 12 with
                        | Ok (_, g) => g
                        | _ => loaded
                        end)) by (evaluate; reflexivity).
  split; [reflexivity|]. split; [exact H1|]. split; [exact H2|].
  apply (returned_font_is_complete literals started loaded _ [(sans_ttf, 24)] mono_ttf 12 1
           eq_refl H1 H2).
Defined.

Lemma nk_cairo_ttf_fresh_witness :
  cache_ok loaded /\ literals mono_ttf = Some "mono.ttf"
  /\ unknown_path literals loaded "mono.ttf"
  /\ exists g',
       nk_cairo_ttf literals loaded mono_ttf 12 = Ok (nk_cairo_font loaded, g')
       /\ nk_cairo_face g' = nk_cairo_face loaded + 1
       /\ nk_cairo_font g' = nk_cairo_font loaded + 1
       /\ ft_loaded g' = ft_loaded loaded ++ ["mono.ttf"].
Proof.
  assert (Hnew : unknown_path literals loaded "mono.ttf").
  { apply (unknown_by_paths _ _ _ _ loaded_paths).
    intros Hin. apply list_elem_of_singleton in Hin. discriminate Hin. }
  split; [exact loaded_ok|]. split; [reflexivity|]. split; [exact Hnew|].
  apply (nk_cairo_ttf_fresh literals loaded mono_ttf "mono.ttf" 12
           ("mono.ttf" : @FT_Face F64 fonts) loaded_ok eq_refl Hnew eq_refl); reflexivity.
Defined.

Lemma full_face_table_aborts_witness :
  cache_ok crowded /\ nk_cairo_face crowded = MAXFONTS
  /\ literals 325 = Some "Z.ttf" /\ unknown_path literals crowded "Z.ttf"
  /\ nk_cairo_ttf literals crowded 325 12 = AssertFailed.
Proof.
  assert (Hnew : unknown_path literals crowded "Z.ttf").
  { apply (unknown_by_paths _ _ _ _ crowded_paths). intros Hin.
    repeat (apply elem_of_cons in Hin as [Hin | Hin]; [discriminate Hin|]).
    apply elem_of_nil in Hin. exact Hin. }
  split; [exact crowded_ok|]. split; [reflexivity|]. split; [reflexivity|].
  split; [exact Hnew|].
  apply (full_face_table_aborts literals crowded 325 "Z.ttf" 12 crowded_ok eq_refl
           eq_refl Hnew).
Defined.

Lemma full_font_table_serves_known_witness :
  cache_ok crowded /\ nk_cairo_font crowded = MAXFONTS
  /\ paths_readable literals crowded /\ is_Some (literals 300)
  /\ (nk_cairo_ttf literals crowded 300 12 = AssertFailed
      \/ exists handle,
           nk_cairo_ttf literals crowded 300 12 = Ok (handle, crowded)
           /\ 0 <= handle < MAXFONTS).
Proof.
  assert (Hread : paths_readable literals crowded)
    by exact (readable_by_paths _ _ _ crowded_paths).
  assert (Hsome : is_Some (literals 300)) by (eexists; reflexivity).
  split; [exact crowded_ok|]. split; [reflexivity|]. split; [exact Hread|].
  split; [exact Hsome|].
  apply (full_font_table_serves_known literals crowded 300 12 crowded_ok eq_refl
           Hread Hsome).
Defined.

Example known_font_still_served : nk_cairo_ttf literals crowded 300 12 = Ok (0, crowded).
Proof. evaluate. reflexivity. Qed.

Lemma unreadable_font_aborts_witness :
  cache_ok loaded /\ nk_cairo_face loaded < MAXFONTS
  /\ literals no_name = Some "" /\ unknown_path literals loaded ""
  /\ FT_New_Face (FontLib := fonts) "" = None
  /\ assert (nk_cairo_face loaded <? MAXFONTS) = Ok tt
  /\ nk_cairo_ttf literals loaded no_name 12 = AssertFailed.
Proof.
  assert (Hnew : unknown_path literals loaded "").
  { apply (unknown_by_paths _ _ _ _ loaded_paths).
    intros Hin. apply list_elem_of_singleton in Hin. discriminate Hin. }
  assert (Hroom : nk_cairo_face loaded < MAXFONTS) by reflexivity.
  split; [exact loaded_ok|]. split; [exact Hroom|]. split; [reflexivity|].
  split; [exact Hnew|]. split; [reflexivity|].
  apply (unreadable_font_aborts literals loaded no_name "" 12 loaded_ok Hroom eq_refl
           Hnew eq_refl).
Defined.

Lemma nk_cairo_ttf_needs_init_witness :
  nk_cairo (F := F64) (L := fonts) static_globals = None
  /\ nk_cairo_font (F := F64) (L := fonts) static_globals = 0
  /\ forall r,
       nk_cairo_ttf (F := F64) (L := fonts) literals static_globals sans_ttf 24 <> Ok r.
Proof.
  split; [reflexivity|]. split; [reflexivity|].
  apply (nk_cairo_ttf_needs_init literals static_globals sans_ttf 24 eq_refl eq_refl).
Defined.


Lemma measuring_changes_nothing_witness :
  nk_cairo_text_width loaded (Some 0) (i2f 24) hi 2 = Ok (i2f 48, measured)
  /\ same_tables loaded measured
  /\ (forall handle2 h2 text2 len2,
        width_of (nk_cairo_text_width measured handle2 h2 text2 len2)
        = width_of (nk_cairo_text_width loaded handle2 h2 text2 len2))
  /\ (forall mem ttf ttf_size,
        handle_of (nk_cairo_ttf mem measured ttf ttf_size)
        = handle_of (nk_cairo_ttf mem loaded ttf ttf_size))
  /\ (forall stderr ctx fb width height pitch,
        nk_cairo_render measured stderr ctx fb width height pitch
        = nk_cairo_render loaded stderr ctx fb width height pitch).
Proof.
  assert (H : nk_cairo_text_width loaded (Some 0) (i2f 24) hi 2 = Ok (i2f 48, measured))
    by (evaluate; reflexivity).
  split; [exact H|].
  apply (measuring_changes_nothing loaded measured (Some 0) (i2f 24) (i2f 48) hi 2 H).
Defined.


Lemma text_is_drawn_as_measured_witness :
  aread (nk_cairo_fonts loaded) 0 = Ok sans24
  /\ nk_cairo loaded = Some (scratch_of loaded)
  /\ ((exists cairo',
         nk_cairo_draw_text loaded (fr_cairo canvas) 0 (nk_rect (i2f 14) (i2f 14) (i2f 72)
           (i2f 24)) hi 2 (i2f 24) black = Ok cairo')
      <-> (exists r,
             nk_cairo_text_width loaded (uf_userdata (fn_font sans24)) (i2f 24) hi 2 = Ok r)).
Proof.
  assert (H1 : aread (nk_cairo_fonts loaded) 0 = Ok sans24) by (evaluate; reflexivity).
  assert (H2 : nk_cairo loaded = Some (scratch_of loaded)) by (evaluate; reflexivity).
  split; [exact H1|]. split; [exact H2|].
  apply (text_is_drawn_as_measured loaded (fr_cairo canvas) (scratch_of loaded) 0 sans24
           (nk_rect (i2f 14) (i2f 14) (i2f 72) (i2f 24)) hi 2 (i2f 24) (i2f 24) black H1 H2).
Defined.

Lemma commands_do_not_leak_witness :
  gs_clip (gstate_of canvas) = gs_clip (gstate_of after_text)
  /\ p_segments (gs_path (gstate_of canvas)) = []
  /\ p_segments (gs_path (gstate_of after_text)) = []
  /\ gs_font_size (gstate_of canvas) <> gs_font_size (gstate_of after_text)
  /\ p_current (gs_path (gstate_of canvas)) <> p_current (gs_path (gstate_of after_text))
  /\ paints_of loaded (gstate_of canvas) canvas (NK_COMMAND_RECT 0 1 10 20 30 40 black)
     = paints_of loaded (gstate_of after_text) after_text
         (NK_COMMAND_RECT 0 1 10 20 30 40 black).
Proof.
  assert (Hc : gs_clip (gstate_of canvas) = gs_clip (gstate_of after_text))
    by (evaluate; reflexivity).
  assert (Hp1 : p_segments (gs_path (gstate_of canvas)) = []) by (evaluate; reflexivity).
  assert (Hp2 : p_segments (gs_path (gstate_of after_text)) = []) by (evaluate; reflexivity).
  split; [exact Hc|]. split; [exact Hp1|]. split; [exact Hp2|].
  split; [intros H; evaluate_in H; discriminate H|].
  split; [intros H; evaluate_in H; discriminate H|].
  apply (commands_do_not_leak loaded canvas after_text (gstate_of canvas)
           (gstate_of after_text) (NK_COMMAND_RECT 0 1 10 20 30 40 black));
    first [exact Hc | exact Hp1 | exact Hp2 | evaluate; reflexivity].
Defined.

Lemma command_paints_with_own_attributes_witness :
  exists js,
    paints_of loaded (gstate_of canvas) canvas
      (NK_COMMAND_LINE 2 (corner 0 0) (corner 50 50) black) = Ok js
    /\ length js = 1%nat
    /\ (forall j, j ∈ js ->
          job_clip j = gs_clip (gstate_of canvas)
          /\ job_source j = rgba black
          /\ (forall path width, job_ink j = StrokeOf path width -> width = i2d 2)
          /\ job_matrix j = gs_matrix (gstate_of canvas))
    /\ omap job_shape js = [Stroked [Line (vertex (corner 0 0)) (vertex (corner 50 50))]].
Proof.
  destruct (paints_of loaded (gstate_of canvas) canvas
              (NK_COMMAND_LINE 2 (corner 0 0) (corner 50 50) black)) as [js| |] eqn:H;
    [|evaluate_in H; discriminate H..].
  exists js. split; [reflexivity|].
  destruct (command_paints_with_own_attributes loaded canvas (gstate_of canvas)
              (NK_COMMAND_LINE 2 (corner 0 0) (corner 50 50) black) js H)
    as (Hlen & Hall & shs & Hdrawn & Hshapes); [evaluate; reflexivity..|].
  split; [exact Hlen|]. split.
  - intros j Hj. destruct (Hall j Hj) as (Hclip & Hcol & Hthick & Hmat).
    split; [exact Hclip|]. split; [apply Hcol; reflexivity|].
    split; [intros path width; apply Hthick; reflexivity | exact Hmat].
  - rewrite Hshapes. evaluate_in Hdrawn. injection Hdrawn as <-. reflexivity.
Defined.

Lemma frame_paints_command_by_command_witness :
  nk_cairo_render loaded [] busy_frame 4096 100 100 400 = Ok (rendered, nk_clear busy_frame)
  /\ frame_jobs loaded [scissor_outline (i2f 0) (i2f 0) (i2f 100) (i2f 100)]
       (ctx_commands busy_frame)
     = Ok (jobs_from new_gstate (cr_calls (fr_cairo rendered))).
Proof.
  assert (H : nk_cairo_render loaded [] busy_frame 4096 100 100 400
              = Ok (rendered, nk_clear busy_frame)) by (evaluate; reflexivity).
  split; [exact H|].
  apply (frame_paints_command_by_command loaded [] busy_frame (nk_clear busy_frame)
           4096 100 100 400 rendered H).
Defined.

Lemma point_array_paths_witness :
  drawn loaded canvas (NK_COMMAND_POLYLINE black 1 2 zigzag)
    = Ok [Stroked [Line (vertex (corner 0 0)) (vertex (corner 10 0));
                   CloseLine (vertex (corner 10 0)) (vertex (corner 0 0))]]
  /\ drawn loaded canvas (NK_COMMAND_POLYGON black 1 4 zigzag) = Undefined.
Proof.
  destruct (point_array_paths loaded canvas black 1 2 zigzag) as (Hin & _).
  destruct (point_array_paths loaded canvas black 1 4 zigzag) as (_ & Hout & _).
  split.
  - apply (Hin (corner 0 0) [corner 10 0; corner 10 10] eq_refl). simpl. lia.
  - apply Hout. right. simpl. lia.
Defined.

Lemma render_releases_what_it_makes_witness :
  nk_cairo_render loaded [] busy_frame 4096 100 100 400 = Ok (rendered, nk_clear busy_frame)
  /\ length (List.filter makes_surface (cr_calls (fr_cairo rendered))) = 2%nat
  /\ length (List.filter drops_surface (cr_calls (fr_cairo rendered))) = 2%nat.
Proof.
  assert (H : nk_cairo_render loaded [] busy_frame 4096 100 100 400
              = Ok (rendered, nk_clear busy_frame)) by (evaluate; reflexivity).
  split; [exact H|].
  destruct (render_releases_what_it_makes loaded [] busy_frame (nk_clear busy_frame)
              4096 100 100 400 rendered H) as (Hm & Hd & _).
  split; [exact Hm | exact Hd].
Defined.

Lemma frame_diagnostics_witness :
  nk_cairo_render loaded [] busy_frame 4096 100 100 400 = Ok (rendered, nk_clear busy_frame)
  /\ fr_stderr rendered = [("NK_COMMAND_ARC" ++ newline)%string].
Proof.
  assert (H : nk_cairo_render loaded [] busy_frame 4096 100 100 400
              = Ok (rendered, nk_clear busy_frame)) by (evaluate; reflexivity).
  split; [exact H|].
  destruct (frame_diagnostics loaded [] busy_frame (nk_clear busy_frame)
              4096 100 100 400 rendered H) as [Hall _].
  rewrite Hall. reflexivity.
Defined.

Lemma colour_components_in_range_witness :
  0 <= 128 <= 255 /\ 0 <= 129 <= 255
  /\ dltb (channel (F := F64) 128) (channel 129) = true.
Proof.
  split; [lia|]. split; [lia|].
  apply (colour_components_in_range fonts (fr_cairo canvas) black 128 129); lia.
Defined.

